(** * Row-partitioned matrix multiplication (matrix.cpp)

    A shallow embedding of [matrix.cpp]: the four global [long] matrices,
    [init], the serial [multiply], the per-thread [multiply_range], and the
    part of [main] that reads the worker count and hands out row ranges.

    Conventions of the embedding.
    - [int] is a 32-bit and [long] a 64-bit two's-complement integer (LP64);
      both are carried as [Z] and every arithmetic operation of the source
      is followed by the wrap-around of its type.
    - A global [long m[DIM][DIM]] is a [list (list Z)]; an access outside
      the array is undefined in C++ and is [None] here.
    - A [for] loop is a bounded iteration in the [option] monad.
    - [DIM] is a [constexpr int] of the source (1000 there); the development
      is parametric in it, [DIM_src] is the source's value. *)

From Stdlib Require Import ZArith Lia Ascii.
From stdpp Require Import base tactics option list strings.

(** ** Machine integers *)

Definition wrap (w : Z) (z : Z) : Z :=
  ((z + 2 ^ (w - 1)) mod 2 ^ w - 2 ^ (w - 1))%Z.

Definition INT_MIN : Z := (- 2 ^ 31)%Z.
Definition INT_MAX : Z := (2 ^ 31 - 1)%Z.
Definition LONG_MIN : Z := (- 2 ^ 63)%Z.
Definition LONG_MAX : Z := (2 ^ 63 - 1)%Z.

Definition int_wrap : Z -> Z := wrap 32.
Definition long_wrap : Z -> Z := wrap 64.

Definition int_add (x y : Z) : Z := int_wrap (x + y).
Definition int_sub (x y : Z) : Z := int_wrap (x - y).
Definition long_add (x y : Z) : Z := long_wrap (x + y).
Definition long_mul (x y : Z) : Z := long_wrap (x * y).

Definition is_int (z : Z) : Prop := (INT_MIN <= z <= INT_MAX)%Z.
Definition is_long (z : Z) : Prop := (LONG_MIN <= z <= LONG_MAX)%Z.

(** ** Arrays and loops *)

Abbreviation matrix := (list (list Z)).

(** [m[i][j]] read and written; [None] when [i] or [j] is outside. *)
Definition load (m : matrix) (i j : nat) : option Z :=
  row ← m !! i; row !! j.

Definition store (m : matrix) (i j : nat) (v : Z) : option matrix :=
  row ← m !! i;
  if decide (j < length row) then Some (<[i := <[j := v]> row]> m) else None.

(** An [int] used as an array index. *)
Definition index (i : Z) : option nat :=
  if decide (0 <= i)%Z then Some (Z.to_nat i) else None.

(** [for (int i = lo; i < lo + n; ++i) body], the counter being a natural
    number: the loops of the source that start at 0. *)
Fixpoint for_loop {St : Type} (body : nat -> St -> option St)
    (lo n : nat) (s : St) : option St :=
  match n with
  | O => Some s
  | S n' => s' ← body lo s; for_loop body (S lo) n' s'
  end.

(** The same with an [int] counter that may start anywhere. *)
Fixpoint for_steps {St : Type} (body : Z -> St -> option St)
    (lo : Z) (n : nat) (s : St) : option St :=
  match n with
  | O => Some s
  | S n' => s' ← body lo s; for_steps body (lo + 1)%Z n' s'
  end.

Definition for_range {St : Type} (body : Z -> St -> option St)
    (lo hi : Z) (s : St) : option St :=
  for_steps body lo (Z.to_nat (hi - lo)) s.

(** ** Program state: the four global matrices *)

Record state := State {
  matrix_a : matrix;
  matrix_b : matrix;
  matrix_b_t : matrix;
  matrix_c : matrix
}.

(** [struct ThreadArgs { int row_start; int row_end; }] *)
Record ThreadArgs := MkArgs {
  row_start : Z;
  row_end : Z
}.

(** The value of [DIM] in the source. *)
Definition DIM_src : nat := 1000.

(** ** [atoi]

    [std::atoi] belongs to the C library, not to this program; it is
    written here after ISO C 7.22.1: white space is skipped, one sign is
    accepted, and the longest run of decimal digits is converted; 0 is
    returned when there is no digit.  When the number does not fit an [int]
    the standard leaves the result open (glibc saturates as a [long] and
    truncates, musl wraps): the result is then whatever [unrepresentable]
    says, reduced to an [int].  The properties below hold for every such
    function; [glibc_unrepresentable] is the one of glibc. *)

Definition isspace (c : ascii) : bool :=
  let n := nat_of_ascii c in (n =? 32) || ((9 <=? n) && (n <=? 13)).

Definition isdigit (c : ascii) : bool :=
  let n := nat_of_ascii c in (48 <=? n) && (n <=? 57).

Definition digit_value (c : ascii) : Z := (Z.of_nat (nat_of_ascii c) - 48)%Z.

Fixpoint skip_space (s : string) : string :=
  match s with
  | String c r => if isspace c then skip_space r else s
  | EmptyString => s
  end.

Fixpoint digits (acc : Z) (s : string) : Z :=
  match s with
  | String c r => if isdigit c then digits (10 * acc + digit_value c)%Z r else acc
  | EmptyString => acc
  end.

Definition sign_and_rest (s : string) : bool * string :=
  match s with
  | String "-" r => (true, r)
  | String "+" r => (false, r)
  | _ => (false, s)
  end.

Definition atoi_exact (s : string) : Z :=
  let '(neg, r) := sign_and_rest (skip_space s) in
  if neg then (- digits 0 r)%Z else digits 0 r.

Definition atoi (unrepresentable : string -> Z) (s : string) : Z :=
  let v := atoi_exact s in
  if decide (INT_MIN <= v <= INT_MAX)%Z then v else int_wrap (unrepresentable s).

(** No digit follows the white space and the sign: [atoi] finds no number. *)
Definition unparsable (s : string) : bool :=
  match (sign_and_rest (skip_space s)).2 with
  | String c _ => negb (isdigit c)
  | EmptyString => true
  end.

Fixpoint all_digits (s : string) : bool :=
  match s with
  | String c r => isdigit c && all_digits r
  | EmptyString => true
  end.

Definition starts_with_digit (s : string) : bool :=
  match s with
  | String c _ => isdigit c
  | EmptyString => false
  end.

(** What glibc does with a number that does not fit: [atoi] is
    [(int) strtol (s, NULL, 10)], and [strtol] saturates at the bounds of
    [long]. *)
Definition glibc_unrepresentable (s : string) : Z :=
  let v := atoi_exact s in
  if decide (LONG_MAX < v)%Z then LONG_MAX
  else if decide (v < LONG_MIN)%Z then LONG_MIN else v.

(** ** Output of integers

    [operator<<] of the stream library for an integer, with the flags the
    program leaves at their default: the decimal digits, most significant
    first, without padding, after a [-] for a negative number.  Twenty
    digits are enough for every [long]. *)

Definition newline : ascii := ascii_of_nat 10.

Definition digit_of (d : Z) : ascii := ascii_of_nat (48 + Z.to_nat d).

Fixpoint decimal (fuel : nat) (n : Z) (rest : string) : string :=
  match fuel with
  | O => rest
  | S fuel' =>
      let rest' := String (digit_of (n mod 10)) rest in
      if decide (n < 10)%Z then rest' else decimal fuel' (n / 10) rest'
  end.

Definition format_long (z : Z) : string :=
  if decide (z < 0)%Z then String "-" (decimal 20 (- z) "")
  else decimal 20 z "".

(** The text of a file cut at its newlines; [cur] is the line being read.
    Characters after the last newline form a last line. *)
Fixpoint split_lines (s : string) (cur : string) : list string :=
  match s with
  | EmptyString => match cur with EmptyString => [] | _ => [cur] end
  | String c r =>
      if Ascii.eqb c newline then cur :: split_lines r ""
      else split_lines r (cur +:+ String c "")
  end.

(** Reading a dump back: one number per line. *)
Definition parse_dump (s : string) : list Z :=
  atoi_exact <$> split_lines s "".

(** The text that holds the numbers [vs], one per line. *)
Definition dump (vs : list Z) : string :=
  foldr (fun v s => format_long v +:+ String newline s) "" vs.

(** ** The bottleneck report (lines 194-200)

    The three durations are [double]s; the decision uses nothing of them
    but the comparison [>=], which is [ge] here. *)

Inductive phase := Multiplication | Initialization | Printing.

Definition bottleneck {time : Type} (ge : time -> time -> bool)
    (init_sec mult_sec print_sec : time) : phase :=
  if ge mult_sec init_sec && ge mult_sec print_sec then Multiplication
  else if ge init_sec mult_sec && ge init_sec print_sec then Initialization
  else Printing.

Definition phase_time {time : Type} (init_sec mult_sec print_sec : time)
    (p : phase) : time :=
  match p with
  | Multiplication => mult_sec
  | Initialization => init_sec
  | Printing => print_sec
  end.

(** ** [std::uint64_t] *)

Definition u64_wrap (z : Z) : Z := (z mod 2 ^ 64)%Z.
Definition u64_mul (x y : Z) : Z := u64_wrap (x * y).
Definition u64_add (x y : Z) : Z := u64_wrap (x + y).

(** ** Threads and the barrier

    The state of a worker thread: created (it has not reached line 65 yet),
    blocked in [pthread_barrier_wait], filling its cells, returned. *)
Inductive wstate :=
  | WCreated
  | WWaiting
  | WComputing (cells : list (Z * nat))
  | WDone.

(** Where [main] stands: in the loop of lines 120-132 (with [base], [rem],
    [t] and [start]), blocked in [pthread_barrier_wait] (line 136), in the
    loop of lines 141-148, or returned. *)
Inductive mstate :=
  | MCreating (base rem t start : Z)
  | MBarrier
  | MJoining (t : Z)
  | MExit (code : Z).

Inductive thread := Main | Worker (w : nat).

(** Whether [pthread_barrier_init], [pthread_create] for thread [t] and
    [pthread_join] for thread [t] return 0. *)
Record resources := Resources {
  barrier_init_ok : bool;
  create_ok : Z -> bool;
  join_ok : Z -> bool
}.

Record config := Config {
  c_main : mstate;
  c_targs : list ThreadArgs;   (* the slots of [targs] assigned so far *)
  c_workers : list wstate;     (* the threads created so far *)
  c_arrived : Z;               (* calls of [pthread_barrier_wait] so far *)
  c_mem : state;
  c_cerr : string;
  c_serial : option string     (* [serial.txt], once written *)
}.

(** [unsigned] from [int], as [pthread_barrier_init] takes its count. *)
Definition u32_wrap (z : Z) : Z := (z mod 2 ^ 32)%Z.

Definition barrier_count (nthreads : Z) : Z := u32_wrap (int_add nthreads 1).

Definition msg_barrier : string :=
  "Failed to init barrier" +:+ String newline "".
Definition msg_create (t : Z) : string :=
  "Failed to create multiply thread " +:+ format_long t +:+ String newline "".
Definition msg_join (t : Z) : string :=
  "Failed to join multiply thread " +:+ format_long t +:+ String newline "".

Definition arrived_b (x : wstate) : bool :=
  match x with WCreated => false | _ => true end.

(** The worker has left the barrier. *)
Definition passed_b (x : wstate) : bool :=
  match x with WComputing _ | WDone => true | _ => false end.

(** Number of workers that have called [pthread_barrier_wait]. *)
Definition arrivals (ws : list wstate) : nat :=
  sum_list_with (fun x => if arrived_b x then 1 else 0) ws.

Section Program.

Variable DIM : nat.

(** Globals are zero-initialised before [main] runs. *)
Definition zero_matrix : matrix := replicate DIM (replicate DIM 0%Z).
Definition zero_state : state :=
  State zero_matrix zero_matrix zero_matrix zero_matrix.

(** *** [init] *)

(** Body of the first loop nest (lines 20-22). *)
Definition init_cell (i j : nat) (st : state) : option state :=
  a ← store (matrix_a st) i j (int_add (Z.of_nat i) (Z.of_nat j));
  b ← store (matrix_b st) i j (int_sub (Z.of_nat i) (Z.of_nat j));
  c ← store (matrix_c st) i j 0%Z;
  Some (State a b (matrix_b_t st) c).

(** Body of the second loop nest (line 28). *)
Definition transpose_cell (i j : nat) (st : state) : option state :=
  v ← load (matrix_b st) i j;
  bt ← store (matrix_b_t st) j i v;
  Some (State (matrix_a st) (matrix_b st) bt (matrix_c st)).

Definition init_fill (st : state) : option state :=
  for_loop (fun i => for_loop (init_cell i) 0 DIM) 0 DIM st.

Definition init_transpose (st : state) : option state :=
  for_loop (fun i => for_loop (transpose_cell i) 0 DIM) 0 DIM st.

Definition init (st : state) : option state :=
  st1 ← init_fill st; init_transpose st1.

(** *** [multiply] and [multiply_range] *)

(** [long sum = 0; for (k...) sum += arow[k] * browt[k];] *)
Definition inner_product (arow browt : list Z) : option Z :=
  for_loop (fun k sum =>
              x ← arow !! k; y ← browt !! k;
              Some (long_add sum (long_mul x y))) 0 DIM 0%Z.

(** Body of the [j] loop of [multiply] (lines 38-44). *)
Definition multiply_cell (i j : nat) (st : state) : option state :=
  arow ← matrix_a st !! i;
  browt ← matrix_b_t st !! j;
  sum ← inner_product arow browt;
  c ← store (matrix_c st) i j sum;
  Some (State (matrix_a st) (matrix_b st) (matrix_b_t st) c).

Definition multiply (st : state) : option state :=
  for_loop (fun i => for_loop (multiply_cell i) 0 DIM) 0 DIM st.

(** Body of the [j] loop of [multiply_range] (lines 70-76); the row of A
    was fetched before the loop (line 68). *)
Definition range_cell (i : nat) (arow : list Z) (j : nat) (st : state)
    : option state :=
  browt ← matrix_b_t st !! j;
  sum ← inner_product arow browt;
  c ← store (matrix_c st) i j sum;
  Some (State (matrix_a st) (matrix_b st) (matrix_b_t st) c).

Definition range_row (i : Z) (st : state) : option state :=
  r ← index i;
  arow ← matrix_a st !! r;
  for_loop (range_cell r arow) 0 DIM st.

(** The work of one thread once the barrier has released it. *)
Definition multiply_range (a : ThreadArgs) (st : state) : option state :=
  for_range range_row (row_start a) (row_end a) st.

(** *** [main]: worker count and row ranges *)

Variable unrepresentable : string -> Z.

(** Lines 101-105. [argv] holds the [argc] arguments, program name first. *)
Definition requested_nthreads (argv : list string) : Z :=
  let nthreads := 4%Z in
  match argv with
  | _ :: arg :: _ =>
      let parsed := atoi unrepresentable arg in
      if decide (parsed > 0)%Z then parsed else nthreads
  | _ => nthreads
  end.

(** Line 106. *)
Definition clamp_nthreads (nthreads : Z) : Z :=
  if decide (nthreads > Z.of_nat DIM)%Z then Z.of_nat DIM else nthreads.

(** [x / y] and [x % y] on [int]: truncated, undefined for [y = 0]. *)
Definition int_div (x y : Z) : option Z :=
  if decide (y = 0)%Z then None else Some (int_wrap (Z.quot x y)).

Definition int_mod (x y : Z) : option Z :=
  if decide (y = 0)%Z then None else Some (int_wrap (Z.rem x y)).

(** Body of the loop of lines 120-132: the loop state is [start] and the
    slots of [targs] filled so far (slot [t] is filled at iteration [t]). *)
Definition assign_rows (base rem : Z) (t : Z) (s : Z * list ThreadArgs)
    : option (Z * list ThreadArgs) :=
  let rows := int_add base (if decide (t < rem)%Z then 1 else 0)%Z in
  let end_ := int_add s.1 rows in
  Some (end_, s.2 ++ [MkArgs s.1 end_]).

Definition make_targs (nthreads : Z) : option (list ThreadArgs) :=
  base ← int_div (Z.of_nat DIM) nthreads;
  rem ← int_mod (Z.of_nat DIM) nthreads;
  s ← for_range (assign_rows base rem) 0 nthreads (0%Z, []);
  Some s.2.

(** The threads are all created before any of them leaves the barrier
    (lines 65 and 136), so the ranges are complete when the work starts.
    The workers are run one after the other in the order of creation;
    [run_workers_Permutation] and [interleaved_run] below show that neither
    the order nor the interleaving of the threads matters. *)
Fixpoint run_workers (targs : list ThreadArgs) (st : state) : option state :=
  match targs with
  | [] => Some st
  | a :: rest => st' ← multiply_range a st; run_workers rest st'
  end.

(** *** Interleaved execution

    Past the barrier the threads run concurrently.  What a worker shares
    with the others and writes is [matrix_c], one store per cell (line 76);
    whatever else it uses is its own ([sum], the counters, [arow], [browt])
    or is not written after [init].  A concurrent run is thus given by the
    order in which the cells are filled: a schedule names, step by step,
    the thread that fills its next cell. *)

(** The cells a worker fills, in the order of its loops. *)
Definition work (a : ThreadArgs) : list (Z * nat) :=
  i ← (fun k => row_start a + Z.of_nat k)%Z
        <$> seq 0 (Z.to_nat (row_end a - row_start a));
  (fun j => (i, j)) <$> seq 0 DIM.

(** Lines 68-76 for one cell. *)
Definition cell_step (c : Z * nat) (st : state) : option state :=
  r ← index c.1; arow ← matrix_a st !! r; range_cell r arow c.2 st.

(** [pool] holds the cells each thread has still to fill.  A step of a
    thread that has finished (or does not exist) changes nothing. *)
Fixpoint run_schedule (sched : list nat) (pool : list (list (Z * nat)))
    (st : state) : option (list (list (Z * nat)) * state) :=
  match sched with
  | [] => Some (pool, st)
  | w :: sched' =>
      match pool !! w with
      | Some (c :: rest) =>
          st' ← cell_step c st; run_schedule sched' (<[w := rest]> pool) st'
      | _ => run_schedule sched' pool st
      end
  end.

Definition finished (pool : list (list (Z * nat))) : Prop :=
  Forall (fun p => p = []) pool.

(** [main] up to the join of the threads (line 148), as a function from
    the command line to the memory it leaves.  The barrier and the threads
    are taken to be created and joined without error, the clock and the
    output files are left out; [None] stands for an access outside an array
    or a division by zero. *)
Definition main (argv : list string) : option state :=
  st ← init zero_state;
  let nthreads := clamp_nthreads (requested_nthreads argv) in
  targs ← make_targs nthreads;
  run_workers targs st.

(** *** [print] *)

(** Line 87: [fout << matrix_c[i][j] << '\n']; [fout] is the text written
    so far. *)
Definition print_cell (st : state) (i j : nat) (fout : string) : option string :=
  v ← load (matrix_c st) i j;
  Some (fout +:+ format_long v +:+ String newline "").

(** The text [print] writes to [serial.txt]. *)
Definition print (st : state) : option string :=
  for_loop (fun i => for_loop (print_cell st i) 0 DIM) 0 DIM "".

(** *** Operation counts (lines 164-172) *)

Definition init_ops : Z :=
  u64_mul (u64_mul (Z.of_nat DIM) (Z.of_nat DIM)) 3.
Definition mul_ops : Z :=
  u64_mul (u64_mul (Z.of_nat DIM) (Z.of_nat DIM)) (Z.of_nat DIM).
Definition add_ops : Z := mul_ops.
Definition mult_total_ops : Z := u64_add mul_ops add_ops.
Definition print_ops : Z := u64_mul (Z.of_nat DIM) (Z.of_nat DIM).

(** *** [main] and the workers as threads

    One step of [main].  A blocked call leaves the configuration as it
    is.  After the joins come [pthread_barrier_destroy], the [delete]s and
    [print]; the timing report is left out. *)
Definition main_step (r : resources) (nthreads : Z) (c : config)
    : option config :=
  match c_main c with
  | MCreating base rem t start =>
      if decide (t < nthreads)%Z then
        s ← assign_rows base rem t (start, c_targs c);
        if create_ok r t then
          Some (Config (MCreating base rem (t + 1) s.1) s.2
                       (c_workers c ++ [WCreated]) (c_arrived c) (c_mem c)
                       (c_cerr c) (c_serial c))
        else
          Some (Config (MExit 1) s.2 (c_workers c) (c_arrived c) (c_mem c)
                       (c_cerr c +:+ msg_create t) (c_serial c))
      else
        Some (Config MBarrier (c_targs c) (c_workers c) (c_arrived c + 1)
                     (c_mem c) (c_cerr c) (c_serial c))
  | MBarrier =>
      if decide (c_arrived c = barrier_count nthreads) then
        Some (Config (MJoining 0) (c_targs c) (c_workers c) (c_arrived c)
                     (c_mem c) (c_cerr c) (c_serial c))
      else Some c
  | MJoining t =>
      if decide (t < nthreads)%Z then
        if join_ok r t then
          match t' ← index t; c_workers c !! t' with
          | Some WDone =>
              Some (Config (MJoining (t + 1)) (c_targs c) (c_workers c)
                           (c_arrived c) (c_mem c) (c_cerr c) (c_serial c))
          | _ => Some c
          end
        else
          Some (Config (MExit 1) (c_targs c) (c_workers c) (c_arrived c)
                       (c_mem c) (c_cerr c +:+ msg_join t) (c_serial c))
      else
        out ← print (c_mem c);
        Some (Config (MExit 0) (c_targs c) (c_workers c) (c_arrived c)
                     (c_mem c) (c_cerr c) (Some out))
  | MExit _ => Some c
  end.

(** One step of worker [w]: lines 63-79. *)
Definition worker_move (nthreads : Z) (w : nat) (c : config) : option config :=
  match c_workers c !! w with
  | Some WCreated =>
      Some (Config (c_main c) (c_targs c) (<[w := WWaiting]> (c_workers c))
                   (c_arrived c + 1) (c_mem c) (c_cerr c) (c_serial c))
  | Some WWaiting =>
      if decide (c_arrived c = barrier_count nthreads) then
        a ← c_targs c !! w;
        Some (Config (c_main c) (c_targs c)
                     (<[w := WComputing (work a)]> (c_workers c))
                     (c_arrived c) (c_mem c) (c_cerr c) (c_serial c))
      else Some c
  | Some (WComputing (cl :: rest)) =>
      m ← cell_step cl (c_mem c);
      Some (Config (c_main c) (c_targs c)
                   (<[w := WComputing rest]> (c_workers c))
                   (c_arrived c) m (c_cerr c) (c_serial c))
  | Some (WComputing []) =>
      Some (Config (c_main c) (c_targs c) (<[w := WDone]> (c_workers c))
                   (c_arrived c) (c_mem c) (c_cerr c) (c_serial c))
  | Some WDone | None => Some c
  end.

(** Nothing moves once [main] has returned, which ends the process. *)
Definition worker_step (nthreads : Z) (w : nat) (c : config) : option config :=
  match c_main c with
  | MExit _ => Some c
  | _ => worker_move nthreads w c
  end.

Definition exec (r : resources) (nthreads : Z) (th : thread) (c : config)
    : option config :=
  match th with
  | Main => main_step r nthreads c
  | Worker w => worker_step nthreads w c
  end.

Fixpoint run (r : resources) (nthreads : Z) (sched : list thread)
    (c : config) : option config :=
  match sched with
  | [] => Some c
  | th :: rest => c' ← exec r nthreads th c; run r nthreads rest c'
  end.

(** Lines 109-119: the barrier, then [base] and [rem]. *)
Definition boot (r : resources) (nthreads : Z) (st : state) : option config :=
  if barrier_init_ok r then
    base ← int_div (Z.of_nat DIM) nthreads;
    rem ← int_mod (Z.of_nat DIM) nthreads;
    Some (Config (MCreating base rem 0 0) [] [] 0 st "" None)
  else Some (Config (MExit 1) [] [] 0 st msg_barrier None).

(** [main] as a process: [init], the worker count, then the threads under
    the schedule [sched]. *)
Definition main_threads (r : resources) (argv : list string)
    (sched : list thread) : option config :=
  st ← init zero_state;
  let nthreads := clamp_nthreads (requested_nthreads argv) in
  c ← boot r nthreads st;
  run r nthreads sched c.

(** ** Vocabulary of the statements *)

(** The shape of a [long m[DIM][DIM]]. *)
Definition square (m : matrix) : Prop :=
  length m = DIM /\ Forall (fun row => length row = DIM) m.

Definition wf (st : state) : Prop :=
  square (matrix_a st) /\ square (matrix_b st) /\
  square (matrix_b_t st) /\ square (matrix_c st).

(** [m[i][j]] as a number (0 outside the array). *)
Definition entry (m : matrix) (i j : nat) : Z := default 0%Z (load m i j).

(** The matrix whose cell [(i, j)] holds [f i j]. *)
Definition tabulate (f : nat -> nat -> Z) : matrix :=
  (fun i => f i <$> seq 0 DIM) <$> seq 0 DIM.

(** [f 0 + ... + f (n-1)], in [Z]. *)
Fixpoint Zsum (f : nat -> Z) (n : nat) : Z :=
  match n with
  | O => 0%Z
  | S n' => (Zsum f n' + f n')%Z
  end.

(** Cell [(i, j)] of the mathematical product of [a] and [b]. *)
Definition product_entry (a b : matrix) (i j : nat) : Z :=
  Zsum (fun k => entry a i k * entry b k j)%Z DIM.

(** The exact sum the inner loop accumulates: row [i] of [a] against row
    [j] of the transposed operand. *)
Definition dot (a bt : matrix) (i j : nat) : Z :=
  Zsum (fun k => entry a i k * entry bt j k)%Z DIM.

(** The value the source leaves in [matrix_c[i][j]]. *)
Definition cell (st : state) (i j : nat) : Z :=
  long_wrap (dot (matrix_a st) (matrix_b_t st) i j).

(** [bt] holds the transpose of [b]. *)
Definition transposed (b bt : matrix) : Prop :=
  forall i j, i < DIM -> j < DIM -> load bt j i = load b i j.

Definition set_c (st : state) (c : matrix) : state :=
  State (matrix_a st) (matrix_b st) (matrix_b_t st) c.

(** Row [r] belongs to the half-open range of [a]. *)
Definition in_range (a : ThreadArgs) (r : nat) : bool :=
  bool_decide (row_start a <= Z.of_nat r < row_end a)%Z.

(** A range that is empty or lies within the rows of the matrices. *)
Definition in_bounds (a : ThreadArgs) : Prop :=
  (row_start a < row_end a -> 0 <= row_start a /\ row_end a <= Z.of_nat DIM)%Z.

(** [s] is [st] with the cells selected by [P] of C recomputed. *)
Definition computed (P : nat -> nat -> bool) (st s : state) : Prop :=
  matrix_a s = matrix_a st /\ matrix_b s = matrix_b st /\
  matrix_b_t s = matrix_b_t st /\ square (matrix_c s) /\
  forall i j, i < DIM -> j < DIM ->
    load (matrix_c s) i j =
      Some (if P i j then cell st i j else entry (matrix_c st) i j).

(** Row [r] belongs to the range of one of the workers. *)
Definition covered (targs : list ThreadArgs) (r : nat) : bool :=
  existsb (fun a => in_range a r) targs.

(** The values [init] gives to the operands. *)
Definition a_value (i j : nat) : Z := int_add (Z.of_nat i) (Z.of_nat j).
Definition b_value (i j : nat) : Z := int_sub (Z.of_nat i) (Z.of_nat j).

Definition transpose (m : matrix) : matrix :=
  tabulate (fun j i => entry m i j).

(** The memory [init] leaves behind. *)
Definition initialised : state :=
  State (tabulate a_value) (tabulate b_value)
        (transpose (tabulate b_value)) (tabulate (fun _ _ => 0%Z)).

(** Closed form of the ranges: worker [t] of [nthreads] starts at
    [t * base + min t rem]. *)
Definition range_start (nthreads t : Z) : Z :=
  (t * (Z.of_nat DIM / nthreads) + Z.min t (Z.of_nat DIM mod nthreads))%Z.

Definition row_range (nthreads : Z) (t : nat) : ThreadArgs :=
  MkArgs (range_start nthreads (Z.of_nat t))
         (range_start nthreads (Z.of_nat t + 1)).

Definition partition (nthreads : Z) : list ThreadArgs :=
  row_range nthreads <$> seq 0 (Z.to_nat nthreads).

(** Number of rows of a range. *)
Definition rows (a : ThreadArgs) : Z := (row_end a - row_start a)%Z.

(** The ranges follow one another from [start] to [stop] without gap or
    overlap. *)
Fixpoint chain (start : Z) (rs : list ThreadArgs) (stop : Z) : Prop :=
  match rs with
  | [] => start = stop
  | a :: rest =>
      row_start a = start /\ (row_start a <= row_end a)%Z /\
      chain (row_end a) rest stop
  end.

(** Number of workers whose range contains row [r]. *)
Definition owners (targs : list ThreadArgs) (r : nat) : nat :=
  length (List.filter (fun a => in_range a r) targs).

(** The ranges split the rows [0, DIM): every range lies within them and
    every row has exactly one owner. *)
Definition row_partition (targs : list ThreadArgs) : Prop :=
  Forall in_bounds targs /\ forall r, r < DIM -> owners targs r = 1.

(** A memory of dimension 2 whose transposed copy is in place, and one of
    dimension 1 whose single product does not fit a [long]. *)
Definition example_state : state :=
  State [[1; 2]; [3; 4]]%Z [[5; 6]; [7; 8]]%Z [[5; 7]; [6; 8]]%Z
        [[9; 9]; [9; 9]]%Z.

Definition overflow_state : state :=
  State [[2 ^ 62]]%Z [[2]]%Z [[2]]%Z [[0]]%Z.

(** Cell [c] is still to be filled by some thread of [pool]. *)
Definition pending (pool : list (list (Z * nat))) (c : Z * nat) : Prop :=
  exists w p, pool !! w = Some p /\ c ∈ p.

(** What holds of the pool and the memory at any moment of a run of the
    workers [targs] started in [st]: the cells filled are cells of the
    ranges, every cell of the ranges is filled or pending, and what is
    pending lies within the matrix. *)
Definition schedule_invariant (st : state) (targs : list ThreadArgs)
    (pool : list (list (Z * nat))) (s : state) : Prop :=
  exists P : nat -> nat -> bool,
    computed P st s /\
    (forall i j, P i j = true -> covered targs i = true) /\
    (forall i j, i < DIM -> j < DIM -> covered targs i = true ->
       P i j = true \/ pending pool (Z.of_nat i, j)) /\
    (forall c, pending pool c ->
       exists r, c.1 = Z.of_nat r /\ r < DIM /\ c.2 < DIM /\
                 covered targs r = true).

(** *** Vocabulary of the threads *)

(** The cells worker [w] with range [a] has still to fill. *)
Definition cells_of (o : option wstate) (a : ThreadArgs) : list (Z * nat) :=
  match o with
  | Some (WComputing cells) => cells
  | Some WDone => []
  | _ => work a
  end.

Definition pool_of (T : Z) (ws : list wstate) : list (list (Z * nat)) :=
  imap (fun w a => cells_of (ws !! w) a) (partition T).

(** The barrier and the [T] threads can be created. *)
Definition creation_ok (r : resources) (T : Z) : Prop :=
  barrier_init_ok r = true /\
  forall t, (0 <= t < T)%Z -> create_ok r t = true.

Definition resources_ok (r : resources) (T : Z) : Prop :=
  creation_ok r T /\ forall t, (0 <= t < T)%Z -> join_ok r t = true.

(** What [main] has written to [cerr] when it returns 1: the message of the
    first call that failed. *)
Definition failure_report (r : resources) (T : Z) (c : config) : Prop :=
  (barrier_init_ok r = false /\ c_cerr c = msg_barrier) \/
  (barrier_init_ok r = true /\ exists t, (0 <= t < T)%Z /\
     create_ok r t = false /\
     (forall u, (0 <= u < t)%Z -> create_ok r u = true) /\
     c_cerr c = msg_create t) \/
  (creation_ok r T /\ exists t, (0 <= t < T)%Z /\
     join_ok r t = false /\
     (forall u, (0 <= u < t)%Z -> join_ok r u = true) /\
     c_cerr c = msg_join t).

(** What holds in every configuration of a run of [T] threads started on
    the memory [st]. *)
Definition common_inv (T : Z) (st : state) (c : config) : Prop :=
  length (c_workers c) <= Z.to_nat T /\
  (forall w x, c_workers c !! w = Some x -> passed_b x = true ->
     c_arrived c = (T + 1)%Z /\ length (c_workers c) = Z.to_nat T /\
     c_targs c = partition T) /\
  ((forall w x, c_workers c !! w = Some x -> passed_b x = false) ->
     c_mem c = st) /\
  schedule_invariant st (partition T) (pool_of T (c_workers c)) (c_mem c).

(** What [main] knows at each point of its code. *)
Definition main_inv (r : resources) (T : Z) (m : mstate)
    (ws : list wstate) (arrived : Z) : Prop :=
  match m with
  | MCreating b rm t start =>
      b = (Z.of_nat DIM / T)%Z /\ rm = (Z.of_nat DIM mod T)%Z /\
      t = Z.of_nat (length ws) /\ start = range_start T t /\
      forall u, (0 <= u < t)%Z -> create_ok r u = true
  | MBarrier =>
      length ws = Z.to_nat T /\
      forall u, (0 <= u < T)%Z -> create_ok r u = true
  | MJoining t =>
      length ws = Z.to_nat T /\ (0 <= t <= T)%Z /\
      arrived = (T + 1)%Z /\
      (forall u, (0 <= u < T)%Z -> create_ok r u = true) /\
      forall u, (0 <= u < t)%Z ->
        join_ok r u = true /\ ws !! Z.to_nat u = Some WDone
  | MExit _ => True
  end.

(** 1 once [main] has called [pthread_barrier_wait]. *)
Definition main_arrived (m : mstate) : Z :=
  match m with MCreating _ _ _ _ => 0%Z | _ => 1%Z end.

Definition running_inv (r : resources) (T : Z) (c : config) : Prop :=
  barrier_init_ok r = true /\ c_serial c = None /\
  c_cerr c = EmptyString /\
  c_targs c = take (length (c_workers c)) (partition T) /\
  c_arrived c =
    (Z.of_nat (arrivals (c_workers c)) + main_arrived (c_main c))%Z /\
  main_inv r T (c_main c) (c_workers c) (c_arrived c).

Definition exit_inv (r : resources) (T : Z) (st : state) (c : config)
    (code : Z) : Prop :=
  (code = 0%Z /\ resources_ok r T /\
   c_mem c = set_c st (tabulate (cell st)) /\
   c_serial c = Some (dump (mjoin (tabulate (cell st)))) /\
   c_cerr c = EmptyString) \/
  (code = 1%Z /\ failure_report r T c /\ c_serial c = None /\
   (~ creation_ok r T -> c_mem c = st)).

Definition phase_inv (r : resources) (T : Z) (st : state) (c : config) : Prop :=
  match c_main c with
  | MExit code => exit_inv r T st c code
  | _ => running_inv r T c
  end.

Definition machine_inv (r : resources) (T : Z) (st : state) (c : config)
    : Prop :=
  common_inv T st c /\ phase_inv r T st c.

(** A bound on the steps a configuration has left. *)
Definition wweight (W : nat) (x : wstate) : nat :=
  match x with
  | WCreated => W + 3
  | WWaiting => W + 2
  | WComputing cells => length cells + 1
  | WDone => 0
  end.

Definition mweight (T : Z) (W : nat) (m : mstate) : nat :=
  match m with
  | MCreating _ _ t _ => (Z.to_nat T - Z.to_nat t) * (W + 5) + Z.to_nat T + 3
  | MBarrier => Z.to_nat T + 2
  | MJoining t => (Z.to_nat T - Z.to_nat t) + 1
  | MExit _ => 0
  end.

Definition total_work (T : Z) : nat := length (mjoin (work <$> partition T)).

Definition steps_left (T : Z) (c : config) : nat :=
  mweight T (total_work T) (c_main c)
  + sum_list_with (wweight (total_work T)) (c_workers c).

Definition exited (c : config) : Prop := exists code, c_main c = MExit code.

(** The thread is not blocked and has something left to do. *)
Definition worker_enabled (T : Z) (w : nat) (c : config) : Prop :=
  match c_workers c !! w with
  | Some WCreated | Some (WComputing _) => True
  | Some WWaiting => c_arrived c = barrier_count T
  | _ => False
  end.

Definition main_enabled (r : resources) (T : Z) (c : config) : Prop :=
  match c_main c with
  | MCreating _ _ _ _ => True
  | MBarrier => c_arrived c = barrier_count T
  | MJoining t =>
      (t < T)%Z ->
      join_ok r t = false \/ c_workers c !! Z.to_nat t = Some WDone
  | MExit _ => False
  end.

Definition enabled (r : resources) (T : Z) (th : thread) (c : config) : Prop :=
  match th with
  | Main => main_enabled r T c
  | Worker w => ~ exited c /\ worker_enabled T w c
  end.

(** A schedule that only picks threads that can move. *)
Fixpoint enabled_run (r : resources) (T : Z) (sched : list thread)
    (c : config) : Prop :=
  match sched with
  | [] => True
  | th :: rest =>
      enabled r T th c /\
      match exec r T th c with
      | Some c' => enabled_run r T rest c'
      | None => False
      end
  end.

(** The worker count [main] settles on (lines 101-106). *)
Definition worker_count (argv : list string) : Z :=
  clamp_nthreads (requested_nthreads argv).

(** Every call succeeds. *)
Definition all_ok : resources := Resources true (fun _ => true) (fun _ => true).

(** [pthread_create] fails for thread [t]. *)
Definition create_fails (t : Z) : resources :=
  Resources true (fun u => negb (u =? t)%Z) (fun _ => true).

(** [pthread_join] fails for thread [t]. *)
Definition join_fails (t : Z) : resources :=
  Resources true (fun _ => true) (fun u => negb (u =? t)%Z).

(** A schedule of two workers at dimension 2: the threads are created,
    meet at the barrier, fill their cells in turn and are joined. *)
Definition full_schedule : list thread :=
  [Main; Main; Worker 0; Main; Worker 1; Main;
   Worker 1; Worker 0; Worker 1; Worker 0; Worker 0; Worker 1; Worker 1;
   Worker 0; Main; Main; Main].

(** [example_state] with other contents in B and C. *)
Definition example_state_other : state :=
  State [[1; 2]; [3; 4]]%Z [[0; 0]; [0; 0]]%Z [[5; 7]; [6; 8]]%Z
        [[-1; -2]; [-3; -4]]%Z.

(** * Properties *)

(** ** Machine integers *)

Lemma wrap_range (w z : Z) :
  (0 < w)%Z -> (- 2 ^ (w - 1) <= wrap w z < 2 ^ (w - 1))%Z.
Proof.
  intros Hw. unfold wrap.
  assert (H2 : (2 ^ w = 2 * 2 ^ (w - 1))%Z).
  { rewrite <- Z.pow_succ_r by lia. f_equal. lia. }
  assert (Hp : (0 < 2 ^ (w - 1))%Z) by (apply Z.pow_pos_nonneg; lia).
  pose proof (Z.mod_pos_bound (z + 2 ^ (w - 1)) (2 ^ w)) as Hb. lia.
Qed.

Lemma wrap_id (w z : Z) :
  (0 < w)%Z -> (- 2 ^ (w - 1) <= z < 2 ^ (w - 1))%Z -> wrap w z = z.
Proof.
  intros Hw Hz. unfold wrap.
  assert (H2 : (2 ^ w = 2 * 2 ^ (w - 1))%Z).
  { rewrite <- Z.pow_succ_r by lia. f_equal. lia. }
  rewrite Z.mod_small by lia. lia.
Qed.

Lemma wrap_congr (w x y : Z) :
  (x mod 2 ^ w = y mod 2 ^ w)%Z -> wrap w x = wrap w y.
Proof.
  intros H. unfold wrap. f_equal.
  rewrite (Zplus_mod x), (Zplus_mod y), H. reflexivity.
Qed.

Lemma wrap_mod (w z : Z) : (wrap w z mod 2 ^ w = z mod 2 ^ w)%Z.
Proof.
  unfold wrap. rewrite Zminus_mod, Zmod_mod, <- Zminus_mod.
  f_equal. lia.
Qed.

Lemma int_wrap_id (z : Z) : is_int z -> int_wrap z = z.
Proof. unfold is_int, INT_MIN, INT_MAX. intros H. apply wrap_id; simpl; lia. Qed.

Lemma long_wrap_id (z : Z) : is_long z -> long_wrap z = z.
Proof. unfold is_long, LONG_MIN, LONG_MAX. intros H. apply wrap_id; simpl; lia. Qed.

Lemma int_wrap_is_int (z : Z) : is_int (int_wrap z).
Proof.
  pose proof (wrap_range 32 z eq_refl) as H.
  unfold is_int, INT_MIN, INT_MAX, int_wrap. simpl in *. lia.
Qed.

Lemma long_wrap_is_long (z : Z) : is_long (long_wrap z).
Proof.
  pose proof (wrap_range 64 z eq_refl) as H.
  unfold is_long, LONG_MIN, LONG_MAX, long_wrap. simpl in *. lia.
Qed.

(** One step of the accumulation [sum += x * y] commutes with the
    reduction of the exact value. *)
Lemma long_accumulate (s x y : Z) :
  long_add (long_wrap s) (long_mul x y) = long_wrap (s + x * y).
Proof.
  unfold long_add, long_mul, long_wrap. apply wrap_congr.
  rewrite Zplus_mod, !wrap_mod, <- Zplus_mod. reflexivity.
Qed.

(** ** Loops *)

Lemma for_loop_inv {St : Type} (I : nat -> St -> Prop)
    (body : nat -> St -> option St) (lo n : nat) (s : St) :
  I lo s ->
  (forall k t, lo <= k < lo + n -> I k t ->
     exists t', body k t = Some t' /\ I (S k) t') ->
  exists s', for_loop body lo n s = Some s' /\ I (lo + n) s'.
Proof.
  revert lo s. induction n as [|n IH]; intros lo s H0 Hstep; simpl.
  - exists s. rewrite Nat.add_0_r. auto.
  - destruct (Hstep lo s) as (s1 & Hs1 & H1); [lia | assumption |].
    rewrite Hs1. simpl.
    destruct (IH (S lo) s1) as (s' & Hs' & H'); [assumption | |].
    + intros k t Hk. apply Hstep. lia.
    + exists s'. split; [assumption |].
      replace (lo + S n) with (S lo + n) by lia. assumption.
Qed.

Lemma for_steps_inv {St : Type} (I : Z -> St -> Prop)
    (body : Z -> St -> option St) (lo : Z) (n : nat) (s : St) :
  I lo s ->
  (forall k t, (lo <= k < lo + Z.of_nat n)%Z -> I k t ->
     exists t', body k t = Some t' /\ I (k + 1)%Z t') ->
  exists s', for_steps body lo n s = Some s' /\ I (lo + Z.of_nat n)%Z s'.
Proof.
  revert lo s. induction n as [|n IH]; intros lo s H0 Hstep; simpl for_steps.
  - exists s. rewrite Z.add_0_r. auto.
  - destruct (Hstep lo s) as (s1 & Hs1 & H1); [lia | assumption |].
    rewrite Hs1. simpl.
    destruct (IH (lo + 1)%Z s1) as (s' & Hs' & H'); [assumption | |].
    + intros k t Hk. apply Hstep. lia.
    + exists s'. split; [assumption |].
      replace (lo + Z.of_nat (S n))%Z with (lo + 1 + Z.of_nat n)%Z by lia.
      assumption.
Qed.

(** A loop stops with an error as soon as its body does. *)
Lemma for_steps_fail {St : Type} (body : Z -> St -> option St)
    (lo : Z) (n : nat) (s : St) :
  body lo s = None -> n <> 0 -> for_steps body lo n s = None.
Proof. intros H Hn. destruct n; [congruence |]. simpl. rewrite H. reflexivity. Qed.

(** ** Matrices of dimension [DIM] *)

Lemma square_row (m : matrix) (i : nat) :
  square m -> i < DIM -> exists row, m !! i = Some row /\ length row = DIM.
Proof.
  intros [Hlen Hrows] Hi.
  destruct (lookup_lt_is_Some_2 m i) as [row Hrow]; [lia |].
  exists row. split; [assumption |].
  exact (proj1 (Forall_lookup _ m) Hrows i row Hrow).
Qed.

Lemma square_load (m : matrix) (i j : nat) :
  square m -> i < DIM -> j < DIM -> load m i j = Some (entry m i j).
Proof.
  intros Hm Hi Hj. destruct (square_row m i Hm Hi) as (row & Hrow & Hlen).
  destruct (lookup_lt_is_Some_2 row j) as [v Hv]; [lia |].
  unfold entry, load. rewrite Hrow. simpl. rewrite Hv. reflexivity.
Qed.

Lemma entry_row (m : matrix) (i j : nat) (row : list Z) :
  m !! i = Some row -> entry m i j = default 0%Z (row !! j).
Proof. intros H. unfold entry, load. rewrite H. reflexivity. Qed.

Lemma store_square (m : matrix) (i j : nat) (v : Z) :
  square m -> i < DIM -> j < DIM ->
  exists m', store m i j v = Some m' /\ square m' /\
    forall i' j', load m' i' j' =
      if decide (i' = i /\ j' = j) then Some v else load m i' j'.
Proof.
  intros Hm Hi Hj. destruct (square_row m i Hm Hi) as (row & Hrow & Hlen).
  destruct Hm as [Hm Hrows].
  exists (<[i := <[j := v]> row]> m). unfold store. rewrite Hrow. simpl.
  rewrite decide_True by lia. split; [reflexivity |]. split.
  - split; [rewrite length_insert; assumption |].
    apply Forall_insert; [assumption |]. rewrite length_insert. assumption.
  - intros i' j'. unfold load. destruct (decide (i' = i)) as [-> | Hne].
    + rewrite list_lookup_insert_eq by lia. rewrite Hrow. simpl.
      destruct (decide (j' = j)) as [-> | Hnj].
      * rewrite list_lookup_insert_eq by lia. rewrite decide_True; auto.
      * rewrite list_lookup_insert_ne by auto. rewrite decide_False; tauto.
    + rewrite list_lookup_insert_ne by auto. rewrite decide_False; tauto.
Qed.

Lemma tabulate_square (f : nat -> nat -> Z) : square (tabulate f).
Proof.
  unfold square, tabulate. split.
  - rewrite length_fmap, length_seq. reflexivity.
  - apply Forall_fmap, Forall_forall. intros i _. simpl.
    rewrite length_fmap, length_seq. reflexivity.
Qed.

Lemma load_tabulate (f : nat -> nat -> Z) (i j : nat) :
  i < DIM -> j < DIM -> load (tabulate f) i j = Some (f i j).
Proof.
  intros Hi Hj. unfold load, tabulate.
  rewrite list_lookup_fmap, lookup_seq_lt by assumption. simpl.
  rewrite list_lookup_fmap, lookup_seq_lt by assumption. reflexivity.
Qed.

(** Two arrays of the same shape with the same cells are the same array. *)
Lemma square_ext (m1 m2 : matrix) :
  square m1 -> square m2 ->
  (forall i j, i < DIM -> j < DIM -> load m1 i j = load m2 i j) ->
  m1 = m2.
Proof.
  intros H1 H2 Hcells. apply list_eq. intros i.
  destruct (decide (i < DIM)) as [Hi | Hi].
  - destruct (square_row m1 i H1 Hi) as (r1 & Hr1 & Hl1).
    destruct (square_row m2 i H2 Hi) as (r2 & Hr2 & Hl2).
    rewrite Hr1, Hr2. f_equal. apply list_eq. intros j.
    destruct (decide (j < DIM)) as [Hj | Hj].
    + specialize (Hcells i j Hi Hj). unfold load in Hcells.
      rewrite Hr1, Hr2 in Hcells. exact Hcells.
    + rewrite !lookup_ge_None_2 by lia. reflexivity.
  - destruct H1 as [H1 _], H2 as [H2 _].
    rewrite !lookup_ge_None_2 by lia. reflexivity.
Qed.

Lemma square_tabulate (m : matrix) : square m -> m = tabulate (entry m).
Proof.
  intros Hm. apply square_ext; [assumption | apply tabulate_square |].
  intros i j Hi Hj. rewrite load_tabulate by assumption.
  apply square_load; assumption.
Qed.

Lemma zero_matrix_square : square zero_matrix.
Proof.
  unfold square, zero_matrix. split; [apply length_replicate |].
  apply Forall_replicate, length_replicate.
Qed.

Lemma zero_state_wf : wf zero_state.
Proof. repeat split; try apply length_replicate; apply Forall_replicate, length_replicate. Qed.

(** ** The inner product *)

Lemma Zsum_ext (f g : nat -> Z) (n : nat) :
  (forall k, k < n -> f k = g k) -> Zsum f n = Zsum g n.
Proof.
  induction n as [|n IH]; intros H; simpl; [reflexivity |].
  rewrite IH, H by auto with lia. reflexivity.
Qed.

Lemma inner_product_spec (arow browt : list Z) :
  length arow = DIM -> length browt = DIM ->
  inner_product arow browt =
    Some (long_wrap (Zsum (fun k => default 0 (arow !! k) * default 0 (browt !! k))%Z DIM)).
Proof.
  intros Ha Hb. unfold inner_product.
  set (f := fun k => (default 0 (arow !! k) * default 0 (browt !! k))%Z).
  destruct (for_loop_inv (fun k s => s = long_wrap (Zsum f k))
              (fun k sum => x ← arow !! k; y ← browt !! k;
                            Some (long_add sum (long_mul x y))) 0 DIM 0%Z)
    as (s & Hs & ->); [reflexivity | | exact Hs].
  intros k t Hk ->.
  destruct (lookup_lt_is_Some_2 arow k) as [x Hx]; [lia |].
  destruct (lookup_lt_is_Some_2 browt k) as [y Hy]; [lia |].
  rewrite Hx, Hy. simpl. eexists. split; [reflexivity |].
  rewrite long_accumulate. unfold f. rewrite Hx, Hy. reflexivity.
Qed.

(** ** One cell, one row *)

Lemma computed_refl (st : state) : wf st -> computed (fun _ _ => false) st st.
Proof.
  intros (_ & _ & _ & Hc). unfold computed; split_and!; try reflexivity; try apply Hc.
  intros i j Hi Hj. apply square_load; assumption.
Qed.

Lemma computed_eq (P : nat -> nat -> bool) (st s : state) :
  computed P st s ->
  s = set_c st (tabulate (fun i j =>
        if P i j then cell st i j else entry (matrix_c st) i j)).
Proof.
  intros (Ha & Hb & Hbt & Hc & Hcells). destruct s as [a b bt c].
  simpl in *. subst. unfold set_c. f_equal.
  apply square_ext; [assumption | apply tabulate_square |].
  intros i j Hi Hj. rewrite load_tabulate by assumption. auto.
Qed.

Lemma range_cell_step (P Q : nat -> nat -> bool) (st s : state)
    (i j : nat) (arow : list Z) :
  wf st -> computed P st s -> i < DIM -> j < DIM ->
  matrix_a st !! i = Some arow ->
  (forall i' j', i' < DIM -> j' < DIM ->
     Q i' j' = if decide (i' = i /\ j' = j) then true else P i' j') ->
  exists s', range_cell i arow j s = Some s' /\ computed Q st s'.
Proof.
  intros (HA & _ & HBT & _) (Ha & Hb & Hbt & Hc & Hcells) Hi Hj Harow HQ.
  destruct (square_row _ i HA Hi) as (arow' & Harow' & Hla).
  assert (arow' = arow) as -> by congruence.
  destruct (square_row _ j HBT Hj) as (browt & Hbrowt & Hlb).
  unfold range_cell. rewrite Hbt, Hbrowt. simpl.
  rewrite inner_product_spec by assumption. simpl.
  match goal with |- context [store _ i j ?v] =>
    destruct (store_square (matrix_c s) i j v Hc Hi Hj) as (c' & -> & Hc' & Hload);
    assert (Hv : v = cell st i j)
  end.
  { unfold cell, dot. f_equal. apply Zsum_ext. intros k _.
    rewrite (entry_row _ i k arow Harow), (entry_row _ j k browt Hbrowt).
    reflexivity. }
  simpl. eexists. split; [reflexivity |].
  unfold computed; simpl; split_and!; try done.
  intros i' j' Hi' Hj'. rewrite Hload, HQ by assumption.
  destruct (decide (i' = i /\ j' = j)) as [[-> ->] | _]; [| auto].
  rewrite Hv. reflexivity.
Qed.

Lemma multiply_cell_step (P Q : nat -> nat -> bool) (st s : state) (i j : nat) :
  wf st -> computed P st s -> i < DIM -> j < DIM ->
  (forall i' j', i' < DIM -> j' < DIM ->
     Q i' j' = if decide (i' = i /\ j' = j) then true else P i' j') ->
  exists s', multiply_cell i j s = Some s' /\ computed Q st s'.
Proof.
  intros Hwf Hs Hi Hj HQ.
  destruct (square_row _ i (proj1 Hwf) Hi) as (arow & Harow & _).
  destruct (range_cell_step P Q st s i j arow) as (s' & Hs' & Hc); auto.
  exists s'. split; [| assumption].
  rewrite <- (proj1 Hs) in Harow.
  unfold multiply_cell. rewrite Harow. exact Hs'.
Qed.

(** Filling row [i]: the [j] loops of [multiply_range] and [multiply]. *)
Lemma range_row_loop (P : nat -> nat -> bool) (st s : state)
    (i : nat) (arow : list Z) :
  wf st -> computed P st s -> i < DIM -> matrix_a st !! i = Some arow ->
  exists s', for_loop (range_cell i arow) 0 DIM s = Some s' /\
    computed (fun i' j' => bool_decide (i' = i) || P i' j') st s'.
Proof.
  intros Hwf Hs Hi Harow.
  destruct (for_loop_inv
    (fun j t => computed (fun i' j' => bool_decide (i' = i /\ j' < j) || P i' j') st t)
    (range_cell i arow) 0 DIM s) as (s' & Hs' & Hc).
  - destruct Hs as (? & ? & ? & ? & Hcells). unfold computed; split_and!; try done.
    intros i' j' Hi' Hj'. rewrite bool_decide_eq_false_2 by lia.
    simpl. auto.
  - intros j t Hj Ht. eapply range_cell_step; eauto; [lia |].
    intros i' j' Hi' Hj'. repeat case_bool_decide; repeat case_decide; simpl; try reflexivity; lia.
  - exists s'. split; [assumption |].
    destruct Hc as (? & ? & ? & ? & Hcells). unfold computed; split_and!; try done.
    intros i' j' Hi' Hj'. rewrite Hcells by assumption.
    repeat case_bool_decide; simpl; try reflexivity; lia.
Qed.

Lemma multiply_row_loop (P : nat -> nat -> bool) (st s : state) (i : nat) :
  wf st -> computed P st s -> i < DIM ->
  exists s', for_loop (multiply_cell i) 0 DIM s = Some s' /\
    computed (fun i' j' => bool_decide (i' = i) || P i' j') st s'.
Proof.
  intros Hwf Hs Hi.
  destruct (for_loop_inv
    (fun j t => computed (fun i' j' => bool_decide (i' = i /\ j' < j) || P i' j') st t)
    (multiply_cell i) 0 DIM s) as (s' & Hs' & Hc).
  - destruct Hs as (? & ? & ? & ? & Hcells). unfold computed; split_and!; try done.
    intros i' j' Hi' Hj'. rewrite bool_decide_eq_false_2 by lia.
    simpl. auto.
  - intros j t Hj Ht. eapply multiply_cell_step; eauto; [lia |].
    intros i' j' Hi' Hj'. repeat case_bool_decide; repeat case_decide; simpl; try reflexivity; lia.
  - exists s'. split; [assumption |].
    destruct Hc as (? & ? & ? & ? & Hcells). unfold computed; split_and!; try done.
    intros i' j' Hi' Hj'. rewrite Hcells by assumption.
    repeat case_bool_decide; simpl; try reflexivity; lia.
Qed.

Lemma computed_ext (P Q : nat -> nat -> bool) (st s : state) :
  (forall i j, i < DIM -> j < DIM -> P i j = Q i j) ->
  computed P st s -> computed Q st s.
Proof.
  intros HPQ (? & ? & ? & ? & Hcells). unfold computed; split_and!; try done.
  intros i j Hi Hj. rewrite <- HPQ by assumption. auto.
Qed.

(** ** [multiply] *)

Lemma multiply_computed (st : state) :
  wf st -> exists s', multiply st = Some s' /\ computed (fun _ _ => true) st s'.
Proof.
  intros Hwf. unfold multiply.
  destruct (for_loop_inv
    (fun i t => computed (fun i' _ => bool_decide (i' < i)) st t)
    (fun i => for_loop (multiply_cell i) 0 DIM) 0 DIM st) as (s' & Hs' & Hc).
  - eapply computed_ext; [| apply computed_refl; assumption].
    intros i j _ _. rewrite bool_decide_eq_false_2 by lia. reflexivity.
  - intros i t Hi Ht.
    destruct (multiply_row_loop _ st t i Hwf Ht) as (t' & Ht' & Hc); [lia |].
    exists t'. split; [assumption |].
    eapply computed_ext; [| exact Hc].
    intros i' j' _ _. simpl. repeat case_bool_decide; simpl; try reflexivity; lia.
  - exists s'. split; [assumption |].
    eapply computed_ext; [| exact Hc].
    intros i j Hi _. simpl. apply bool_decide_eq_true_2. lia.
Qed.

Lemma multiply_spec (st : state) :
  wf st -> multiply st = Some (set_c st (tabulate (cell st))).
Proof.
  intros Hwf. destruct (multiply_computed st Hwf) as (s' & -> & Hc).
  f_equal. exact (computed_eq _ _ _ Hc).
Qed.

(** ** [multiply_range] *)

Lemma index_nat (i : nat) : index (Z.of_nat i) = Some i.
Proof. unfold index. rewrite decide_True by lia. rewrite Nat2Z.id. reflexivity. Qed.

Lemma range_row_step (P : nat -> nat -> bool) (st s : state) (i : Z) :
  wf st -> computed P st s -> (0 <= i < Z.of_nat DIM)%Z ->
  exists s', range_row i s = Some s' /\
    computed (fun i' j' => bool_decide (Z.of_nat i' = i) || P i' j') st s'.
Proof.
  intros Hwf Hs Hi. unfold range_row, index. rewrite decide_True by lia. simpl.
  destruct (square_row _ (Z.to_nat i) (proj1 Hwf)) as (arow & Harow & _); [lia |].
  rewrite (proj1 Hs), Harow. simpl.
  destruct (range_row_loop P st s (Z.to_nat i) arow) as (s' & Hs' & Hc);
    [assumption | assumption | lia | assumption |].
  exists s'. split; [assumption |].
  eapply computed_ext; [| exact Hc].
  intros i' j' _ _. simpl. repeat case_bool_decide; simpl; try reflexivity; lia.
Qed.

Lemma multiply_range_computed (P : nat -> nat -> bool) (st s : state)
    (a : ThreadArgs) :
  wf st -> computed P st s -> in_bounds a ->
  exists s', multiply_range a s = Some s' /\
    computed (fun i j => in_range a i || P i j) st s'.
Proof.
  intros Hwf Hs Hb. unfold multiply_range, for_range.
  destruct (decide (row_start a < row_end a)%Z) as [Hlt | Hge].
  - destruct (Hb Hlt) as [H0 HD].
    destruct (for_steps_inv
      (fun k t => computed
         (fun i' j' => bool_decide (row_start a <= Z.of_nat i' < k)%Z || P i' j') st t)
      range_row (row_start a) (Z.to_nat (row_end a - row_start a)) s)
      as (s' & Hs' & Hc).
    + eapply computed_ext; [| exact Hs].
      intros i j _ _. rewrite bool_decide_eq_false_2 by lia. reflexivity.
    + intros k t Hk Ht.
      destruct (range_row_step _ st t k Hwf Ht) as (t' & Ht' & Hc); [lia |].
      exists t'. split; [assumption |].
      eapply computed_ext; [| exact Hc].
      intros i' j' _ _. simpl.
      repeat case_bool_decide; simpl; try reflexivity; lia.
    + exists s'. split; [assumption |].
      eapply computed_ext; [| exact Hc].
      intros i j _ _. unfold in_range. simpl.
      repeat case_bool_decide; simpl; try reflexivity; lia.
  - replace (Z.to_nat (row_end a - row_start a)) with 0 by lia.
    exists s. split; [reflexivity |].
    eapply computed_ext; [| exact Hs].
    intros i j _ _. unfold in_range.
    rewrite bool_decide_eq_false_2 by lia. reflexivity.
Qed.

Lemma multiply_range_spec (st : state) (a : ThreadArgs) :
  wf st -> in_bounds a ->
  multiply_range a st =
    Some (set_c st (tabulate (fun i j =>
      if in_range a i then cell st i j else entry (matrix_c st) i j))).
Proof.
  intros Hwf Hb.
  destruct (multiply_range_computed _ st st a Hwf (computed_refl st Hwf) Hb)
    as (s' & -> & Hc).
  f_equal. rewrite (computed_eq _ _ _ Hc). f_equal.
  unfold tabulate. apply list_fmap_ext. intros _ i _.
  apply list_fmap_ext. intros _ j _. rewrite orb_false_r. reflexivity.
Qed.

(** ** All the workers *)

Lemma run_workers_computed (P : nat -> nat -> bool) (st s : state)
    (targs : list ThreadArgs) :
  wf st -> computed P st s -> Forall in_bounds targs ->
  exists s', run_workers targs s = Some s' /\
    computed (fun i j => covered targs i || P i j) st s'.
Proof.
  intros Hwf Hs Hb. revert P s Hs.
  induction Hb as [| a targs Ha Hb IH]; intros P s Hs; simpl.
  - exists s. split; [reflexivity | assumption].
  - destruct (multiply_range_computed P st s a Hwf Hs Ha) as (s1 & -> & H1).
    simpl. destruct (IH _ s1 H1) as (s' & -> & H').
    exists s'. split; [reflexivity |].
    eapply computed_ext; [| exact H'].
    intros i j _ _. simpl.
    destruct (in_range a i), (covered targs i), (P i j); reflexivity.
Qed.

Lemma run_workers_spec (st : state) (targs : list ThreadArgs) :
  wf st -> Forall in_bounds targs ->
  run_workers targs st =
    Some (set_c st (tabulate (fun i j =>
      if covered targs i then cell st i j else entry (matrix_c st) i j))).
Proof.
  intros Hwf Hb.
  destruct (run_workers_computed _ st st targs Hwf (computed_refl st Hwf) Hb)
    as (s' & -> & Hc).
  f_equal. rewrite (computed_eq _ _ _ Hc). f_equal.
  unfold tabulate. apply list_fmap_ext. intros _ i _.
  apply list_fmap_ext. intros _ j _. rewrite orb_false_r. reflexivity.
Qed.

(** ** [init] *)

(** Invariant rule for a loop nest that visits the cells [(i, j)] in
    row-major order; [I P] says what holds once the cells in [P] are done. *)
Lemma for_nest_inv {St : Type} (I : (nat -> nat -> Prop) -> St -> Prop)
    (body : nat -> nat -> St -> option St) (n m : nat) (s : St) :
  (forall (P Q : nat -> nat -> Prop) t,
     (forall i j, Q i j -> P i j) -> I P t -> I Q t) ->
  I (fun _ _ => False) s ->
  (forall (P : nat -> nat -> Prop) i j t, i < n -> j < m -> I P t ->
     exists t', body i j t = Some t' /\
       I (fun i' j' => P i' j' \/ (i' = i /\ j' = j)) t') ->
  exists s', for_loop (fun i => for_loop (body i) 0 m) 0 n s = Some s' /\
    I (fun i j => i < n /\ j < m) s'.
Proof.
  intros Hmono H0 Hstep.
  destruct (for_loop_inv (fun i t => I (fun i' j' => i' < i /\ j' < m) t)
              (fun i => for_loop (body i) 0 m) 0 n s) as (s' & Hs' & H').
  - eapply Hmono; [| exact H0]. simpl. intros i j. lia.
  - intros i t Hi Ht.
    destruct (for_loop_inv
      (fun j u => I (fun i' j' => (i' < i /\ j' < m) \/ (i' = i /\ j' < j)) u)
      (body i) 0 m t) as (t' & Ht' & H').
    + eapply Hmono; [| exact Ht]. simpl. intros i' j'. lia.
    + intros j u Hj Hu.
      destruct (Hstep (fun i' j' => (i' < i /\ j' < m) \/ (i' = i /\ j' < j)) i j u)
        as (u' & Hu' & H'); [lia | lia | exact Hu |].
      exists u'. split; [assumption |].
      eapply Hmono; [| exact H']. simpl. intros i' j'. lia.
    + exists t'. split; [assumption |].
      eapply Hmono; [| exact H']. simpl. intros i' j'. lia.
  - exists s'. split; [assumption |].
    eapply Hmono; [| exact H']. simpl. intros i j. lia.
Qed.

Lemma init_fill_spec (st : state) :
  wf st ->
  init_fill st =
    Some (State (tabulate a_value) (tabulate b_value) (matrix_b_t st)
                (tabulate (fun _ _ => 0%Z))).
Proof.
  intros (HA & HB & HBT & HC). unfold init_fill.
  destruct (for_nest_inv
    (fun P t => matrix_b_t t = matrix_b_t st /\
       square (matrix_a t) /\ square (matrix_b t) /\ square (matrix_c t) /\
       forall i j, P i j ->
         load (matrix_a t) i j = Some (a_value i j) /\
         load (matrix_b t) i j = Some (b_value i j) /\
         load (matrix_c t) i j = Some 0%Z)
    init_cell DIM DIM st) as (s' & -> & Hbt & Ha & Hb & Hc & Hcells).
  - intros P Q t HQP (? & ? & ? & ? & Hcells). split_and!; auto.
  - split_and!; auto. intros i j [].
  - intros P i j t Hi Hj (Hbt & Ha & Hb & Hc & Hcells). unfold init_cell.
    destruct (store_square _ i j (int_add (Z.of_nat i) (Z.of_nat j)) Ha Hi Hj)
      as (a' & -> & Ha' & Hla). simpl.
    destruct (store_square _ i j (int_sub (Z.of_nat i) (Z.of_nat j)) Hb Hi Hj)
      as (b' & -> & Hb' & Hlb). simpl.
    destruct (store_square _ i j 0%Z Hc Hi Hj) as (c' & -> & Hc' & Hlc). simpl.
    eexists. split; [reflexivity |]. simpl. split_and!; auto.
    intros i' j' HP. rewrite Hla, Hlb, Hlc.
    destruct (decide (i' = i /\ j' = j)) as [[-> ->] | Hne]; [auto |].
    apply Hcells. tauto.
  - f_equal. destruct s' as [a b bt c]. simpl in *. subst bt.
    f_equal; (apply square_ext; [assumption | apply tabulate_square |]);
      intros i j Hi Hj; rewrite load_tabulate by assumption;
      apply Hcells; auto.
Qed.

Lemma init_transpose_spec (st : state) :
  wf st ->
  init_transpose st =
    Some (State (matrix_a st) (matrix_b st) (transpose (matrix_b st))
                (matrix_c st)).
Proof.
  intros (HA & HB & HBT & HC). unfold init_transpose.
  destruct (for_nest_inv
    (fun P t => matrix_a t = matrix_a st /\ matrix_b t = matrix_b st /\
       matrix_c t = matrix_c st /\ square (matrix_b_t t) /\
       forall i j, P i j -> load (matrix_b_t t) j i = load (matrix_b st) i j)
    transpose_cell DIM DIM st) as (s' & -> & Ha & Hb & Hc & Hbt & Hcells).
  - intros P Q t HQP (? & ? & ? & ? & Hcells). split_and!; auto.
  - split_and!; auto. intros i j [].
  - intros P i j t Hi Hj (Ha & Hb & Hc & Hbt & Hcells). unfold transpose_cell.
    rewrite Hb, (square_load _ i j HB Hi Hj). simpl.
    destruct (store_square _ j i (entry (matrix_b st) i j) Hbt Hj Hi)
      as (bt' & -> & Hbt' & Hl). simpl.
    eexists. split; [reflexivity |]. simpl. split_and!; auto.
    intros i' j' HP. rewrite Hl.
    destruct (decide (j' = j /\ i' = i)) as [[-> ->] | Hne].
    + symmetry. apply square_load; assumption.
    + apply Hcells. tauto.
  - f_equal. destruct s' as [a b bt c]. simpl in *. subst a b c.
    f_equal. apply square_ext; [assumption | apply tabulate_square |].
    intros j i Hj Hi. unfold transpose. rewrite load_tabulate by assumption.
    rewrite Hcells by auto. apply square_load; assumption.
Qed.

Lemma init_spec (st : state) : wf st -> init st = Some initialised.
Proof.
  intros Hwf. unfold init. rewrite init_fill_spec by assumption. simpl.
  rewrite init_transpose_spec; [reflexivity |].
  destruct Hwf as (_ & _ & HBT & _).
  repeat split; simpl; try apply tabulate_square; apply HBT.
Qed.

Lemma initialised_wf : wf initialised.
Proof. repeat split; apply tabulate_square. Qed.

(** ** The row ranges of [main] *)

Section Ranges.

Variable T : Z.
Hypothesis T_pos : (1 <= T)%Z.

Local Abbreviation N := (Z.of_nat DIM).
Local Abbreviation base := (Z.of_nat DIM / T)%Z.
Local Abbreviation rem := (Z.of_nat DIM mod T)%Z.

Lemma base_rem : (N = T * base + rem /\ 0 <= rem < T /\ 0 <= base)%Z.
Proof.
  pose proof (Z.div_mod N T). pose proof (Z.mod_pos_bound N T).
  assert (0 <= N / T)%Z by (apply Z.div_pos; lia). lia.
Qed.

Lemma range_start_0 : range_start T 0 = 0%Z.
Proof. unfold range_start.  pose proof base_rem. lia. Qed.

Lemma range_start_T : range_start T T = N.
Proof. unfold range_start.  pose proof base_rem. lia. Qed.

Lemma range_start_succ (t : Z) :
  (0 <= t)%Z ->
  range_start T (t + 1) =
    (range_start T t + (base + if decide (t < rem)%Z then 1 else 0))%Z.
Proof.
  intros Ht. unfold range_start.  case_decide; lia.
Qed.

Lemma range_start_mono (t u : Z) :
  (0 <= t <= u)%Z -> (range_start T t <= range_start T u)%Z.
Proof.
  intros Htu. unfold range_start.  pose proof base_rem.
  assert (t * base <= u * base)%Z by nia. lia.
Qed.

Lemma range_start_bounds (t : Z) :
  (0 <= t <= T)%Z -> (0 <= range_start T t <= N)%Z.
Proof.
  intros Ht. pose proof (range_start_mono 0 t). pose proof (range_start_mono t T).
  rewrite range_start_0 in *. rewrite range_start_T in *. lia.
Qed.

Lemma make_targs_spec :
  (N <= INT_MAX)%Z -> make_targs T = Some (partition T).
Proof.
  intros HN. pose proof base_rem as (HNeq & Hrem & Hbase).
  assert (Hbase_le : (base <= N)%Z) by nia.
  unfold make_targs, int_div, int_mod. rewrite !decide_False by lia. simpl.
  rewrite Z.quot_div_nonneg, Z.rem_mod_nonneg by lia.
  
  rewrite !int_wrap_id by (unfold is_int, INT_MIN, INT_MAX in *; lia).
  unfold for_range. rewrite Z.sub_0_r.
  destruct (for_steps_inv
    (fun k s => (0 <= k)%Z /\ s.1 = range_start T k /\
                s.2 = row_range T <$> seq 0 (Z.to_nat k))
    (assign_rows base rem) 0 (Z.to_nat T) (0%Z, []))
    as ([start targs] & -> & _ & _ & Htargs).
  - simpl. rewrite range_start_0. split_and!; [lia | reflexivity | reflexivity].
  - intros k [start targs] Hk (Hk0 & Hstart & Htargs). simpl in *. subst.
    eexists. split; [reflexivity |]. simpl.
    pose proof (range_start_succ k Hk0) as Hsucc.
    pose proof (range_start_bounds k) as Hb1.
    pose proof (range_start_bounds (k + 1)) as Hb2.
    assert (Hrows : int_add base (if decide (k < rem)%Z then 1 else 0)%Z
                    = (base + if decide (k < rem)%Z then 1 else 0)%Z).
    { apply int_wrap_id. unfold is_int, INT_MIN, INT_MAX in *.
      case_decide; lia. }
    rewrite Hrows.
    assert (Hend : int_add (range_start T k)
                     (base + if decide (k < rem)%Z then 1 else 0)%Z
                   = range_start T (k + 1)).
    { rewrite Hsucc. apply int_wrap_id.
      unfold is_int, INT_MIN, INT_MAX in *. lia. }
    rewrite Hend. split_and!; [lia | reflexivity |].
    replace (Z.to_nat (k + 1)) with (S (Z.to_nat k)) by lia.
    rewrite seq_S, fmap_app. simpl. unfold row_range at 3.
    rewrite Z2Nat.id by lia. reflexivity.
  - simpl in *. rewrite Htargs. f_equal. unfold partition.
    f_equal. f_equal. lia.
Qed.

Lemma partition_length : length (partition T) = Z.to_nat T.
Proof. unfold partition. rewrite length_fmap, length_seq. reflexivity. Qed.

Lemma partition_lookup (t : nat) (a : ThreadArgs) :
  partition T !! t = Some a <-> (Z.of_nat t < T)%Z /\ a = row_range T t.
Proof.
  unfold partition. rewrite list_lookup_fmap. split.
  - intros H. destruct (seq 0 (Z.to_nat T) !! t) as [u |] eqn:Hu; [| discriminate].
    apply lookup_seq in Hu as [-> Hlt]. simpl in H. split; [lia | congruence].
  - intros [Ht ->]. rewrite lookup_seq_lt by lia. reflexivity.
Qed.

Lemma row_range_rows (t : nat) :
  rows (row_range T t) =
    (base + if decide (Z.of_nat t < rem)%Z then 1 else 0)%Z.
Proof. unfold rows, row_range. simpl. rewrite range_start_succ by lia. lia. Qed.

Lemma row_range_in_range (t r : nat) :
  in_range (row_range T t) r = true <->
  (range_start T (Z.of_nat t) <= Z.of_nat r < range_start T (Z.of_nat t + 1))%Z.
Proof. unfold in_range, row_range. simpl. apply bool_decide_eq_true. Qed.

Lemma partition_chain_from (k n : nat) :
  chain (range_start T (Z.of_nat k)) (row_range T <$> seq k n)
        (range_start T (Z.of_nat (k + n))).
Proof.
  revert k. induction n as [|n IH]; intros k; simpl.
  - rewrite Nat.add_0_r. reflexivity.
  - split_and!; [reflexivity | apply range_start_mono; lia |].
    replace (Z.of_nat (k + S n)) with (Z.of_nat (S k + n)) by lia.
    replace (Z.of_nat k + 1)%Z with (Z.of_nat (S k)) by lia. apply IH.
Qed.

Lemma partition_chain : chain 0 (partition T) N.
Proof.
  pose proof (partition_chain_from 0 (Z.to_nat T)) as H.
  rewrite Nat.add_0_l in H. change (Z.of_nat 0) with 0%Z in H.
  rewrite range_start_0, Z2Nat.id, range_start_T in H by lia. exact H.
Qed.

(** Every row below [N] lies in the range of some worker. *)
Lemma partition_covers (r : nat) :
  (Z.of_nat r < N)%Z ->
  exists t, (Z.of_nat t < T)%Z /\ in_range (row_range T t) r = true.
Proof.
  intros Hr.
  assert (Hsearch : forall n : nat, (Z.of_nat n <= T)%Z ->
            (Z.of_nat r < range_start T (Z.of_nat n))%Z ->
            exists t, t < n /\ in_range (row_range T t) r = true).
  { induction n as [|n IH]; intros Hn Hlt.
    - change (Z.of_nat 0) with 0%Z in Hlt. rewrite range_start_0 in Hlt. lia.
    - destruct (decide (Z.of_nat r < range_start T (Z.of_nat n))%Z) as [H | H].
      + destruct (IH ltac:(lia) H) as (t & Ht & Hin). exists t. split; [lia | exact Hin].
      + exists n. split; [lia |]. apply row_range_in_range.
        replace (Z.of_nat n + 1)%Z with (Z.of_nat (S n)) by lia. lia. }
  destruct (Hsearch (Z.to_nat T)) as (t & Ht & Hin); [lia | |].
  - rewrite Z2Nat.id, range_start_T by lia. exact Hr.
  - exists t. split; [lia | exact Hin].
Qed.

(** The ranges of two different workers share no row. *)
Lemma partition_disjoint (t u r : nat) :
  in_range (row_range T t) r = true -> in_range (row_range T u) r = true ->
  t = u.
Proof.
  rewrite !row_range_in_range. intros Ht Hu.
  destruct (Nat.lt_trichotomy t u) as [Hlt | [Heq | Hgt]]; [| exact Heq |].
  - pose proof (range_start_mono (Z.of_nat t + 1) (Z.of_nat u)). lia.
  - pose proof (range_start_mono (Z.of_nat u + 1) (Z.of_nat t)). lia.
Qed.

Lemma partition_in_bounds : Forall in_bounds (partition T).
Proof.
  apply Forall_forall. intros a Ha.
  apply list_elem_of_lookup in Ha as [t Ht].
  apply partition_lookup in Ht as [Ht ->].
  unfold in_bounds, row_range. simpl. intros _.
  pose proof (range_start_bounds (Z.of_nat t)).
  pose proof (range_start_bounds (Z.of_nat t + 1)). lia.
Qed.

Lemma partition_covered (r : nat) : r < DIM -> covered (partition T) r = true.
Proof.
  intros Hr. destruct (partition_covers r) as (t & Ht & Hin); [lia |].
  unfold covered. apply existsb_exists. exists (row_range T t).
  split; [| exact Hin]. apply list_elem_of_In, list_elem_of_lookup.
  exists t. apply partition_lookup. auto.
Qed.

End Ranges.

(** ** Consequences for whole runs *)

Lemma dot_transposed (a b bt : matrix) (i j : nat) :
  transposed b bt -> j < DIM -> dot a bt i j = product_entry a b i j.
Proof.
  intros Ht Hj. unfold dot, product_entry. apply Zsum_ext. intros k Hk.
  unfold entry at 2 4. rewrite (Ht k j Hk Hj). reflexivity.
Qed.

Lemma run_workers_covering (st : state) (targs : list ThreadArgs) :
  wf st -> Forall in_bounds targs ->
  (forall r, r < DIM -> covered targs r = true) ->
  run_workers targs st = Some (set_c st (tabulate (cell st))).
Proof.
  intros Hwf Hb Hcov.
  destruct (run_workers_computed _ st st targs Hwf (computed_refl st Hwf) Hb)
    as (s' & -> & Hc).
  f_equal. apply (computed_eq (fun _ _ => true)).
  eapply computed_ext; [| exact Hc].
  intros i j Hi _. simpl. rewrite Hcov by assumption. reflexivity.
Qed.

Lemma tabulate_row (f : nat -> nat -> Z) (r : nat) :
  r < DIM -> tabulate f !! r = Some (f r <$> seq 0 DIM).
Proof.
  intros Hr. unfold tabulate.
  rewrite list_lookup_fmap, lookup_seq_lt by assumption. reflexivity.
Qed.

Lemma square_row_entries (m : matrix) (r : nat) :
  square m -> r < DIM -> m !! r = Some (entry m r <$> seq 0 DIM).
Proof.
  intros Hm Hr. rewrite (square_tabulate m Hm) at 1. apply tabulate_row, Hr.
Qed.

Lemma filter_none {A : Type} (p : A -> bool) (l : list A) :
  (forall t a, l !! t = Some a -> p a = false) -> List.filter p l = [].
Proof.
  induction l as [|x l IH]; intros H; simpl; [reflexivity |].
  rewrite (H 0 x eq_refl). apply IH. intros t a Ht. exact (H (S t) a Ht).
Qed.

Lemma filter_unique {A : Type} (p : A -> bool) (l : list A) (t : nat) (a : A) :
  l !! t = Some a -> p a = true ->
  (forall t' a', l !! t' = Some a' -> p a' = true -> t' = t) ->
  length (List.filter p l) = 1.
Proof.
  revert t. induction l as [|x l IH]; intros t Ht Hp Huniq; [discriminate |].
  simpl. destruct t as [|t]; simpl in Ht.
  - inversion Ht; subst x. rewrite Hp. simpl. f_equal.
    rewrite filter_none; [reflexivity |].
    intros t' a' Ht'. destruct (p a') eqn:Hpa; [| reflexivity].
    specialize (Huniq (S t') a' Ht' Hpa). discriminate.
  - destruct (p x) eqn:Hpx.
    + specialize (Huniq 0 x eq_refl Hpx). discriminate.
    + apply (IH t Ht Hp). intros t' a' Ht' Hpa.
      specialize (Huniq (S t') a' Ht' Hpa). congruence.
Qed.

Lemma owners_covered (targs : list ThreadArgs) (r : nat) :
  owners targs r = 1 -> covered targs r = true.
Proof.
  unfold owners, covered. induction targs as [|a targs IH]; simpl; [discriminate |].
  destruct (in_range a r); simpl; auto.
Qed.

Lemma partition_owners (T : Z) (r : nat) :
  (1 <= T)%Z -> r < DIM -> owners (partition T) r = 1.
Proof.
  intros HT Hr. destruct (partition_covers T HT r) as (t & Ht & Hin); [lia |].
  unfold owners. apply (filter_unique _ _ t (row_range T t)).
  - apply partition_lookup; auto.
  - exact Hin.
  - intros t' a' Ht' Hin'. apply partition_lookup in Ht' as [_ ->]; [| assumption].
    exact (partition_disjoint T HT _ _ _ Hin' Hin).
Qed.

Lemma partition_row_partition (T : Z) : (1 <= T)%Z -> row_partition (partition T).
Proof.
  intros HT. split; [apply partition_in_bounds; assumption |].
  intros r Hr. apply partition_owners; assumption.
Qed.

(** The order in which the workers run does not matter. *)
Lemma covered_Permutation (targs targs' : list ThreadArgs) (r : nat) :
  targs ≡ₚ targs' -> covered targs r = covered targs' r.
Proof.
  unfold covered. induction 1 as [| a l l' _ IH | a b l | l l' l'' _ IH1 _ IH2];
    simpl; [reflexivity | rewrite IH; reflexivity | | congruence].
  destruct (in_range a r), (in_range b r); reflexivity.
Qed.

Lemma run_workers_Permutation (st : state) (targs targs' : list ThreadArgs) :
  wf st -> Forall in_bounds targs -> targs ≡ₚ targs' ->
  run_workers targs st = run_workers targs' st.
Proof.
  intros Hwf Hb Hperm.
  assert (Hb' : Forall in_bounds targs').
  { rewrite Forall_forall in *. intros a Ha. apply Hb.
    rewrite Hperm. exact Ha. }
  rewrite !run_workers_spec by assumption. do 2 f_equal.
  unfold tabulate. apply list_fmap_ext. intros _ i _.
  apply list_fmap_ext. intros _ j _.
  rewrite (covered_Permutation _ _ i Hperm). reflexivity.
Qed.

(** A range that reaches outside the matrix makes the worker access
    memory outside the arrays: [in_bounds] is exactly what it needs. *)
Lemma for_steps_app {St : Type} (body : Z -> St -> option St)
    (lo : Z) (n m : nat) (s : St) :
  for_steps body lo (n + m) s =
    for_steps body lo n s ≫= for_steps body (lo + Z.of_nat n)%Z m.
Proof.
  revert lo s. induction n as [| n IH]; intros lo s.
  - simpl. rewrite Z.add_0_r. reflexivity.
  - simpl for_steps. destruct (body lo s) as [s' |]; simpl; [| reflexivity].
    rewrite IH. do 2 f_equal. lia.
Qed.

Lemma range_row_outside (st : state) (i : Z) :
  wf st -> ~ (0 <= i < Z.of_nat DIM)%Z -> range_row i st = None.
Proof.
  intros ([Hlen _] & _) Hi. unfold range_row, index.
  case_decide; [| reflexivity]. simpl.
  rewrite lookup_ge_None_2 by lia. reflexivity.
Qed.

Lemma multiply_range_out_of_bounds (st : state) (a : ThreadArgs) :
  wf st -> ~ in_bounds a -> multiply_range a st = None.
Proof.
  intros Hwf Hout. unfold in_bounds in Hout.
  assert (Hlt : (row_start a < row_end a)%Z) by lia.
  assert (Hbad : (row_start a < 0 \/ Z.of_nat DIM < row_end a)%Z) by lia.
  unfold multiply_range, for_range.
  destruct (decide (0 <= row_start a < Z.of_nat DIM)%Z) as [Hin | Hnin].
  - (* rows up to the last one are fine, the next access is outside *)
    replace (Z.to_nat (row_end a - row_start a))
      with (Z.to_nat (Z.of_nat DIM - row_start a)
            + S (Z.to_nat (row_end a - Z.of_nat DIM - 1))) by lia.
    rewrite for_steps_app.
    destruct (multiply_range_computed _ st st
                (MkArgs (row_start a) (Z.of_nat DIM)) Hwf (computed_refl st Hwf))
      as (s' & Hs' & Hc); [unfold in_bounds; simpl; lia |].
    unfold multiply_range, for_range in Hs'. simpl in Hs'. rewrite Hs'. simpl.
    rewrite Z2Nat.id by lia.
    replace (row_start a + (Z.of_nat DIM - row_start a))%Z
      with (Z.of_nat DIM) by lia.
    unfold range_row. rewrite index_nat. simpl.
    destruct Hc as (Ha & _). rewrite Ha.
    destruct Hwf as ([Hlen _] & _).
    rewrite lookup_ge_None_2 by lia. reflexivity.
  - apply for_steps_fail; [apply range_row_outside; assumption | lia].
Qed.

Lemma multiply_range_defined (st : state) (a : ThreadArgs) :
  wf st -> is_Some (multiply_range a st) <-> in_bounds a.
Proof.
  intros Hwf. split.
  - intros [s Hs]. destruct (decide (in_bounds a)) as [H | H]; [exact H |].
    rewrite multiply_range_out_of_bounds in Hs by assumption. discriminate.
  - intros Hb. rewrite multiply_range_spec by assumption. eauto.
Qed.

(** ** Interleaved runs *)

Section Interleaving.

Variable st : state.
Variable targs : list ThreadArgs.
Hypothesis st_wf : wf st.
Hypothesis targs_in_bounds : Forall in_bounds targs.

Local Abbreviation schedule_inv := (schedule_invariant st targs).

Lemma work_elem (a : ThreadArgs) (c : Z * nat) :
  c ∈ work a <-> (row_start a <= c.1 < row_end a)%Z /\ c.2 < DIM.
Proof.
  unfold work. rewrite list_elem_of_bind. split.
  - intros (i & Hc & Hi). apply list_elem_of_fmap in Hc as (j & -> & Hj).
    apply list_elem_of_fmap in Hi as (k & -> & Hk).
    apply elem_of_seq in Hj, Hk. simpl. lia.
  - intros [Hrow Hcol]. destruct c as [i j]. simpl in *. exists i. split.
    + apply list_elem_of_fmap. exists j. split; [reflexivity |].
      apply elem_of_seq. lia.
    + apply list_elem_of_fmap. exists (Z.to_nat (i - row_start a)).
      split; [lia |]. apply elem_of_seq. lia.
Qed.

Lemma covered_elem (r : nat) :
  covered targs r = true <-> exists a, a ∈ targs /\ in_range a r = true.
Proof.
  unfold covered. rewrite existsb_exists.
  split; intros (a & Ha & Hin); exists a; (split; [| exact Hin]);
    apply list_elem_of_In; exact Ha.
Qed.

Lemma schedule_inv_start : schedule_inv (work <$> targs) st.
Proof.
  exists (fun _ _ => false). split_and!.
  - apply computed_refl, st_wf.
  - discriminate.
  - intros i j Hi Hj Hcov. right.
    apply covered_elem in Hcov as (a & Ha & Hin).
    apply list_elem_of_lookup in Ha as [w Hw].
    exists w, (work a). split.
    + rewrite list_lookup_fmap, Hw. reflexivity.
    + apply work_elem. simpl. unfold in_range in Hin.
      apply bool_decide_eq_true in Hin. lia.
  - intros c (w & p & Hw & Hc).
    rewrite list_lookup_fmap in Hw.
    destruct (targs !! w) as [a |] eqn:Ha; [| discriminate].
    simpl in Hw. inversion Hw; subst p.
    apply work_elem in Hc as [Hrow Hcol].
    assert (Hin : a ∈ targs) by (apply list_elem_of_lookup; eauto).
    pose proof (proj1 (Forall_forall _ _) targs_in_bounds a Hin) as Hb.
    unfold in_bounds in Hb.
    exists (Z.to_nat c.1). split_and!; [lia | lia | assumption |].
    apply covered_elem. exists a. split; [assumption |].
    unfold in_range. apply bool_decide_eq_true. lia.
Qed.

Lemma schedule_inv_step (pool : list (list (Z * nat))) (s : state)
    (w : nat) (c : Z * nat) (rest : list (Z * nat)) :
  schedule_inv pool s -> pool !! w = Some (c :: rest) ->
  exists s', cell_step c s = Some s' /\ schedule_inv (<[w := rest]> pool) s'.
Proof.
  intros (P & Hc & Hsound & Hcomplete & Hvalid) Hw.
  destruct (Hvalid c) as (r & Hr & Hlt & Hcol & Hcov).
  { exists w, (c :: rest). split; [assumption | apply list_elem_of_here]. }
  destruct (square_row _ r (proj1 st_wf) Hlt) as (arow & Harow & _).
  destruct (range_cell_step P
              (fun i j => bool_decide (i = r /\ j = c.2) || P i j)
              st s r c.2 arow st_wf Hc Hlt Hcol Harow) as (s' & Hs' & Hc').
  { intros i j _ _. case_bool_decide; case_decide; simpl; tauto. }
  assert (Hlen : w < length pool) by (eapply lookup_lt_Some; eassumption).
  exists s'. split.
  - unfold cell_step. rewrite Hr, index_nat. simpl.
    rewrite (proj1 Hc), Harow. exact Hs'.
  - exists (fun i j => bool_decide (i = r /\ j = c.2) || P i j). split_and!.
    + exact Hc'.
    + intros i j H. apply orb_true_iff in H as [H | H]; [| eauto].
      apply bool_decide_eq_true in H as [-> _]. exact Hcov.
    + intros i j Hi Hj Hcovi.
      destruct (Hcomplete i j Hi Hj Hcovi) as [HP | (w' & p & Hw' & Hin)].
      * left. rewrite HP. apply orb_true_r.
      * destruct (decide (w' = w)) as [-> | Hne].
        -- rewrite Hw in Hw'. inversion Hw'; subst p.
           apply elem_of_cons in Hin as [Heq | Hin].
           ++ left. destruct c as [ci cj]. simpl in *. inversion Heq; subst.
              rewrite bool_decide_eq_true_2; [reflexivity |]. split; [lia | reflexivity].
           ++ right. exists w, rest. split; [| assumption].
              apply list_lookup_insert_eq. assumption.
        -- right. exists w', p. split; [| assumption].
           rewrite list_lookup_insert_ne by auto. assumption.
    + intros c' (w' & p & Hw' & Hin). apply Hvalid.
      destruct (decide (w' = w)) as [-> | Hne].
      * rewrite list_lookup_insert_eq in Hw' by assumption.
        inversion Hw'; subst p. exists w, (c :: rest).
        split; [assumption | apply list_elem_of_further; assumption].
      * rewrite list_lookup_insert_ne in Hw' by auto. exists w', p. auto.
Qed.

(** No schedule leads to an error, and the invariant holds all along. *)
Lemma run_schedule_inv (sched : list nat) (pool : list (list (Z * nat)))
    (s : state) :
  schedule_inv pool s ->
  exists pool' s',
    run_schedule sched pool s = Some (pool', s') /\ schedule_inv pool' s'.
Proof.
  revert pool s. induction sched as [| w sched IH]; intros pool s Hinv; simpl.
  - eauto.
  - destruct (pool !! w) as [[| c rest] |] eqn:Hw; try (apply IH; assumption).
    destruct (schedule_inv_step pool s w c rest Hinv Hw) as (s' & -> & Hinv').
    simpl. apply IH. assumption.
Qed.

(** Once every thread has finished, the memory is the one the workers
    leave when they run one after the other. *)
Lemma schedule_inv_finished (pool : list (list (Z * nat))) (s : state) :
  schedule_inv pool s -> finished pool -> run_workers targs st = Some s.
Proof.
  intros (P & Hc & Hsound & Hcomplete & _) Hfin.
  rewrite run_workers_spec by assumption. f_equal. symmetry.
  apply (computed_eq (fun i _ => covered targs i)).
  eapply computed_ext; [| exact Hc].
  intros i j Hi Hj. destruct (covered targs i) eqn:Hcov.
  - destruct (Hcomplete i j Hi Hj Hcov) as [HP | (w & p & Hw & Hin)];
      [assumption |].
    pose proof (proj1 (Forall_lookup _ _) Hfin w p Hw) as Hp. simpl in Hp.
    subst p. inversion Hin.
  - destruct (P i j) eqn:HP; [| reflexivity].
    rewrite (Hsound i j HP) in Hcov. discriminate.
Qed.

Lemma interleaved_run (sched : list nat) :
  exists pool s,
    run_schedule sched (work <$> targs) st = Some (pool, s) /\
    (finished pool -> run_workers targs st = Some s).
Proof.
  destruct (run_schedule_inv sched _ _ schedule_inv_start)
    as (pool & s & Hrun & Hinv).
  exists pool, s. split; [assumption |].
  apply schedule_inv_finished. assumption.
Qed.

Lemma pool_step_length (pool : list (list (Z * nat))) (w : nat)
    (c : Z * nat) (rest : list (Z * nat)) :
  pool !! w = Some (c :: rest) ->
  length (mjoin pool) = S (length (mjoin (<[w := rest]> pool))).
Proof.
  revert w. induction pool as [| p pool IH]; intros w Hw; [discriminate |].
  destruct w as [| w]; simpl in Hw.
  - inversion Hw; subst p. simpl. rewrite !length_app. reflexivity.
  - simpl. rewrite !length_app, (IH w Hw). lia.
Qed.

(** Every run can be carried on until all the threads have finished. *)
Lemma schedule_can_finish (n : nat) (pool : list (list (Z * nat))) (s : state) :
  length (mjoin pool) = n -> schedule_inv pool s ->
  exists sched pool' s',
    run_schedule sched pool s = Some (pool', s') /\ finished pool'.
Proof.
  revert pool s. induction n as [| n IH]; intros pool s Hn Hinv.
  - exists [], pool, s. split; [reflexivity |].
    apply join_nil, length_zero_iff_nil, Hn.
  - assert (Hex : exists w c rest, pool !! w = Some (c :: rest)).
    { destruct (mjoin pool) as [| c l] eqn:Hcat; [discriminate |].
      assert (Hc : c ∈ mjoin pool) by (rewrite Hcat; apply list_elem_of_here).
      apply list_elem_of_join in Hc as (p & Hcp & Hp).
      apply list_elem_of_lookup in Hp as [w Hw].
      destruct p as [| c' rest]; [inversion Hcp |]. eauto. }
    destruct Hex as (w & c & rest & Hw).
    destruct (schedule_inv_step pool s w c rest Hinv Hw) as (s1 & Hs1 & Hinv1).
    destruct (IH (<[w := rest]> pool) s1) as (sched & pool' & s' & Hrun & Hfin);
      [| assumption |].
    + rewrite (pool_step_length pool w c rest Hw) in Hn. congruence.
    + exists (w :: sched), pool', s'. split; [| assumption].
      simpl. rewrite Hw, Hs1. simpl. exact Hrun.
Qed.

Lemma complete_schedule_exists :
  exists sched pool s,
    run_schedule sched (work <$> targs) st = Some (pool, s) /\ finished pool.
Proof. eapply schedule_can_finish; [reflexivity | apply schedule_inv_start]. Qed.

End Interleaving.

(** ** The product computed by the workers *)

(** C1. For every dimension and every worker count [T] between 1 and the
    dimension, running the workers over the ranges [main] makes for [T]
    leaves in every cell [(i, j)] of C the sum over [k] of
    [A[i][k] * B[k][j]], accumulated in [long] arithmetic: it is that sum
    reduced into the range of [long], hence the sum itself whenever it fits.
    The final memory is the same for every such [T], and it is the one
    reached by every interleaving of the workers, none of which fails. *)
Theorem partitioned_product_correct (st : state) (T : Z) :
  (Z.of_nat DIM <= INT_MAX)%Z ->
  wf st -> transposed (matrix_b st) (matrix_b_t st) ->
  (1 <= T <= Z.of_nat DIM)%Z ->
  exists targs s,
    make_targs T = Some targs /\ run_workers targs st = Some s /\
    matrix_a s = matrix_a st /\ matrix_b s = matrix_b st /\
    (forall i j, i < DIM -> j < DIM ->
       load (matrix_c s) i j =
         Some (long_wrap (product_entry (matrix_a st) (matrix_b st) i j)) /\
       (is_long (product_entry (matrix_a st) (matrix_b st) i j) ->
        load (matrix_c s) i j =
          Some (product_entry (matrix_a st) (matrix_b st) i j))) /\
    (forall T', (1 <= T' <= Z.of_nat DIM)%Z ->
       exists targs',
         make_targs T' = Some targs' /\ run_workers targs' st = Some s) /\
    (forall sched, exists pool s',
       run_schedule sched (work <$> targs) st = Some (pool, s') /\
       (finished pool -> s' = s)).
Proof.
  intros HN Hwf Htr HT.
  assert (Hrun : forall U, (1 <= U <= Z.of_nat DIM)%Z ->
            make_targs U = Some (partition U) /\
            run_workers (partition U) st = Some (set_c st (tabulate (cell st)))).
  { intros U HU. split; [apply make_targs_spec; lia |].
    apply run_workers_covering; [assumption | apply partition_in_bounds; lia |].
    intros r Hr. apply partition_covered; [lia | assumption]. }
  destruct (Hrun T HT) as [Hmk Hrw].
  exists (partition T), (set_c st (tabulate (cell st))).
  split_and!; try done.
  - intros i j Hi Hj. simpl. rewrite load_tabulate by assumption.
    unfold cell. rewrite (dot_transposed _ _ _ i j Htr Hj).
    split; [reflexivity |]. intros Hfit. rewrite long_wrap_id by assumption.
    reflexivity.
  - intros T' HT'. exists (partition T'). apply Hrun, HT'.
  - intros sched.
    destruct (interleaved_run st (partition T) Hwf
                (partition_in_bounds T ltac:(lia)) sched)
      as (pool & s' & Hsched & Hfin).
    exists pool, s'. split; [assumption |].
    intros Hdone. specialize (Hfin Hdone). congruence.
Qed.

(** C2. For every [T] between 1 and the dimension [N], [main] makes [T]
    ranges that follow one another from row 0 to row [N]; every row below
    [N] has exactly one owner and no range holds another row; two different
    ranges share no row; range [t] has [N / T + 1] rows when [t < N mod T]
    and [N / T] rows otherwise, so two sizes differ by at most 1; and when
    [T = N] every range has exactly one row. *)
Theorem partition_ranges_correct (T : Z) :
  (Z.of_nat DIM <= INT_MAX)%Z -> (1 <= T <= Z.of_nat DIM)%Z ->
  exists targs,
    make_targs T = Some targs /\
    length targs = Z.to_nat T /\
    chain 0 targs (Z.of_nat DIM) /\
    (forall r, r < DIM -> owners targs r = 1) /\
    (forall a r, a ∈ targs -> in_range a r = true -> r < DIM) /\
    (forall t u a b r,
       targs !! t = Some a -> targs !! u = Some b ->
       in_range a r = true -> in_range b r = true -> t = u) /\
    (forall t a, targs !! t = Some a ->
       rows a = (Z.of_nat DIM / T +
                 if decide (Z.of_nat t < Z.of_nat DIM mod T)%Z then 1 else 0)%Z) /\
    (forall a b, a ∈ targs -> b ∈ targs -> (-1 <= rows a - rows b <= 1)%Z) /\
    (T = Z.of_nat DIM -> forall a, a ∈ targs -> rows a = 1%Z).
Proof.
  intros HN HT. assert (HT1 : (1 <= T)%Z) by lia.
  assert (Hrows : forall a, a ∈ partition T ->
            exists t : nat, rows a = (Z.of_nat DIM / T +
              if decide (Z.of_nat t < Z.of_nat DIM mod T)%Z then 1 else 0)%Z).
  { intros a Ha. apply list_elem_of_lookup in Ha as [t Ht].
    apply partition_lookup in Ht as [_ ->]; [| assumption].
    exists t. apply row_range_rows; assumption. }
  exists (partition T). split_and!.
  - apply make_targs_spec; assumption.
  - apply partition_length.
  - apply partition_chain; assumption.
  - intros r Hr. apply partition_owners; assumption.
  - intros a r Ha Hin.
    pose proof (partition_in_bounds T HT1) as Hb.
    rewrite Forall_forall in Hb. specialize (Hb a Ha).
    unfold in_range in Hin. apply bool_decide_eq_true in Hin.
    unfold in_bounds in Hb. lia.
  - intros t u a b r Ht Hu Ha Hb.
    apply partition_lookup in Ht as [_ ->]; [| assumption].
    apply partition_lookup in Hu as [_ ->]; [| assumption].
    exact (partition_disjoint T HT1 _ _ _ Ha Hb).
  - intros t a Ht. apply partition_lookup in Ht as [_ ->]; [| assumption].
    apply row_range_rows; assumption.
  - intros a b Ha Hb. destruct (Hrows a Ha) as [t ->], (Hrows b Hb) as [u ->].
    repeat case_decide; lia.
  - intros -> a Ha. destruct (Hrows a Ha) as [t ->].
    rewrite Z.div_same, Z.mod_same by lia. rewrite decide_False by lia. lia.
Qed.

(** C7. Whatever the operands hold, the run of a worker over a range
    within the matrix raises no error, and the value it leaves in a cell
    of that range is a [long] congruent modulo [2 ^ 64] to the exact sum
    of products: an overflow of the accumulator wraps around and is never
    reported. *)
Theorem accumulator_wraps (st : state) (a : ThreadArgs) (i j : nat) :
  wf st -> in_bounds a -> in_range a i = true -> j < DIM ->
  exists s v,
    multiply_range a st = Some s /\
    load (matrix_c s) i j = Some v /\
    is_long v /\
    v = long_wrap (dot (matrix_a st) (matrix_b_t st) i j) /\
    (v mod 2 ^ 64 = dot (matrix_a st) (matrix_b_t st) i j mod 2 ^ 64)%Z.
Proof.
  intros Hwf Hb Hin Hj.
  assert (Hi : i < DIM).
  { unfold in_range in Hin. apply bool_decide_eq_true in Hin.
    unfold in_bounds in Hb. lia. }
  eexists _, (cell st i j). split; [apply multiply_range_spec; assumption |].
  split_and!.
  - simpl. rewrite load_tabulate, Hin by assumption. reflexivity.
  - apply long_wrap_is_long.
  - reflexivity.
  - apply wrap_mod.
Qed.

(** C8. A worker that runs over a range within the matrix leaves A, B and
    the transposed copy as they were, and every row of C whose index is
    outside the range as it was. *)
Theorem multiply_range_frame (st : state) (a : ThreadArgs) :
  wf st -> in_bounds a ->
  exists s,
    multiply_range a st = Some s /\
    matrix_a s = matrix_a st /\ matrix_b s = matrix_b st /\
    matrix_b_t s = matrix_b_t st /\
    forall r, in_range a r = false -> matrix_c s !! r = matrix_c st !! r.
Proof.
  intros Hwf Hb. eexists. split; [apply multiply_range_spec; assumption |].
  split_and!; try reflexivity.
  intros r Hr. simpl. destruct Hwf as (_ & _ & _ & HC).
  destruct (decide (r < DIM)) as [Hlt | Hge].
  - rewrite tabulate_row, (square_row_entries _ r HC) by assumption.
    f_equal. apply list_fmap_ext. intros _ j _. rewrite Hr. reflexivity.
  - destruct (tabulate_square (fun i j =>
      if in_range a i then cell st i j else entry (matrix_c st) i j)) as [Hl _].
    destruct HC as [HC _]. rewrite !lookup_ge_None_2 by lia. reflexivity.
Qed.

(** C9. For every pair of operands, the serial [multiply] and the workers
    of [multiply_range] run over any partition of the rows end in the same
    memory. *)
Theorem serial_partitioned_equiv (st : state) (targs : list ThreadArgs) :
  wf st -> row_partition targs ->
  exists s, multiply st = Some s /\ run_workers targs st = Some s.
Proof.
  intros Hwf [Hb Hown]. exists (set_c st (tabulate (cell st))).
  split; [apply multiply_spec; assumption |].
  apply run_workers_covering; [assumption | assumption |].
  intros r Hr. apply owners_covered, Hown, Hr.
Qed.

(** ** [init] and the layout of the operands *)

Lemma load_zero_matrix (i j : nat) :
  i < DIM -> j < DIM -> load zero_matrix i j = Some 0%Z.
Proof.
  intros Hi Hj. unfold load, zero_matrix.
  rewrite lookup_replicate_2 by assumption. simpl.
  apply lookup_replicate_2. assumption.
Qed.

Lemma tabulate_zero : tabulate (fun _ _ => 0%Z) = zero_matrix.
Proof.
  apply square_ext; [apply tabulate_square | apply zero_matrix_square |].
  intros i j Hi Hj. rewrite load_tabulate, load_zero_matrix by assumption.
  reflexivity.
Qed.

Lemma initialised_transposed :
  transposed (matrix_b initialised) (matrix_b_t initialised).
Proof.
  intros i j Hi Hj. simpl. unfold transpose.
  rewrite load_tabulate by assumption.
  symmetry. apply square_load; [apply tabulate_square | |]; assumption.
Qed.

(** The second loop nest of [init] transposes whatever B holds. *)
Lemma init_transpose_transposed (st : state) :
  wf st ->
  exists s, init_transpose st = Some s /\ wf s /\
    matrix_a s = matrix_a st /\ matrix_b s = matrix_b st /\
    transposed (matrix_b s) (matrix_b_t s).
Proof.
  intros Hwf. eexists. split; [apply init_transpose_spec; assumption |].
  destruct Hwf as (HA & HB & HBT & HC). simpl. split_and!; try done.
  - unfold wf. simpl. split_and!; try assumption. apply tabulate_square.
  - intros i j Hi Hj. unfold transpose. rewrite load_tabulate by assumption.
    symmetry. apply square_load; assumption.
Qed.

(** C3. After [init], run on matrices of any content, the transposed copy
    holds at [(j, i)] what B holds at [(i, j)] for all [i] and [j] below the
    dimension, and C is zero in all its cells. *)
Theorem init_layout (st : state) :
  wf st ->
  exists s,
    init st = Some s /\
    (forall i j, i < DIM -> j < DIM ->
       exists v, load (matrix_b s) i j = Some v /\
                 load (matrix_b_t s) j i = Some v) /\
    (forall i j, i < DIM -> j < DIM -> load (matrix_c s) i j = Some 0%Z) /\
    matrix_c s = replicate DIM (replicate DIM 0%Z).
Proof.
  intros Hwf. exists initialised. split; [apply init_spec; assumption |].
  split_and!.
  - intros i j Hi Hj. exists (entry (matrix_b initialised) i j).
    rewrite (initialised_transposed i j Hi Hj).
    split; apply square_load; try assumption; apply tabulate_square.
  - intros i j Hi Hj. simpl. apply load_tabulate; assumption.
  - simpl. apply tabulate_zero.
Qed.

(** ** The worker count *)

Lemma atoi_is_int (s : string) : is_int (atoi unrepresentable s).
Proof.
  unfold atoi. case_decide; [assumption | apply int_wrap_is_int].
Qed.

Lemma atoi_representable (s : string) :
  is_int (atoi_exact s) -> atoi unrepresentable s = atoi_exact s.
Proof. intros H. unfold atoi. rewrite decide_True by exact H. reflexivity. Qed.

Lemma requested_nthreads_range (argv : list string) :
  (1 <= requested_nthreads argv <= INT_MAX)%Z.
Proof.
  unfold requested_nthreads.
  destruct argv as [| prog [| arg rest]]; try (unfold INT_MAX; lia).
  pose proof (atoi_is_int arg) as [_ Hmax].
  case_decide; [lia | unfold INT_MAX; lia].
Qed.

Lemma clamp_nthreads_min (T : Z) : clamp_nthreads T = Z.min T (Z.of_nat DIM).
Proof. unfold clamp_nthreads. case_decide; lia. Qed.

Lemma unparsable_atoi_exact (s : string) :
  unparsable s = true -> atoi_exact s = 0%Z.
Proof.
  unfold unparsable, atoi_exact.
  destruct (sign_and_rest (skip_space s)) as [neg r]. simpl.
  assert (H : match r with String c _ => negb (isdigit c) | EmptyString => true end
              = true -> digits 0 r = 0%Z).
  { destruct r as [| c r]; simpl; [reflexivity |].
    destruct (isdigit c); [discriminate | reflexivity]. }
  intros Hr. rewrite (H Hr). destruct neg; reflexivity.
Qed.

Lemma unparsable_atoi (s : string) :
  unparsable s = true -> atoi unrepresentable s = 0%Z.
Proof.
  intros H. rewrite atoi_representable; rewrite (unparsable_atoi_exact s H);
    [reflexivity | unfold is_int, INT_MIN, INT_MAX; lia].
Qed.

Lemma ranges_nonempty (T : Z) :
  (1 <= T <= Z.of_nat DIM)%Z ->
  Forall (fun a => (row_start a < row_end a)%Z) (partition T).
Proof.
  intros HT. assert (HT1 : (1 <= T)%Z) by lia.
  apply Forall_forall. intros a Ha.
  apply list_elem_of_lookup in Ha as [t Ht].
  apply partition_lookup in Ht as [Ht ->]; [| lia].
  pose proof (row_range_rows T t) as Hrows. unfold rows in Hrows.
  simpl in Hrows |- *.
  assert (1 <= Z.of_nat DIM / T)%Z.
  { apply Z.div_le_lower_bound; lia. }
  case_decide; lia.
Qed.

Lemma main_spec (argv : list string) :
  1 <= DIM -> (Z.of_nat DIM <= INT_MAX)%Z ->
  main argv = Some (set_c initialised (tabulate (cell initialised))).
Proof.
  intros H1 HN. unfold main. rewrite init_spec by apply zero_state_wf. simpl.
  pose proof (requested_nthreads_range argv) as HT.
  set (T := clamp_nthreads (requested_nthreads argv)).
  assert (HTc : (1 <= T <= Z.of_nat DIM)%Z).
  { unfold T. rewrite clamp_nthreads_min. lia. }
  rewrite make_targs_spec by lia. simpl.
  apply run_workers_covering;
    [apply initialised_wf | apply partition_in_bounds; lia |].
  intros r Hr. apply partition_covered; [lia | assumption].
Qed.

(** C5. The worker count used for the ranges is the smaller of the
    requested count and the dimension; for a requested count of at least 1
    (every count lines 101-105 deliver) the ranges are as many as that,
    and each of them holds at least one row. *)
Theorem clamp_no_empty_range (T : Z) :
  1 <= DIM -> (Z.of_nat DIM <= INT_MAX)%Z ->
  clamp_nthreads T = Z.min T (Z.of_nat DIM) /\
  ((1 <= T)%Z ->
     exists targs,
       make_targs (clamp_nthreads T) = Some targs /\
       length targs = Z.to_nat (Z.min T (Z.of_nat DIM)) /\
       Forall (fun a => (row_start a < row_end a)%Z) targs) /\
  (forall argv, exists targs,
     make_targs (clamp_nthreads (requested_nthreads argv)) = Some targs /\
     Forall (fun a => (row_start a < row_end a)%Z) targs).
Proof.
  intros H1 HN.
  assert (Hgen : forall U, (1 <= U)%Z ->
            make_targs (clamp_nthreads U) = Some (partition (clamp_nthreads U)) /\
            length (partition (clamp_nthreads U)) = Z.to_nat (Z.min U (Z.of_nat DIM)) /\
            Forall (fun a => (row_start a < row_end a)%Z)
                   (partition (clamp_nthreads U))).
  { intros U HU. pose proof (clamp_nthreads_min U) as Hc. split_and!.
    - apply make_targs_spec; lia.
    - rewrite partition_length, Hc. reflexivity.
    - apply ranges_nonempty. lia. }
  split_and!.
  - apply clamp_nthreads_min.
  - intros HT. exists (partition (clamp_nthreads T)). apply Hgen, HT.
  - intros argv. pose proof (requested_nthreads_range argv) as HT.
    eexists. split; apply Hgen; lia.
Qed.

(** C6. When the argument is absent, or [atoi] converts it to a value
    that is not positive, or it holds no number at all, lines 101-105
    deliver the default 4; and whatever the command line is, the count is
    at least 1, the clamped count lies between 1 and the dimension, and
    the run completes. *)
Theorem default_nthreads (argv : list string) :
  1 <= DIM -> (Z.of_nat DIM <= INT_MAX)%Z ->
  ((argv !! 1 = None \/
    exists arg, argv !! 1 = Some arg /\
      ((atoi unrepresentable arg <= 0)%Z \/ unparsable arg = true)) ->
   requested_nthreads argv = 4%Z) /\
  (1 <= requested_nthreads argv)%Z /\
  (1 <= clamp_nthreads (requested_nthreads argv) <= Z.of_nat DIM)%Z /\
  exists s, main argv = Some s.
Proof.
  intros H1 HN. pose proof (requested_nthreads_range argv) as HT. split_and!.
  - intros [Habs | (arg & Harg & Hbad)].
    + destruct argv as [| prog [| arg rest]]; try reflexivity. discriminate.
    + destruct argv as [| prog [| arg' rest]]; try discriminate.
      simpl in Harg. inversion Harg; subst arg'. unfold requested_nthreads.
      assert (atoi unrepresentable arg <= 0)%Z.
      { destruct Hbad as [Hle | Hun]; [exact Hle |].
        rewrite (unparsable_atoi arg Hun). lia. }
      rewrite decide_False by lia. reflexivity.
  - lia.
  - rewrite clamp_nthreads_min. lia.
  - rewrite clamp_nthreads_min. lia.
  - eexists. apply main_spec; assumption.
Qed.

(** ** The operands of [init] do not overflow the accumulator

    Up to dimension [2 ^ 20], which covers the source's 1000, the sums of
    the actual run fit a [long] with room to spare, so [main] leaves the
    exact products in C. *)

Lemma Zsum_bound (f : nat -> Z) (n : nat) (M : Z) :
  (forall k, k < n -> (- M <= f k <= M)%Z) ->
  (- (Z.of_nat n * M) <= Zsum f n <= Z.of_nat n * M)%Z.
Proof.
  induction n as [| n IH]; intros H; simpl Zsum; [lia |].
  specialize (IH ltac:(auto with lia)). specialize (H n ltac:(lia)). lia.
Qed.

Lemma entry_tabulate (f : nat -> nat -> Z) (i j : nat) :
  i < DIM -> j < DIM -> entry (tabulate f) i j = f i j.
Proof. intros Hi Hj. unfold entry. rewrite load_tabulate by assumption. reflexivity. Qed.

Lemma init_values (i j : nat) :
  (Z.of_nat DIM <= 2 ^ 20)%Z -> i < DIM -> j < DIM ->
  a_value i j = (Z.of_nat i + Z.of_nat j)%Z /\
  b_value i j = (Z.of_nat i - Z.of_nat j)%Z.
Proof.
  intros HN Hi Hj. unfold a_value, b_value, int_add, int_sub.
  split; apply int_wrap_id; unfold is_int, INT_MIN, INT_MAX; lia.
Qed.

Lemma main_product_exact (argv : list string) :
  1 <= DIM -> (Z.of_nat DIM <= 2 ^ 20)%Z ->
  exists s,
    main argv = Some s /\
    forall i j, i < DIM -> j < DIM ->
      load (matrix_c s) i j =
        Some (Zsum (fun k => (Z.of_nat i + Z.of_nat k) * (Z.of_nat k - Z.of_nat j))%Z DIM).
Proof.
  intros H1 HN. eexists. split; [apply main_spec; [lia | unfold INT_MAX; lia] |].
  intros i j Hi Hj. simpl. rewrite load_tabulate by assumption. f_equal.
  unfold cell. rewrite (dot_transposed _ _ _ i j initialised_transposed Hj).
  simpl. unfold product_entry.
  rewrite (Zsum_ext _ (fun k => (Z.of_nat i + Z.of_nat k) * (Z.of_nat k - Z.of_nat j))%Z).
  - apply long_wrap_id.
    pose proof (Zsum_bound
      (fun k => (Z.of_nat i + Z.of_nat k) * (Z.of_nat k - Z.of_nat j))%Z DIM
      (2 * Z.of_nat DIM * Z.of_nat DIM)%Z) as Hb.
    assert (Hcube : (Z.of_nat DIM * (2 * Z.of_nat DIM * Z.of_nat DIM) <= 2 ^ 61)%Z).
    { assert (Z.of_nat DIM * Z.of_nat DIM <= 2 ^ 20 * 2 ^ 20)%Z by nia.
      assert (Z.of_nat DIM * (Z.of_nat DIM * Z.of_nat DIM)
              <= 2 ^ 20 * (2 ^ 20 * 2 ^ 20))%Z by nia.
      change (2 ^ 61)%Z with (2 * (2 ^ 20 * (2 ^ 20 * 2 ^ 20)))%Z.
      lia. }
    unfold is_long, LONG_MIN, LONG_MAX.
    assert (2 ^ 61 < 2 ^ 63 - 1)%Z by reflexivity.
    assert (- (2 ^ 61) > - 2 ^ 63)%Z by reflexivity.
    cut (- (Z.of_nat DIM * (2 * Z.of_nat DIM * Z.of_nat DIM)) <=
         Zsum (fun k => (Z.of_nat i + Z.of_nat k) * (Z.of_nat k - Z.of_nat j))%Z DIM
         <= Z.of_nat DIM * (2 * Z.of_nat DIM * Z.of_nat DIM))%Z; [lia |].
    apply Hb. intros k Hk. nia.
  - intros k Hk. rewrite !entry_tabulate by assumption.
    destruct (init_values i k HN Hi Hk) as [-> _].
    destruct (init_values k j HN Hk Hj) as [_ ->]. reflexivity.
Qed.

(** ** Arguments with a numeric prefix *)

Lemma digit_char (c : ascii) (r : string) :
  isdigit c = true ->
  skip_space (String c r) = String c r /\
  sign_and_rest (String c r) = (false, String c r).
Proof.
  destruct c as [[] [] [] [] [] [] [] []]; intros H; vm_compute in H;
    try discriminate H; split; reflexivity.
Qed.

Lemma digits_app (ds rest : string) (acc : Z) :
  all_digits ds = true -> starts_with_digit rest = false ->
  digits acc (ds +:+ rest) = digits acc ds.
Proof.
  intros Hds Hrest. revert acc Hds.
  induction ds as [| c ds IH]; intros acc Hds; simpl in *.
  - destruct rest as [| c r]; simpl in *; [reflexivity |].
    rewrite Hrest. reflexivity.
  - apply andb_true_iff in Hds as [Hc Hds]. rewrite Hc. apply IH, Hds.
Qed.

Lemma atoi_exact_prefix (ds rest : string) :
  ds <> EmptyString -> all_digits ds = true -> starts_with_digit rest = false ->
  atoi_exact (ds +:+ rest) = digits 0 ds.
Proof.
  intros Hne Hds Hrest. destruct ds as [| c ds]; [congruence |].
  pose proof Hds as Hds'. simpl in Hds'.
  apply andb_true_iff in Hds' as [Hc _].
  change (String c ds +:+ rest) with (String c (ds +:+ rest)).
  unfold atoi_exact.
  destruct (digit_char c (ds +:+ rest) Hc) as [Hskip Hsign].
  rewrite Hskip, Hsign.
  exact (digits_app (String c ds) rest 0 Hds Hrest).
Qed.

Lemma digits_nonneg (s : string) (acc : Z) : (0 <= acc)%Z -> (0 <= digits acc s)%Z.
Proof.
  revert acc. induction s as [| c s IH]; intros acc Hacc; simpl; [assumption |].
  destruct (isdigit c) eqn:Hc; [| assumption]. apply IH.
  unfold isdigit in Hc. apply andb_true_iff in Hc as [Hlo _].
  apply Nat.leb_le in Hlo. unfold digit_value. lia.
Qed.

(** C10, as the code has it. An argument that starts with decimal digits
    followed by something else requests the value of those digits when it
    is positive and fits an [int], and the default 4 when it is 0; for
    every argument the default is used exactly when [atoi] returns a value
    that is not positive, as it does for an argument without a number. *)
Theorem numeric_prefix_nthreads (prog ds rest : string) :
  ds <> EmptyString -> all_digits ds = true -> starts_with_digit rest = false ->
  (digits 0 ds <= INT_MAX)%Z ->
  requested_nthreads [prog; ds +:+ rest] =
    (if decide (0 < digits 0 ds)%Z then digits 0 ds else 4%Z) /\
  (forall arg,
     ((0 < atoi unrepresentable arg)%Z ->
        requested_nthreads [prog; arg] = atoi unrepresentable arg) /\
     ((atoi unrepresentable arg <= 0)%Z ->
        requested_nthreads [prog; arg] = 4%Z) /\
     (unparsable arg = true -> requested_nthreads [prog; arg] = 4%Z)).
Proof.
  intros Hne Hds Hrest Hmax. split.
  - unfold requested_nthreads.
    pose proof (digits_nonneg ds 0 ltac:(lia)) as H0.
    rewrite atoi_representable;
      rewrite (atoi_exact_prefix ds rest Hne Hds Hrest);
      [| unfold is_int, INT_MIN; lia].
    repeat case_decide; try reflexivity; lia.
  - intros arg. unfold requested_nthreads. split_and!.
    + intros H. rewrite decide_True by lia. reflexivity.
    + intros H. rewrite decide_False by lia. reflexivity.
    + intros H. rewrite (unparsable_atoi arg H), decide_False by lia.
      reflexivity.
Qed.

(** ** [print]: the dump of C *)

Lemma append_cons (c : ascii) (s t : string) :
  String c s +:+ t = String c (s +:+ t).
Proof. reflexivity. Qed.

Lemma append_nil_l (s : string) : "" +:+ s = s.
Proof. reflexivity. Qed.

Lemma append_nil_r (s : string) : s +:+ "" = s.
Proof.
  induction s as [| c s IH]; [reflexivity |].
  rewrite append_cons, IH. reflexivity.
Qed.

Lemma append_assoc (s t u : string) : (s +:+ t) +:+ u = s +:+ (t +:+ u).
Proof.
  induction s as [| c s IH]; [reflexivity |].
  rewrite !append_cons, IH. reflexivity.
Qed.

Lemma dump_app (vs ws : list Z) : dump (vs ++ ws) = dump vs +:+ dump ws.
Proof.
  induction vs as [| v vs IH]; simpl; [reflexivity |].
  rewrite IH, append_assoc. reflexivity.
Qed.

Lemma dump_snoc (vs : list Z) (v : Z) :
  dump vs +:+ format_long v +:+ String newline "" = dump (vs ++ [v]).
Proof. rewrite dump_app. simpl. reflexivity. Qed.

(** Cell [(i, j)] is entry [i * DIM + j] of the rows put end to end. *)
Lemma join_lookup (m : matrix) (i j : nat) :
  Forall (fun row => length row = DIM) m -> j < DIM ->
  mjoin m !! (i * DIM + j) = load m i j.
Proof.
  intros Hrows Hj. revert i. induction Hrows as [| row m Hrow _ IH]; intros i.
  - unfold load. simpl. rewrite !lookup_nil. reflexivity.
  - destruct i as [| i]; simpl.
    + unfold load. simpl. apply lookup_app_l. lia.
    + rewrite lookup_app_r by lia.
      replace (DIM + i * DIM + j - length row) with (i * DIM + j) by lia.
      rewrite IH. reflexivity.
Qed.

Lemma join_length (m : matrix) : square m -> length (mjoin m) = DIM * DIM.
Proof.
  intros [Hlen Hrows]. rewrite <- Hlen at 1. clear Hlen.
  induction Hrows as [| row m Hrow _ IH]; simpl; [reflexivity |].
  rewrite length_app, IH, Hrow. reflexivity.
Qed.

Lemma print_spec (st : state) :
  wf st -> print st = Some (dump (mjoin (matrix_c st))).
Proof.
  intros (_ & _ & _ & HC). unfold print.
  destruct (for_loop_inv
    (fun i fout => fout = dump (mjoin (take i (matrix_c st))))
    (fun i => for_loop (print_cell st i) 0 DIM) 0 DIM "")
    as (out & -> & Hout).
  - reflexivity.
  - intros i fout Hi ->.
    destruct (square_row _ i HC) as (row & Hrow & Hlen); [lia |].
    destruct (for_loop_inv
      (fun j fout =>
         fout = dump (mjoin (take i (matrix_c st)) ++ take j row))
      (print_cell st i) 0 DIM (dump (mjoin (take i (matrix_c st)))))
      as (out & Hrun & Hout).
    + simpl. rewrite app_nil_r. reflexivity.
    + intros j fout Hj ->.
      destruct (lookup_lt_is_Some_2 row j) as [v Hv]; [lia |].
      unfold print_cell, load. rewrite Hrow. simpl. rewrite Hv. simpl.
      eexists. split; [reflexivity |].
      rewrite (take_S_r _ _ _ Hv), app_assoc. apply dump_snoc.
    + exists out. split; [exact Hrun |]. rewrite Hout.
      rewrite (take_S_r _ _ _ Hrow), join_app. simpl.
      rewrite app_nil_r, (take_ge row) by lia. reflexivity.
  - f_equal. rewrite Hout. simpl. rewrite take_ge; [reflexivity |].
    destruct HC as [HC _]. lia.
Qed.

(** *** Numbers are read back as they were written *)

Lemma digit_of_spec (d : Z) :
  (0 <= d <= 9)%Z ->
  isdigit (digit_of d) = true /\ digit_value (digit_of d) = d /\
  Ascii.eqb (digit_of d) newline = false.
Proof.
  intros Hd.
  assert (H : (d = 0 \/ d = 1 \/ d = 2 \/ d = 3 \/ d = 4 \/ d = 5 \/ d = 6 \/
               d = 7 \/ d = 8 \/ d = 9)%Z) by lia.
  repeat destruct H as [-> | H]; try subst d; repeat split; reflexivity.
Qed.

(** The digits of [n] stand in front of [rest], and reading them after
    [acc] gives [acc] followed by [n]. *)
Lemma decimal_spec (fuel : nat) (n : Z) (rest : string) :
  (0 <= n < 10 ^ Z.of_nat (S fuel))%Z ->
  exists ds,
    decimal (S fuel) n rest = ds +:+ rest /\
    ds <> EmptyString /\ all_digits ds = true /\
    (forall cur r, split_lines (ds +:+ r) cur = split_lines r (cur +:+ ds)) /\
    exists k : Z, (0 < k)%Z /\ forall acc, digits acc ds = (acc * k + n)%Z.
Proof.
  revert n rest.
  assert (Hone : forall n rest, (0 <= n < 10)%Z ->
    exists ds, String (digit_of (n mod 10)) rest = ds +:+ rest /\
      ds <> EmptyString /\ all_digits ds = true /\
      (forall cur r, split_lines (ds +:+ r) cur = split_lines r (cur +:+ ds)) /\
      exists k : Z, (0 < k)%Z /\ forall acc, digits acc ds = (acc * k + n)%Z).
  { intros n rest Hn.
    destruct (digit_of_spec (n mod 10)) as (Hdig & Hval & Hnl);
      [rewrite Z.mod_small; lia |].
    exists (String (digit_of (n mod 10)) ""). split_and!.
    - reflexivity.
    - discriminate.
    - cbn [all_digits]. rewrite Hdig. reflexivity.
    - intros cur r. rewrite append_cons. cbn [split_lines].
      rewrite Hnl. reflexivity.
    - exists 10%Z. split; [lia |]. intros acc. cbn [digits].
      rewrite Hdig, Hval, Z.mod_small by lia. lia. }
  induction fuel as [| fuel IH]; intros n rest Hn.
  - simpl decimal. change (10 ^ Z.of_nat 1)%Z with 10%Z in Hn.
    destruct (decide (n < 10)%Z); apply Hone; lia.
  - change (decimal (S (S fuel)) n rest)
      with (if decide (n < 10)%Z then String (digit_of (n mod 10)) rest
            else decimal (S fuel) (n / 10) (String (digit_of (n mod 10)) rest)).
    pose proof (Z.mod_pos_bound n 10 ltac:(lia)) as Hmod.
    destruct (digit_of_spec (n mod 10) ltac:(lia)) as (Hdig & Hval & Hnl).
    case_decide as Hsmall.
    + apply Hone. lia.
    + destruct (IH (n / 10)%Z (String (digit_of (n mod 10)) rest))
        as (ds & Hds & Hne & Hall & Hsplit & k & Hk & Hread).
      { rewrite (Nat2Z.inj_succ (S fuel)), Z.pow_succ_r in Hn by lia.
        split; [apply Z.div_pos; lia |].
        apply Z.div_lt_upper_bound; lia. }
      exists (ds +:+ String (digit_of (n mod 10)) ""). split_and!.
      * rewrite Hds, append_assoc. reflexivity.
      * destruct ds; [congruence | discriminate].
      * clear - Hall Hdig. induction ds as [| c ds IHds].
        -- rewrite append_nil_l. cbn [all_digits]. rewrite Hdig. reflexivity.
        -- rewrite append_cons. cbn [all_digits] in *.
           apply andb_true_iff in Hall as [-> Hall]. cbn [andb]. auto.
      * intros cur r. rewrite append_assoc, Hsplit.
        rewrite append_cons, append_nil_l.
        cbn [split_lines]. rewrite Hnl.
        rewrite append_assoc. reflexivity.
      * exists (k * 10)%Z. split; [lia |]. intros acc.
        assert (Happ : forall a, digits a (ds +:+ String (digit_of (n mod 10)) "")
                         = (10 * digits a ds + n mod 10)%Z).
        { clear - Hall Hdig Hval. revert Hall.
          induction ds as [| c ds IHds]; intros Hall a.
          - rewrite append_nil_l. cbn [digits]. rewrite Hdig, Hval. reflexivity.
          - rewrite append_cons. cbn [all_digits digits] in *.
            apply andb_true_iff in Hall as [Hc Hall]. rewrite Hc. auto. }
        rewrite Happ, Hread. pose proof (Z.div_mod n 10 ltac:(lia)). lia.
Qed.

Lemma format_long_parse (z : Z) :
  (- 10 ^ 20 < z < 10 ^ 20)%Z -> atoi_exact (format_long z) = z.
Proof.
  intros Hz. unfold format_long. case_decide as Hneg.
  - destruct (decimal_spec 19 (- z) "") as (ds & -> & _ & _ & _ & k & _ & Hread);
      [simpl; lia |].
    rewrite append_nil_r. unfold atoi_exact. simpl.
    rewrite Hread. lia.
  - destruct (decimal_spec 19 z "") as (ds & -> & Hne & Hall & _ & k & _ & Hread);
      [simpl; lia |].
    rewrite append_nil_r.
    rewrite <- (append_nil_r ds) at 1.
    rewrite (atoi_exact_prefix ds "" Hne Hall eq_refl), Hread. lia.
Qed.

Lemma format_long_line (z : Z) (rest : string) :
  (- 10 ^ 20 < z < 10 ^ 20)%Z ->
  split_lines (format_long z +:+ String newline rest) ""
  = format_long z :: split_lines rest "".
Proof.
  intros Hz. unfold format_long. case_decide as Hneg.
  - destruct (decimal_spec 19 (- z) "") as (ds & -> & _ & _ & Hsplit & _);
      [simpl; lia |].
    rewrite append_nil_r. simpl. rewrite Hsplit. simpl. reflexivity.
  - destruct (decimal_spec 19 z "") as (ds & -> & _ & _ & Hsplit & _);
      [simpl; lia |].
    rewrite append_nil_r, Hsplit. simpl. reflexivity.
Qed.

Lemma dump_lines (vs : list Z) :
  Forall is_long vs -> split_lines (dump vs) "" = format_long <$> vs.
Proof.
  induction 1 as [| v vs Hv _ IH]; simpl; [reflexivity |].
  rewrite format_long_line, IH; [reflexivity |].
  unfold is_long, LONG_MIN, LONG_MAX in Hv. lia.
Qed.

Lemma dump_parse (vs : list Z) : Forall is_long vs -> parse_dump (dump vs) = vs.
Proof.
  intros Hvs. unfold parse_dump. rewrite dump_lines by assumption.
  rewrite <- list_fmap_compose. rewrite <- (list_fmap_id vs) at 2.
  apply Forall_fmap_ext_1. eapply Forall_impl; [exact Hvs |].
  intros v Hv. simpl. apply format_long_parse.
  unfold is_long, LONG_MIN, LONG_MAX in Hv. lia.
Qed.

(** ** Operation counts *)

Lemma op_counts (N : Z) :
  (0 <= N < 2 ^ 21)%Z ->
  (0 <= N * N < 2 ^ 42 /\ 0 <= N * N * N < 2 ^ 63)%Z.
Proof.
  intros HN. assert (H2 : (0 <= N * N < 2 ^ 21 * 2 ^ 21)%Z) by nia.
  assert (H3 : (0 <= N * N * N < 2 ^ 21 * 2 ^ 21 * 2 ^ 21)%Z) by nia.
  change (2 ^ 42)%Z with (2 ^ 21 * 2 ^ 21)%Z.
  change (2 ^ 63)%Z with (2 ^ 21 * 2 ^ 21 * 2 ^ 21)%Z. lia.
Qed.

(** ** Threads and the barrier *)

Lemma sum_list_with_insert {A : Type} (f : A -> nat) (l : list A)
    (w : nat) (x y : A) :
  l !! w = Some x ->
  sum_list_with f (<[w := y]> l) + f x = sum_list_with f l + f y.
Proof.
  revert w. induction l as [| z l IH]; intros w Hw; [discriminate |].
  destruct w as [| w]; simpl in *.
  - inversion Hw; subst. lia.
  - specialize (IH w Hw). lia.
Qed.

Lemma arrivals_le (ws : list wstate) : arrivals ws <= length ws.
Proof.
  unfold arrivals. induction ws as [| x ws IH]; simpl; [lia |].
  destruct (arrived_b x); lia.
Qed.

Lemma arrivals_created (ws : list wstate) (w : nat) :
  ws !! w = Some WCreated -> arrivals ws < length ws.
Proof.
  unfold arrivals. revert w. induction ws as [| x ws IH]; intros w Hw;
    [discriminate |].
  destruct w as [| w]; simpl in *.
  - inversion Hw; subst. simpl. pose proof (arrivals_le ws).
    unfold arrivals in *. lia.
  - specialize (IH w Hw). destruct (arrived_b x); lia.
Qed.

Lemma arrivals_find (ws : list wstate) :
  arrivals ws < length ws -> exists w, ws !! w = Some WCreated.
Proof.
  unfold arrivals. induction ws as [| x ws IH]; simpl; [lia |].
  destruct x; simpl; intros H; try (exists 0; reflexivity);
    destruct IH as [w Hw]; try lia; exists (S w); exact Hw.
Qed.

Lemma arrivals_snoc (ws : list wstate) : arrivals (ws ++ [WCreated]) = arrivals ws.
Proof. unfold arrivals. rewrite sum_list_with_app. simpl. lia. Qed.

Lemma arrivals_insert (ws : list wstate) (w : nat) (x y : wstate) :
  ws !! w = Some x ->
  arrivals (<[w := y]> ws) + (if arrived_b x then 1 else 0)
  = arrivals ws + (if arrived_b y then 1 else 0).
Proof. apply sum_list_with_insert. Qed.

Lemma pool_of_lookup (T : Z) (ws : list wstate) (w : nat) (a : ThreadArgs) :
  partition T !! w = Some a ->
  pool_of T ws !! w = Some (cells_of (ws !! w) a).
Proof.
  intros Ha. unfold pool_of. rewrite list_lookup_imap, Ha. reflexivity.
Qed.

Lemma pool_of_ext (T : Z) (ws ws' : list wstate) :
  (forall w a, partition T !! w = Some a ->
     cells_of (ws !! w) a = cells_of (ws' !! w) a) ->
  pool_of T ws = pool_of T ws'.
Proof. intros H. unfold pool_of. apply imap_ext. exact H. Qed.

Lemma pool_of_insert (T : Z) (ws : list wstate) (w : nat) (x : wstate)
    (a : ThreadArgs) :
  partition T !! w = Some a -> w < length ws ->
  pool_of T (<[w := x]> ws) = <[w := cells_of (Some x) a]> (pool_of T ws).
Proof.
  intros Ha Hw. apply list_eq. intros u.
  destruct (decide (u = w)) as [-> | Hne].
  - rewrite list_lookup_insert_eq.
    + rewrite (pool_of_lookup _ _ _ a Ha), list_lookup_insert_eq by assumption.
      reflexivity.
    + unfold pool_of. rewrite length_imap.
      eapply lookup_lt_Some. exact Ha.
  - rewrite list_lookup_insert_ne by auto. unfold pool_of.
    rewrite !list_lookup_imap. destruct (partition T !! u); simpl; [| reflexivity].
    rewrite list_lookup_insert_ne by auto. reflexivity.
Qed.

Lemma pool_of_same (T : Z) (ws : list wstate) (w : nat) (x y : wstate) :
  ws !! w = Some x ->
  (forall a, partition T !! w = Some a -> cells_of (Some y) a = cells_of (Some x) a) ->
  pool_of T (<[w := y]> ws) = pool_of T ws.
Proof.
  intros Hx Hsame. apply pool_of_ext. intros u a Ha.
  destruct (decide (u = w)) as [-> | Hne].
  - rewrite list_lookup_insert_eq by (eapply lookup_lt_Some; exact Hx).
    rewrite Hx. auto.
  - rewrite list_lookup_insert_ne by auto. reflexivity.
Qed.

Section Machine.

Variable r : resources.
Variable T : Z.
Variable st : state.
Hypothesis st_wf : wf st.
Hypothesis T_range : (1 <= T <= Z.of_nat DIM)%Z.
Hypothesis DIM_int : (Z.of_nat DIM <= INT_MAX)%Z.

(** The count given to the barrier is the number of threads that will call
    [pthread_barrier_wait]: the workers and [main]. *)
Lemma barrier_count_spec : barrier_count T = (T + 1)%Z.
Proof.
  unfold barrier_count, u32_wrap, int_add, int_wrap. rewrite wrap_mod.
  apply Z.mod_small. unfold INT_MAX in DIM_int. lia.
Qed.

Lemma assign_rows_spec (t : nat) (l : list ThreadArgs) :
  (Z.of_nat t < T)%Z ->
  assign_rows (Z.of_nat DIM / T) (Z.of_nat DIM mod T) (Z.of_nat t)
              (range_start T (Z.of_nat t), l)
  = Some (range_start T (Z.of_nat t + 1), l ++ [row_range T t]).
Proof.
  intros Ht. assert (HT1 : (1 <= T)%Z) by lia.
  pose proof (base_rem T HT1) as (HNeq & Hrem & Hbase).
  assert (Hbase_le : (Z.of_nat DIM / T <= Z.of_nat DIM)%Z) by nia.
  pose proof (range_start_succ T (Z.of_nat t) ltac:(lia)) as Hsucc.
  pose proof (range_start_bounds T HT1 (Z.of_nat t) ltac:(lia)) as Hb1.
  pose proof (range_start_bounds T HT1 (Z.of_nat t + 1) ltac:(lia)) as Hb2.
  unfold assign_rows. simpl.
  assert (Hrows : int_add (Z.of_nat DIM / T)
                    (if decide (Z.of_nat t < Z.of_nat DIM mod T)%Z then 1 else 0)%Z
                  = (Z.of_nat DIM / T +
                     if decide (Z.of_nat t < Z.of_nat DIM mod T)%Z then 1 else 0)%Z).
  { apply int_wrap_id. unfold is_int, INT_MIN, INT_MAX in *. case_decide; lia. }
  rewrite Hrows.
  assert (Hend : int_add (range_start T (Z.of_nat t))
                   (Z.of_nat DIM / T +
                    if decide (Z.of_nat t < Z.of_nat DIM mod T)%Z then 1 else 0)%Z
                 = range_start T (Z.of_nat t + 1)).
  { rewrite Hsucc. apply int_wrap_id. unfold is_int, INT_MIN, INT_MAX in *. lia. }
  rewrite Hend. reflexivity.
Qed.

Lemma targs_in_bounds : Forall in_bounds (partition T).
Proof. apply partition_in_bounds. lia. Qed.

Lemma work_length_le (w : nat) (a : ThreadArgs) :
  partition T !! w = Some a -> length (work a) <= total_work T.
Proof.
  intros Ha. unfold total_work.
  assert (Hin : work a ∈ work <$> partition T).
  { apply list_elem_of_fmap. exists a. split; [reflexivity |].
    apply list_elem_of_lookup. eauto. }
  clear Ha. induction (work <$> partition T) as [| p ps IH]; [inversion Hin |].
  simpl. rewrite length_app. apply elem_of_cons in Hin as [-> | Hin]; [lia |].
  specialize (IH Hin). lia.
Qed.

(** A step of a worker keeps what [main] knows, unless the worker had
    returned already. *)
Lemma main_inv_insert (m : mstate) (ws : list wstate) (arr : Z)
    (w : nat) (x y : wstate) :
  ws !! w = Some x -> x <> WDone ->
  main_inv r T m ws arr -> main_inv r T m (<[w := y]> ws) arr.
Proof.
  intros Hx Hnd. destruct m as [b rm t start | | t | code]; simpl;
    rewrite ?length_insert; try tauto.
  intros (Hlen & Ht & Harr & Hcreate & Hjoin).
  do 4 (split; [assumption |]).
  intros u Hu. destruct (Hjoin u Hu) as [Hj Hdone]. split; [assumption |].
  rewrite list_lookup_insert_ne; [assumption |].
  intros Heq. rewrite Heq in Hx. congruence.
Qed.

Lemma worker_move_inv (w : nat) (c : config) :
  (forall code, c_main c <> MExit code) ->
  common_inv T st c -> running_inv r T c ->
  exists c', worker_move T w c = Some c' /\ c_main c' = c_main c /\
    common_inv T st c' /\ running_inv r T c' /\
    (worker_enabled T w c -> steps_left T c' < steps_left T c).
Proof.
  intros Hrunning Hcommon Hrun.
  pose proof Hcommon as (Hlen & Hpassed & Hfresh & Hsched).
  pose proof Hrun as (Hbar & Hser & Hcerr & Htargs & Harr & Hmain).
  destruct c as [m tg ws arr mem cerr ser]. simpl in *.
  unfold worker_move, worker_enabled. simpl.
  assert (HT1 : (1 <= T)%Z) by lia.
  assert (Harr_le : (arr <= T + 1)%Z).
  { pose proof (arrivals_le ws). destruct m; simpl in Harr; lia. }
  destruct (ws !! w) as [x |] eqn:Hw;
    [| eexists; split_and!; try done; tauto].
  assert (Hwlt : w < length ws) by (eapply lookup_lt_Some; exact Hw).
  destruct (partition_lookup T HT1 w (row_range T w)) as [_ Hpart].
  specialize (Hpart ltac:(split; [lia | reflexivity])).
  destruct x as [| | cells |].
  - (* the worker reaches the barrier *)
    pose proof (arrivals_created ws w Hw) as Hcr.
    assert (Hnone : forall u y, ws !! u = Some y -> passed_b y = false).
    { intros u y Hu. destruct (passed_b y) eqn:Hp; [| reflexivity].
      destruct (Hpassed u y Hu Hp) as (Ha & _).
      destruct m; simpl in Harr; lia. }
    eexists. split; [reflexivity |]. split; [reflexivity |]. split_and!.
    + unfold common_inv. simpl. rewrite length_insert. split_and!.
      * assumption.
      * intros u y Hu Hp. exfalso.
        destruct (decide (u = w)) as [-> | Hne].
        -- rewrite list_lookup_insert_eq in Hu by assumption.
           inversion Hu; subst. discriminate.
        -- rewrite list_lookup_insert_ne in Hu by auto.
           rewrite (Hnone u y Hu) in Hp. discriminate.
      * intros _. apply Hfresh, Hnone.
      * rewrite (pool_of_same T ws w WCreated WWaiting Hw); [assumption |].
        reflexivity.
    + unfold running_inv. simpl. rewrite length_insert. split_and!; try assumption.
      * pose proof (arrivals_insert ws w WCreated WWaiting Hw) as Hins.
        simpl in Hins. lia.
      * destruct m as [b rm t start | | t | code]; simpl in *;
          rewrite ?length_insert; try tauto.
        exfalso. destruct Hmain as (Hl & _ & Ha & _). lia.
    + intros _. unfold steps_left. simpl.
      pose proof (sum_list_with_insert (wweight (total_work T)) ws w
                    WCreated WWaiting Hw) as Hsum. simpl in Hsum. lia.
  - (* blocked in the barrier, or released *)
    rewrite barrier_count_spec.
    case_decide as Hfull; [| eexists; split_and!; try done; tauto].
    replace (tg !! w) with (Some (row_range T w))
      by (rewrite Htargs, lookup_take_lt, Hpart by assumption; reflexivity).
    simpl.
    eexists. split; [reflexivity |]. split; [reflexivity |].
    assert (Hfullws : length ws = Z.to_nat T).
    { pose proof (arrivals_le ws). destruct m; simpl in Harr; lia. }
    split_and!.
    + unfold common_inv. simpl. rewrite length_insert. split_and!.
      * assumption.
      * intros _ _ _ _. split_and!; [assumption | assumption |].
        rewrite Htargs, Hfullws. apply take_ge. rewrite partition_length. lia.
      * intros Hall. exfalso.
        specialize (Hall w (WComputing (work (row_range T w)))).
        rewrite list_lookup_insert_eq in Hall by assumption.
        specialize (Hall eq_refl). discriminate.
      * rewrite (pool_of_same T ws w WWaiting _ Hw); [assumption |].
        intros a Ha. rewrite Hpart in Ha. inversion Ha. reflexivity.
    + unfold running_inv. simpl. rewrite length_insert. split_and!; try assumption.
      * pose proof (arrivals_insert ws w WWaiting
                      (WComputing (work (row_range T w))) Hw) as Hins.
        simpl in Hins. lia.
      * apply (main_inv_insert _ _ _ _ WWaiting); [assumption | discriminate |].
        assumption.
    + intros _. unfold steps_left. simpl.
      pose proof (sum_list_with_insert (wweight (total_work T)) ws w
                    WWaiting (WComputing (work (row_range T w))) Hw) as Hsum.
      pose proof (work_length_le w _ Hpart). simpl in Hsum. lia.
  - destruct cells as [| cl rest].
    + (* the worker returns *)
      eexists. split; [reflexivity |]. split; [reflexivity |]. split_and!.
      * unfold common_inv. simpl. rewrite length_insert.
        destruct (Hpassed w _ Hw eq_refl) as (Ha & Hl & Htg). split_and!.
        -- assumption.
        -- intros _ _ _ _. auto.
        -- intros Hall. exfalso. specialize (Hall w WDone).
           rewrite list_lookup_insert_eq in Hall by assumption.
           specialize (Hall eq_refl). discriminate.
        -- rewrite (pool_of_same T ws w (WComputing []) WDone Hw);
             [assumption | reflexivity].
      * unfold running_inv. simpl. rewrite length_insert.
        split_and!; try assumption.
        -- pose proof (arrivals_insert ws w (WComputing []) WDone Hw) as Hins.
           simpl in Hins. lia.
        -- apply (main_inv_insert _ _ _ _ (WComputing []));
             [assumption | discriminate | assumption].
      * intros _. unfold steps_left. simpl.
        pose proof (sum_list_with_insert (wweight (total_work T)) ws w
                      (WComputing []) WDone Hw) as Hsum. simpl in Hsum. lia.
    + (* the worker fills a cell *)
      pose proof (pool_of_lookup T ws w _ Hpart) as Hpool.
      rewrite Hw in Hpool. simpl in Hpool.
      destruct (schedule_inv_step st (partition T) st_wf _ _ w cl rest
                  Hsched Hpool) as (mem' & -> & Hsched').
      simpl. eexists. split; [reflexivity |]. split; [reflexivity |].
      destruct (Hpassed w _ Hw eq_refl) as (Ha & Hl & Htg). split_and!.
      * unfold common_inv. simpl. rewrite length_insert. split_and!.
        -- assumption.
        -- intros _ _ _ _. auto.
        -- intros Hall. exfalso. specialize (Hall w (WComputing rest)).
           rewrite list_lookup_insert_eq in Hall by assumption.
           specialize (Hall eq_refl). discriminate.
        -- rewrite (pool_of_insert T ws w _ _ Hpart Hwlt). exact Hsched'.
      * unfold running_inv. simpl. rewrite length_insert.
        split_and!; try assumption.
        -- pose proof (arrivals_insert ws w (WComputing (cl :: rest))
                         (WComputing rest) Hw) as Hins.
           simpl in Hins. lia.
        -- apply (main_inv_insert _ _ _ _ (WComputing (cl :: rest)));
             [assumption | discriminate | assumption].
      * intros _. unfold steps_left. simpl.
        pose proof (sum_list_with_insert (wweight (total_work T)) ws w
                      (WComputing (cl :: rest)) (WComputing rest) Hw) as Hsum.
        simpl in Hsum. lia.
  - eexists. split_and!; try done; tauto.
Qed.

Lemma mem_wf (pool : list (list (Z * nat))) (mem : state) :
  schedule_invariant st (partition T) pool mem -> wf mem.
Proof.
  intros (P & (Ha & Hb & Hbt & Hc & _) & _).
  destruct st_wf as (HA & HB & HBT & _).
  unfold wf. rewrite Ha, Hb, Hbt. auto.
Qed.

(** When every worker has returned the product is in C. *)
Lemma all_done_product (ws : list wstate) (mem : state) :
  (forall u, (0 <= u < T)%Z -> ws !! Z.to_nat u = Some WDone) ->
  schedule_invariant st (partition T) (pool_of T ws) mem ->
  mem = set_c st (tabulate (cell st)).
Proof.
  intros Hdone Hsched. assert (HT1 : (1 <= T)%Z) by lia.
  assert (Hfin : finished (pool_of T ws)).
  { apply Forall_lookup. intros i p Hp. unfold pool_of in Hp.
    rewrite list_lookup_imap in Hp.
    destruct (partition T !! i) as [a |] eqn:Ha; [| discriminate].
    simpl in Hp. inversion Hp; subst p.
    apply (partition_lookup T HT1) in Ha as [Hi _].
    rewrite <- (Nat2Z.id i), Hdone by lia. reflexivity. }
  pose proof (schedule_inv_finished st (partition T) st_wf targs_in_bounds
                _ _ Hsched Hfin) as Hrun.
  rewrite run_workers_covering in Hrun;
    [congruence | assumption | apply targs_in_bounds |].
  intros row Hrow. apply partition_covered; assumption.
Qed.

Lemma msg_nonempty :
  msg_barrier <> EmptyString /\
  (forall t, msg_create t <> EmptyString) /\
  (forall t, msg_join t <> EmptyString).
Proof. repeat split; try intros t; discriminate. Qed.

Ltac fields :=
  cbn [c_main c_targs c_workers c_arrived c_mem c_cerr c_serial
       main_arrived main_inv] in *.

Lemma main_step_inv (c : config) :
  machine_inv r T st c ->
  exists c', main_step r T c = Some c' /\ machine_inv r T st c' /\
    (main_enabled r T c -> steps_left T c' < steps_left T c).
Proof.
  intros Hinv. pose proof Hinv as [Hcommon Hphase].
  pose proof Hcommon as (Hlen & Hpassed & Hfresh & Hsched).
  destruct c as [m tg ws arr mem cerr ser].
  unfold phase_inv in Hphase. simpl in *.
  unfold main_step, main_enabled. fields.
  assert (HT1 : (1 <= T)%Z) by lia.
  destruct m as [b rm t start | | t | code].
  - (* the loop that creates the threads *)
    destruct Hphase as (Hbar & Hser & Hcerr & Htargs & Harr & Hmain).
    fields. destruct Hmain as (-> & -> & Ht & -> & Hcreate).
    assert (Hnone : forall u y, ws !! u = Some y -> passed_b y = false).
    { intros u y Hu. destruct (passed_b y) eqn:Hp; [| reflexivity].
      destruct (Hpassed u y Hu Hp) as (Ha & _).
      pose proof (arrivals_le ws). lia. }
    case_decide as Hlt.
    + subst t. rewrite assign_rows_spec by assumption.
      cbn [mbind option_bind fst snd].
      destruct (partition_lookup T HT1 (length ws) (row_range T (length ws)))
        as [_ Hpart].
      specialize (Hpart ltac:(split; [lia | reflexivity])).
      destruct (create_ok r (Z.of_nat (length ws))) eqn:Hok.
      * eexists. split; [reflexivity |]. split; [split |].
        -- unfold common_inv. simpl. rewrite length_app. simpl. split_and!.
           ++ lia.
           ++ intros u y Hu Hp. exfalso.
              apply lookup_app_Some in Hu as [Hu | [_ Hu]].
              ** rewrite (Hnone u y Hu) in Hp. discriminate.
              ** destruct (u - length ws) as [| k]; simpl in Hu;
                   [| discriminate]. inversion Hu; subst. discriminate.
           ++ intros _. apply Hfresh, Hnone.
           ++ rewrite (pool_of_ext T (ws ++ [WCreated]) ws); [assumption |].
              intros u a Ha. destruct (decide (u < length ws)) as [Hu | Hu].
              ** rewrite lookup_app_l by assumption. reflexivity.
              ** rewrite lookup_app_r by lia. rewrite (lookup_ge_None_2 ws) by lia.
                 destruct (u - length ws) as [| k]; reflexivity.
        -- unfold phase_inv, running_inv. simpl. rewrite length_app. simpl.
           split_and!; try done.
           ++ rewrite Htargs. replace (length ws + 1) with (S (length ws)) by lia.
              rewrite (take_S_r _ _ _ Hpart). reflexivity.
           ++ rewrite arrivals_snoc. assumption.
           ++ lia.
           ++ intros u Hu. destruct (decide (u = Z.of_nat (length ws))) as [-> | Hne];
                [assumption | apply Hcreate; lia].
        -- intros _. unfold steps_left. cbn [c_main c_workers mweight].
           rewrite sum_list_with_app. cbn [sum_list_with wweight].
           rewrite Nat2Z.id.
           replace (Z.to_nat (Z.of_nat (length ws) + 1)) with (S (length ws)) by lia.
           replace (Z.to_nat T - length ws) with (S (Z.to_nat T - S (length ws))) by lia.
           rewrite Nat.mul_succ_l. lia.
      * eexists. split; [reflexivity |]. split; [split |].
        -- unfold common_inv. simpl. split_and!; try done.
           intros u y Hu Hp. rewrite (Hnone u y Hu) in Hp. discriminate.
        -- unfold phase_inv, exit_inv. simpl. right. split_and!; try done.
           ++ right. left. split; [assumption |].
              exists (Z.of_nat (length ws)). split_and!; try done; [lia |].
              rewrite Hcerr. reflexivity.
           ++ intros _. apply Hfresh, Hnone.
        -- intros _. unfold steps_left. cbn [c_main c_workers mweight]. nia.
    + eexists. split; [reflexivity |]. split; [split |].
      * unfold common_inv. simpl. split_and!; try done.
        intros u y Hu Hp. rewrite (Hnone u y Hu) in Hp. discriminate.
      * unfold phase_inv, running_inv. simpl. split_and!; try done.
        -- lia.
        -- lia.
        -- intros u Hu. apply Hcreate. lia.
      * intros _. unfold steps_left. cbn [c_main c_workers mweight].
        replace (Z.to_nat T - Z.to_nat t) with 0 by lia. lia.
  - (* blocked in the barrier, or released *)
    destruct Hphase as (Hbar & Hser & Hcerr & Htargs & Harr & Hmain).
    fields. destruct Hmain as (Hfull & Hcreate).
    rewrite barrier_count_spec.
    case_decide as Hall; [| eexists; split_and!; try done; tauto].
    eexists. split; [reflexivity |]. split; [split |].
    + exact Hcommon.
    + unfold phase_inv, running_inv. simpl. split_and!; try done; try lia.
    + intros _. unfold steps_left. cbn [c_main c_workers mweight]. nia.
  - (* the loop that joins the threads *)
    destruct Hphase as (Hbar & Hser & Hcerr & Htargs & Harr & Hmain).
    fields. destruct Hmain as (Hfull & Ht & Harr' & Hcreate & Hjoin).
    case_decide as Hlt.
    + destruct (join_ok r t) eqn:Hok.
      * unfold index. rewrite decide_True by lia. simpl.
        destruct (ws !! Z.to_nat t) as [x |] eqn:Hw;
          [destruct x as [| | cells |] |];
          try (eexists; split; [reflexivity |]; split; [exact Hinv |];
               intros H; destruct (H Hlt); discriminate).
        eexists. split; [reflexivity |]. split; [split |].
        -- exact Hcommon.
        -- unfold phase_inv, running_inv. simpl. split_and!; try done; try lia.
           intros u Hu. destruct (decide (u = t)) as [-> | Hne];
             [auto | apply Hjoin; lia].
        -- intros _. unfold steps_left. cbn [c_main c_workers mweight].
           replace (Z.to_nat (t + 1)) with (S (Z.to_nat t)) by lia. lia.
      * eexists. split; [reflexivity |]. split; [split |].
        -- exact Hcommon.
        -- unfold phase_inv, exit_inv. simpl. right. split_and!; try done.
           ++ right. right. split; [split; assumption |].
              exists t. split_and!; try done; [lia | apply Hjoin |].
              rewrite Hcerr. reflexivity.
           ++ intros Hno. exfalso. apply Hno. split; assumption.
        -- intros _. unfold steps_left. cbn [c_main c_workers mweight]. nia.
    + rewrite (print_spec mem) by (eapply mem_wf; exact Hsched). simpl.
      assert (Hmem : mem = set_c st (tabulate (cell st))).
      { apply (all_done_product ws); [| assumption].
        intros u Hu. apply Hjoin. lia. }
      eexists. split; [reflexivity |]. split; [split |].
      * exact Hcommon.
      * unfold phase_inv, exit_inv. fields. left.
        split; [reflexivity |].
        split; [split; [split; assumption | intros u Hu; apply Hjoin; lia] |].
        split; [exact Hmem |]. rewrite Hmem. split; [reflexivity | assumption].
      * intros _. unfold steps_left. cbn [c_main c_workers mweight]. nia.
  - eexists. split_and!; done.
Qed.

Lemma worker_step_inv (w : nat) (c : config) :
  machine_inv r T st c ->
  exists c', worker_step T w c = Some c' /\ machine_inv r T st c' /\
    (~ exited c -> worker_enabled T w c -> steps_left T c' < steps_left T c).
Proof.
  intros [Hcommon Hphase]. unfold worker_step.
  destruct (c_main c) as [b rm t start | | t | code] eqn:Hm.
  4: { exists c. split; [reflexivity |]. split; [split; assumption |].
       intros Hne. exfalso. apply Hne. exists code. exact Hm. }
  all: destruct (worker_move_inv w c) as (c' & Hstep & Hmain & Hc' & Hr' & Hdec);
    [rewrite Hm; discriminate | assumption
    | unfold phase_inv in Hphase; rewrite Hm in Hphase; assumption |].
  all: exists c'; split; [assumption |]; split; [| auto].
  all: split; [assumption |]; unfold phase_inv; rewrite Hmain, Hm; assumption.
Qed.

Lemma exec_inv (th : thread) (c : config) :
  machine_inv r T st c ->
  exists c', exec r T th c = Some c' /\ machine_inv r T st c' /\
    (enabled r T th c -> steps_left T c' < steps_left T c).
Proof.
  intros Hinv. destruct th as [| w]; simpl.
  - apply main_step_inv, Hinv.
  - destruct (worker_step_inv w c Hinv) as (c' & Hstep & Hinv' & Hdec).
    exists c'. split; [assumption |]. split; [assumption |].
    intros [Hne Hen]. auto.
Qed.

Lemma run_inv (sched : list thread) (c : config) :
  machine_inv r T st c ->
  exists c', run r T sched c = Some c' /\ machine_inv r T st c'.
Proof.
  revert c. induction sched as [| th rest IH]; intros c Hinv; simpl.
  - exists c. split; [reflexivity | assumption].
  - destruct (exec_inv th c Hinv) as (c1 & -> & Hinv1 & _). simpl.
    apply IH, Hinv1.
Qed.

Lemma pool_of_nil : pool_of T [] = work <$> partition T.
Proof.
  unfold pool_of. apply list_eq. intros i.
  rewrite list_lookup_imap, list_lookup_fmap.
  destruct (partition T !! i); reflexivity.
Qed.

Lemma boot_inv : exists c, boot r T st = Some c /\ machine_inv r T st c.
Proof.
  assert (HT1 : (1 <= T)%Z) by lia.
  pose proof (base_rem T HT1) as (HNeq & Hrem & Hbase).
  assert (Hbase_le : (Z.of_nat DIM / T <= Z.of_nat DIM)%Z) by nia.
  assert (Hcommon : forall m cerr,
            common_inv T st (Config m [] [] 0 st cerr None)).
  { intros m cerr. unfold common_inv. fields. split; [simpl; lia |].
    split; [intros w x Hw; discriminate |]. split; [reflexivity |].
    rewrite pool_of_nil. apply schedule_inv_start;
      [exact st_wf | apply targs_in_bounds]. }
  unfold boot. destruct (barrier_init_ok r) eqn:Hbar.
  - unfold int_div, int_mod. rewrite !decide_False by lia.
    rewrite Z.quot_div_nonneg, Z.rem_mod_nonneg by lia.
    rewrite !int_wrap_id by (unfold is_int, INT_MIN, INT_MAX in *; lia).
    eexists. split; [reflexivity |]. split; [apply Hcommon |].
    unfold phase_inv, running_inv. fields.
    split; [exact Hbar |]. do 7 (split; [reflexivity |]).
    split; [symmetry; apply range_start_0; assumption | intros u Hu; simpl in Hu; lia].
  - eexists. split; [reflexivity |]. split; [apply Hcommon |].
    unfold phase_inv, exit_inv. fields. right.
    split; [reflexivity |]. split; [left; split; [assumption | reflexivity] |].
    split; reflexivity.
Qed.

(** A thread can move as long as [main] has not returned: the barrier
    opens when the last of the [T] workers and [main] arrives, and a
    joined worker is never blocked. *)
Lemma progress (c : config) :
  machine_inv r T st c -> ~ exited c -> exists th, enabled r T th c.
Proof.
  intros [Hcommon Hphase] Hne.
  destruct c as [m tg ws arr mem cerr ser]. unfold phase_inv in Hphase.
  destruct m as [b rm t start | | t | code]; fields.
  - exists Main. exact I.
  - destruct Hphase as (Hbar & Hser & Hcerr & Htargs & Harr & Hfull & Hcreate).
    fields. pose proof (arrivals_le ws) as Hle.
    destruct (decide (arrivals ws = length ws)) as [Heq | Hlt].
    + exists Main. unfold enabled, main_enabled. fields.
      rewrite barrier_count_spec. lia.
    + destruct (arrivals_find ws) as [w Hw]; [lia |].
      exists (Worker w). split; [assumption |].
      unfold worker_enabled. fields. rewrite Hw. exact I.
  - destruct Hphase as (Hbar & Hser & Hcerr & Htargs & Harr & Hfull & Ht &
                        Harr' & Hcreate & Hjoin). fields.
    destruct (decide (t < T)%Z) as [Hlt | Hge];
      [| exists Main; unfold enabled, main_enabled; fields; intros; lia].
    destruct (join_ok r t) eqn:Hok;
      [| exists Main; unfold enabled, main_enabled; fields; intros _; left;
         exact Hok].
    destruct (lookup_lt_is_Some_2 ws (Z.to_nat t)) as [x Hx]; [lia |].
    destruct x as [| | cells |].
    + exists (Worker (Z.to_nat t)). split; [assumption |].
      unfold worker_enabled. fields. rewrite Hx. exact I.
    + exists (Worker (Z.to_nat t)). split; [assumption |].
      unfold worker_enabled. fields. rewrite Hx, barrier_count_spec.
      exact Harr'.
    + exists (Worker (Z.to_nat t)). split; [assumption |].
      unfold worker_enabled. fields. rewrite Hx. exact I.
    + exists Main. unfold enabled, main_enabled. fields. intros _. right.
      exact Hx.
  - exfalso. apply Hne. exists code. reflexivity.
Qed.

Lemma exited_dec (c : config) : exited c \/ ~ exited c.
Proof.
  unfold exited. destruct (c_main c) as [b rm t start | | t | code];
    [right | right | right | left; exists code; reflexivity];
    intros [code Hcode]; discriminate.
Qed.

(** From every configuration some schedule leads [main] to its return. *)
Lemma can_exit (c : config) :
  machine_inv r T st c ->
  exists rest c', length rest <= steps_left T c /\
    run r T rest c = Some c' /\ exited c' /\ machine_inv r T st c'.
Proof.
  remember (steps_left T c) as n eqn:Hn. revert c Hn.
  induction n as [n IH] using lt_wf_ind. intros c Hn Hinv.
  destruct (exited_dec c) as [Hex | Hne].
  - exists [], c. simpl. split; [lia |]. split; [reflexivity |].
    split; assumption.
  - destruct (progress c Hinv Hne) as [th Hen].
    destruct (exec_inv th c Hinv) as (c1 & Hstep & Hinv1 & Hdec).
    specialize (Hdec Hen).
    destruct (IH (steps_left T c1) ltac:(lia) c1 eq_refl Hinv1)
      as (rest & c' & Hlen & Hrun & Hex & Hinv').
    exists (th :: rest), c'. simpl. rewrite Hstep. simpl.
    split; [lia |]. split; [assumption |]. split; assumption.
Qed.

(** Steps of threads that can move are bounded by [steps_left]. *)
Lemma enabled_run_bound (sched : list thread) (c : config) :
  machine_inv r T st c -> enabled_run r T sched c ->
  exists c', run r T sched c = Some c' /\
    length sched + steps_left T c' <= steps_left T c.
Proof.
  revert c. induction sched as [| th rest IH]; intros c Hinv Hen; simpl.
  - exists c. split; [reflexivity | lia].
  - destruct Hen as [Hen Hrest].
    destruct (exec_inv th c Hinv) as (c1 & Hstep & Hinv1 & Hdec).
    rewrite Hstep in Hrest |- *. simpl.
    destruct (IH c1 Hinv1 Hrest) as (c' & Hrun & Hlen).
    exists c'. split; [assumption |]. specialize (Hdec Hen). lia.
Qed.

(** No worker leaves the barrier when a thread cannot be created. *)
Lemma creation_failure_mem (c : config) :
  machine_inv r T st c -> ~ creation_ok r T -> c_mem c = st.
Proof.
  intros [Hcommon Hphase] Hno.
  pose proof Hcommon as (Hlen & Hpassed & Hfresh & Hsched).
  unfold phase_inv in Hphase.
  destruct (c_main c) as [b rm t start | | t | code] eqn:Hm.
  - destruct Hphase as (Hbar & Hser & Hcerr & Htargs & Harr & Hmain).
    rewrite Hm in Hmain. fields.
    destruct Hmain as (_ & _ & Ht & _ & Hcreate).
    apply Hfresh. intros w x Hw. destruct (passed_b x) eqn:Hp; [| reflexivity].
    destruct (Hpassed w x Hw Hp) as (_ & Hall & _).
    exfalso. apply Hno. split; [assumption |].
    intros u Hu. apply Hcreate. lia.
  - destruct Hphase as (Hbar & Hser & Hcerr & Htargs & Harr & Hmain).
    rewrite Hm in Hmain. fields. destruct Hmain as (_ & Hcreate).
    exfalso. apply Hno. split; assumption.
  - destruct Hphase as (Hbar & Hser & Hcerr & Htargs & Harr & Hmain).
    rewrite Hm in Hmain. fields.
    destruct Hmain as (_ & _ & _ & Hcreate & _).
    exfalso. apply Hno. split; assumption.
  - destruct Hphase as [(_ & [Hok _] & _) | (_ & _ & _ & Hmem)];
      [contradiction | auto].
Qed.

(** A failure reported on [cerr] is a call that failed. *)
Lemma failure_report_not_ok (c : config) :
  failure_report r T c -> ~ resources_ok r T.
Proof.
  intros [[Hbar _] | [(_ & t & Ht & Hc & _) | (_ & t & Ht & Hj & _)]]
         [[Hbar' Hcreate] Hjoin].
  - congruence.
  - rewrite Hcreate in Hc by assumption. discriminate.
  - rewrite Hjoin in Hj by assumption. discriminate.
Qed.

End Machine.

(** ** [main] with its threads, from the command line *)

Lemma bind_length {A B : Type} (f : A -> list B) (l : list A) (n : nat) :
  (forall x, length (f x) = n) -> length (l ≫= f) = length l * n.
Proof.
  intros Hf. induction l as [| x l IH]; [reflexivity |].
  change ((x :: l) ≫= f) with (f x ++ (l ≫= f)).
  rewrite length_app, Hf, IH. simpl. lia.
Qed.

Lemma work_length (a : ThreadArgs) :
  length (work a) = Z.to_nat (row_end a - row_start a) * DIM.
Proof.
  unfold work. rewrite (bind_length _ _ DIM).
  - rewrite length_fmap, length_seq. reflexivity.
  - intros x. rewrite length_fmap, length_seq. reflexivity.
Qed.

(** The ranges hold every cell of C once. *)
Lemma total_work_spec (T : Z) :
  (1 <= T <= Z.of_nat DIM)%Z -> total_work T = DIM * DIM.
Proof.
  intros HT. assert (HT1 : (1 <= T)%Z) by lia.
  assert (Hpre : forall n, n <= Z.to_nat T ->
            length (mjoin (work <$> (row_range T <$> seq 0 n)))
            = Z.to_nat (range_start T (Z.of_nat n)) * DIM).
  { induction n as [| n IH]; intros Hn.
    - change (Z.of_nat 0) with 0%Z. rewrite (range_start_0 T HT1).
      reflexivity.
    - rewrite seq_S, !fmap_app, join_app, length_app, IH by lia. simpl.
      rewrite app_nil_r, work_length. simpl.
      pose proof (range_start_mono T HT1 (Z.of_nat n) (Z.of_nat n + 1)
                    ltac:(lia)) as Hmono.
      pose proof (range_start_bounds T HT1 (Z.of_nat n) ltac:(lia)) as Hb.
      rewrite <- Nat.mul_add_distr_r. f_equal.
      replace (Z.of_nat (S n)) with (Z.of_nat n + 1)%Z by lia. lia. }
  unfold total_work, partition. rewrite Hpre by lia.
  rewrite Z2Nat.id by lia. rewrite (range_start_T T HT1). f_equal. lia.
Qed.

Lemma boot_steps (r : resources) (T : Z) (st : state) (c0 : config) :
  boot r T st = Some c0 ->
  steps_left T c0 <= Z.to_nat T * (total_work T + 6) + 3.
Proof.
  unfold boot. destruct (barrier_init_ok r).
  - destruct (int_div (Z.of_nat DIM) T) as [b |]; [| discriminate].
    destruct (int_mod (Z.of_nat DIM) T) as [rm |]; [| discriminate].
    simpl. intros [= <-]. unfold steps_left. simpl. lia.
  - intros [= <-]. unfold steps_left. simpl. lia.
Qed.

Lemma worker_count_range (argv : list string) :
  1 <= DIM -> (1 <= worker_count argv <= Z.of_nat DIM)%Z.
Proof.
  intros H1. pose proof (requested_nthreads_range argv) as HT.
  unfold worker_count. rewrite clamp_nthreads_min. lia.
Qed.

Lemma run_app (r : resources) (T : Z) (s1 s2 : list thread) (c : config) :
  run r T (s1 ++ s2) c = run r T s1 c ≫= run r T s2.
Proof.
  revert c. induction s1 as [| th s1 IH]; intros c; simpl; [reflexivity |].
  destruct (exec r T th c) as [c1 |]; simpl; [apply IH | reflexivity].
Qed.

Lemma main_threads_boot (r : resources) (argv : list string)
    (sched : list thread) (c0 : config) :
  boot r (worker_count argv) initialised = Some c0 ->
  main_threads r argv sched = run r (worker_count argv) sched c0.
Proof.
  intros Hboot. unfold main_threads.
  rewrite init_spec by apply zero_state_wf. simpl.
  fold (worker_count argv). rewrite Hboot. reflexivity.
Qed.

Lemma main_threads_inv (r : resources) (argv : list string)
    (sched : list thread) :
  1 <= DIM -> (Z.of_nat DIM <= INT_MAX)%Z ->
  exists c0 c,
    boot r (worker_count argv) initialised = Some c0 /\
    machine_inv r (worker_count argv) initialised c0 /\
    main_threads r argv sched = Some c /\
    machine_inv r (worker_count argv) initialised c.
Proof.
  intros H1 HN. pose proof (worker_count_range argv H1) as HT.
  destruct (boot_inv r (worker_count argv) initialised initialised_wf HT HN)
    as (c0 & Hboot & Hinv0).
  destruct (run_inv r (worker_count argv) initialised initialised_wf HT HN
              sched c0 Hinv0) as (c & Hrun & Hinv).
  exists c0, c. split_and!; try assumption.
  rewrite (main_threads_boot r argv sched c0 Hboot). exact Hrun.
Qed.

(** ** Further properties of the functions *)

(** X1. [multiply] recomputes every cell of C from A and the transposed
    copy alone: what C and B held before does not matter, the operands are
    left as they were, and a second run changes nothing. *)
Theorem multiply_overwrites (st st' : state) :
  wf st -> wf st' ->
  matrix_a st' = matrix_a st -> matrix_b_t st' = matrix_b_t st ->
  exists s s',
    multiply st = Some s /\ multiply st' = Some s' /\
    matrix_c s' = matrix_c s /\
    matrix_a s = matrix_a st /\ matrix_b s = matrix_b st /\
    matrix_b_t s = matrix_b_t st /\
    multiply s = Some s.
Proof.
  intros Hwf Hwf' Ha Hbt.
  assert (Hwf2 : wf (set_c st (tabulate (cell st)))).
  { destruct Hwf as (HA & HB & HBT & _). unfold wf. simpl.
    split_and!; try assumption. apply tabulate_square. }
  exists (set_c st (tabulate (cell st))), (set_c st' (tabulate (cell st'))).
  split; [apply multiply_spec, Hwf |]. split; [apply multiply_spec, Hwf' |].
  split; [simpl; unfold cell; rewrite Ha, Hbt; reflexivity |].
  do 3 (split; [reflexivity |]).
  rewrite (multiply_spec _ Hwf2). reflexivity.
Qed.

(** X2. A worker runs to its end exactly when its range is empty or lies
    within the rows of the matrices; a range that reaches outside is an
    access outside the arrays.  An empty range, wherever it is, leaves the
    memory as it was. *)
Theorem multiply_range_bounds (st : state) (a : ThreadArgs) :
  wf st ->
  (is_Some (multiply_range a st) <-> in_bounds a) /\
  ((row_end a <= row_start a)%Z -> multiply_range a st = Some st).
Proof.
  intros Hwf. split; [apply multiply_range_defined, Hwf |].
  intros Hempty. unfold multiply_range, for_range.
  replace (Z.to_nat (row_end a - row_start a)) with 0 by lia. reflexivity.
Qed.

(** X3. Workers over ranges within the matrix, even ranges that overlap,
    all run to their end, and the memory they leave does not depend on the
    order in which they run. *)
Theorem workers_order_irrelevant (st : state) (targs targs' : list ThreadArgs) :
  wf st -> Forall in_bounds targs -> targs ≡ₚ targs' ->
  exists s, run_workers targs st = Some s /\ run_workers targs' st = Some s.
Proof.
  intros Hwf Hb Hperm. eexists. split; [apply run_workers_spec; assumption |].
  rewrite <- (run_workers_Permutation st targs targs' Hwf Hb Hperm).
  apply run_workers_spec; assumption.
Qed.

(** X4. For a dimension up to [2 ^ 30] the sums and differences of [init]
    do not overflow an [int]: A holds [i + j] at [(i, j)], B holds [i - j]
    and the transposed copy [j - i]; [init] run again gives the same
    memory. *)
Theorem init_operands (st : state) :
  wf st -> (Z.of_nat DIM <= 2 ^ 30)%Z ->
  exists s,
    init st = Some s /\ init s = Some s /\
    forall i j, i < DIM -> j < DIM ->
      load (matrix_a s) i j = Some (Z.of_nat i + Z.of_nat j)%Z /\
      load (matrix_b s) i j = Some (Z.of_nat i - Z.of_nat j)%Z /\
      load (matrix_b_t s) i j = Some (Z.of_nat j - Z.of_nat i)%Z.
Proof.
  intros Hwf HN. exists initialised.
  split; [apply init_spec, Hwf |]. split; [apply init_spec, initialised_wf |].
  intros i j Hi Hj. unfold initialised, transpose. simpl.
  rewrite !load_tabulate by assumption.
  rewrite entry_tabulate by assumption.
  unfold a_value, b_value, int_add, int_sub.
  rewrite !int_wrap_id by (unfold is_int, INT_MIN, INT_MAX; lia).
  split_and!; reflexivity.
Qed.


(** X6. [print] writes the cells of C in row-major order, one decimal
    number per line: the file has [DIM * DIM] lines and line
    [i * DIM + j] is the text of [C[i][j]]. *)
Theorem print_layout (st : state) :
  wf st -> Forall is_long (mjoin (matrix_c st)) ->
  exists out,
    print st = Some out /\
    length (split_lines out "") = DIM * DIM /\
    forall i j, i < DIM -> j < DIM ->
      split_lines out "" !! (i * DIM + j)
      = format_long <$> load (matrix_c st) i j.
Proof.
  intros Hwf Hlong. exists (dump (mjoin (matrix_c st))).
  destruct Hwf as (HA & HB & HBT & HC).
  split; [apply print_spec; unfold wf; auto |].
  rewrite dump_lines by assumption. split.
  - rewrite length_fmap. apply join_length, HC.
  - intros i j Hi Hj. rewrite list_lookup_fmap.
    rewrite join_lookup by (apply HC || assumption). reflexivity.
Qed.

(** X7. The file [print] writes holds C: read line by line as decimal
    numbers it gives back the cells of C, row after row. *)
Theorem print_round_trip (st : state) :
  wf st -> Forall is_long (mjoin (matrix_c st)) ->
  exists out, print st = Some out /\ parse_dump out = mjoin (matrix_c st).
Proof.
  intros Hwf Hlong. exists (dump (mjoin (matrix_c st))).
  split; [apply print_spec, Hwf | apply dump_parse, Hlong].
Qed.

(** X8. For a dimension from 1 up to [2 ^ 21 - 1] the operation counts of
    the report do not wrap around in [uint64_t]: they are [3 * DIM ^ 2],
    [DIM ^ 3] twice, their sum [2 * DIM ^ 3], and [DIM ^ 2]; none of the
    three divisors of the times per operation is 0. *)
Theorem operation_counts :
  1 <= DIM -> (Z.of_nat DIM < 2 ^ 21)%Z ->
  init_ops = (3 * (Z.of_nat DIM * Z.of_nat DIM))%Z /\
  mul_ops = (Z.of_nat DIM * Z.of_nat DIM * Z.of_nat DIM)%Z /\
  add_ops = mul_ops /\
  mult_total_ops = (2 * (Z.of_nat DIM * Z.of_nat DIM * Z.of_nat DIM))%Z /\
  print_ops = (Z.of_nat DIM * Z.of_nat DIM)%Z /\
  (0 < init_ops)%Z /\ (0 < mult_total_ops)%Z /\ (0 < print_ops)%Z.
Proof.
  intros H1 HN.
  destruct (op_counts (Z.of_nat DIM) ltac:(lia)) as [H2 H3].
  assert (Hsq : (1 <= Z.of_nat DIM * Z.of_nat DIM)%Z) by nia.
  assert (Hcu : (1 <= Z.of_nat DIM * Z.of_nat DIM * Z.of_nat DIM)%Z) by nia.
  assert (Hi : init_ops = (3 * (Z.of_nat DIM * Z.of_nat DIM))%Z).
  { unfold init_ops, u64_mul, u64_wrap.
    rewrite (Z.mod_small (Z.of_nat DIM * Z.of_nat DIM)) by lia.
    rewrite Z.mod_small by lia. lia. }
  assert (Hm : mul_ops = (Z.of_nat DIM * Z.of_nat DIM * Z.of_nat DIM)%Z).
  { unfold mul_ops, u64_mul, u64_wrap.
    rewrite (Z.mod_small (Z.of_nat DIM * Z.of_nat DIM)) by lia.
    apply Z.mod_small. lia. }
  assert (Ht : mult_total_ops
               = (2 * (Z.of_nat DIM * Z.of_nat DIM * Z.of_nat DIM))%Z).
  { unfold mult_total_ops, add_ops, u64_add, u64_wrap. rewrite Hm.
    rewrite Z.mod_small by lia. lia. }
  assert (Hp : print_ops = (Z.of_nat DIM * Z.of_nat DIM)%Z).
  { unfold print_ops, u64_mul, u64_wrap. apply Z.mod_small. lia. }
  rewrite Hi, Ht, Hp. split_and!; try reflexivity; try assumption; lia.
Qed.

(** X9. When [>=] is total and transitive on the three durations, as it
    is on numbers, the part reported as the bottleneck took at least as
    long as each of the three parts. *)
Theorem bottleneck_maximal {time : Type} (ge : time -> time -> bool)
    (init_sec mult_sec print_sec : time) :
  (forall x y, ge x y = true \/ ge y x = true) ->
  (forall x y z, ge x y = true -> ge y z = true -> ge x z = true) ->
  let worst :=
    phase_time init_sec mult_sec print_sec
      (bottleneck ge init_sec mult_sec print_sec) in
  ge worst init_sec = true /\ ge worst mult_sec = true /\
  ge worst print_sec = true.
Proof.
  intros Htotal Htrans. unfold bottleneck.
  assert (Hrefl : forall x, ge x x = true) by (intros x; destruct (Htotal x x); assumption).
  destruct (ge mult_sec init_sec) eqn:Hmi;
    destruct (ge mult_sec print_sec) eqn:Hmp; simpl.
  - split_and!; auto.
  - assert (Hpm : ge print_sec mult_sec = true)
      by (destruct (Htotal print_sec mult_sec); congruence).
    destruct (ge init_sec mult_sec) eqn:Him;
      destruct (ge init_sec print_sec) eqn:Hip; simpl; split_and!; eauto.
  - assert (Him : ge init_sec mult_sec = true)
      by (destruct (Htotal init_sec mult_sec); congruence).
    rewrite Him. simpl.
    destruct (ge init_sec print_sec) eqn:Hip; simpl; [split_and!; eauto |].
    assert (Hpi : ge print_sec init_sec = true)
      by (destruct (Htotal print_sec init_sec); congruence).
    split_and!; eauto.
  - assert (Him : ge init_sec mult_sec = true)
      by (destruct (Htotal init_sec mult_sec); congruence).
    assert (Hpm : ge print_sec mult_sec = true)
      by (destruct (Htotal print_sec mult_sec); congruence).
    rewrite Him. simpl.
    destruct (ge init_sec print_sec) eqn:Hip; simpl; [split_and!; eauto |].
    assert (Hpi : ge print_sec init_sec = true)
      by (destruct (Htotal print_sec init_sec); congruence).
    split_and!; eauto.
Qed.

(** ** Properties of the threads

    In what follows [r] says which of the calls [pthread_barrier_init],
    [pthread_create] and [pthread_join] succeed, [argv] is the command
    line and [sched] the order in which the threads take their steps. *)

(** X10. Under every schedule the run raises no error, and the barrier
    holds the workers back: as long as no worker has left the barrier the
    memory is as [init] left it; and once a worker has left it, all the
    threads of the worker count have been created with the ranges [main]
    makes for them, and all of them and [main] have reached the barrier. *)
Theorem barrier_safety (r : resources) (argv : list string)
    (sched : list thread) :
  1 <= DIM -> (Z.of_nat DIM <= INT_MAX)%Z ->
  exists c,
    main_threads r argv sched = Some c /\
    ((forall w x, c_workers c !! w = Some x -> passed_b x = false) ->
       init zero_state = Some (c_mem c)) /\
    (forall w x, c_workers c !! w = Some x -> passed_b x = true ->
       c_arrived c = (worker_count argv + 1)%Z /\
       length (c_workers c) = Z.to_nat (worker_count argv) /\
       make_targs (worker_count argv) = Some (c_targs c)).
Proof.
  intros H1 HN. pose proof (worker_count_range argv H1) as HT.
  destruct (main_threads_inv r argv sched H1 HN)
    as (c0 & c & _ & _ & Hrun & (_ & Hpassed & Hfresh & _) & _).
  exists c. split; [assumption |]. split.
  - intros Hnone. rewrite (Hfresh Hnone). apply init_spec, zero_state_wf.
  - intros w x Hw Hx. destruct (Hpassed w x Hw Hx) as (Ha & Hl & Htargs).
    rewrite Htargs. split_and!; try assumption.
    apply make_targs_spec; lia.
Qed.

(** X11. [main] returns 0 or 1, and it returns 0 exactly when the barrier
    could be initialised and every thread could be created and joined. *)
Theorem exit_code_zero_iff (r : resources) (argv : list string)
    (sched : list thread) :
  1 <= DIM -> (Z.of_nat DIM <= INT_MAX)%Z ->
  exists c,
    main_threads r argv sched = Some c /\
    forall code, c_main c = MExit code ->
      (code = 0%Z \/ code = 1%Z) /\
      (code = 0%Z <-> resources_ok r (worker_count argv)).
Proof.
  intros H1 HN.
  destruct (main_threads_inv r argv sched H1 HN)
    as (c0 & c & _ & _ & Hrun & _ & Hphase).
  exists c. split; [assumption |]. intros code Hcode.
  unfold phase_inv in Hphase. rewrite Hcode in Hphase.
  destruct Hphase as [(-> & Hok & _) | (-> & Hrep & _)].
  - split; [left; reflexivity | tauto].
  - split; [right; reflexivity |]. split; [discriminate |].
    intros Hok. exfalso. exact (failure_report_not_ok _ _ _ Hrep Hok).
Qed.

(** X12. When [main] returns 0, whatever the schedule and the worker
    count, the memory and the file [serial.txt] are those of the serial
    program, [init] then [multiply] then [print], and nothing was written
    to [cerr]. *)
Theorem successful_run_output (r : resources) (argv : list string)
    (sched : list thread) :
  1 <= DIM -> (Z.of_nat DIM <= INT_MAX)%Z ->
  exists c,
    main_threads r argv sched = Some c /\
    (c_main c = MExit 0 ->
     exists out,
       (init zero_state ≫= multiply) = Some (c_mem c) /\
       print (c_mem c) = Some out /\
       c_serial c = Some out /\ c_cerr c = EmptyString).
Proof.
  intros H1 HN.
  destruct (main_threads_inv r argv sched H1 HN)
    as (c0 & c & _ & _ & Hrun & _ & Hphase).
  exists c. split; [assumption |]. intros Hcode.
  unfold phase_inv in Hphase. rewrite Hcode in Hphase.
  destruct Hphase as [(_ & _ & Hmem & Hser & Hcerr) | (Hone & _)];
    [| discriminate].
  assert (Hwf : wf (set_c initialised (tabulate (cell initialised)))).
  { destruct initialised_wf as (HA & HB & HBT & _). unfold wf. simpl.
    split_and!; try assumption. apply tabulate_square. }
  exists (dump (mjoin (tabulate (cell initialised)))). rewrite Hmem.
  split_and!; try assumption.
  - rewrite init_spec by apply zero_state_wf. simpl.
    apply multiply_spec, initialised_wf.
  - rewrite (print_spec _ Hwf). reflexivity.
Qed.

(** X13. When [main] returns 1, [serial.txt] has not been written and
    [cerr] holds one message, that of the first call that failed: the
    barrier, else the first thread that could not be created, else the
    first thread that could not be joined. *)
Theorem failed_run_report (r : resources) (argv : list string)
    (sched : list thread) :
  1 <= DIM -> (Z.of_nat DIM <= INT_MAX)%Z ->
  exists c,
    main_threads r argv sched = Some c /\
    (c_main c = MExit 1 ->
     c_serial c = None /\
     ((barrier_init_ok r = false /\ c_cerr c = msg_barrier) \/
      (barrier_init_ok r = true /\
       exists t, (0 <= t < worker_count argv)%Z /\ create_ok r t = false /\
         (forall u, (0 <= u < t)%Z -> create_ok r u = true) /\
         c_cerr c = msg_create t) \/
      (creation_ok r (worker_count argv) /\
       exists t, (0 <= t < worker_count argv)%Z /\ join_ok r t = false /\
         (forall u, (0 <= u < t)%Z -> join_ok r u = true) /\
         c_cerr c = msg_join t))).
Proof.
  intros H1 HN.
  destruct (main_threads_inv r argv sched H1 HN)
    as (c0 & c & _ & _ & Hrun & _ & Hphase).
  exists c. split; [assumption |]. intros Hcode.
  unfold phase_inv in Hphase. rewrite Hcode in Hphase.
  destruct Hphase as [(Hzero & _) | (_ & Hrep & Hser & _)]; [discriminate |].
  split; [assumption | exact Hrep].
Qed.

(** X14. When the barrier cannot be initialised or one of the threads
    cannot be created, no cell of C is ever written and [serial.txt] is
    never written: at every point of every schedule the memory is as
    [init] left it. *)
Theorem creation_failure_no_write (r : resources) (argv : list string)
    (sched : list thread) :
  1 <= DIM -> (Z.of_nat DIM <= INT_MAX)%Z ->
  ~ creation_ok r (worker_count argv) ->
  exists c,
    main_threads r argv sched = Some c /\
    init zero_state = Some (c_mem c) /\ c_serial c = None.
Proof.
  intros H1 HN Hno. pose proof (worker_count_range argv H1) as HT.
  destruct (main_threads_inv r argv sched H1 HN)
    as (c0 & c & _ & _ & Hrun & Hinv).
  exists c. split; [assumption |]. split.
  - rewrite (creation_failure_mem r _ initialised HT c Hinv Hno).
    apply init_spec, zero_state_wf.
  - destruct Hinv as [_ Hphase]. unfold phase_inv in Hphase.
    destruct (c_main c) as [b rm t start | | t | code];
      try (destruct Hphase as (_ & Hser & _); exact Hser).
    destruct Hphase as [(_ & [Hok _] & _) | (_ & _ & Hser & _)];
      [contradiction | assumption].
Qed.

(** X15. No schedule ends in a deadlock: as long as [main] has not
    returned, some thread is neither blocked in the barrier nor in a join,
    and its next step changes the configuration. *)
Theorem no_deadlock (r : resources) (argv : list string)
    (sched : list thread) :
  1 <= DIM -> (Z.of_nat DIM <= INT_MAX)%Z ->
  exists c,
    main_threads r argv sched = Some c /\
    (~ exited c ->
     exists th c',
       enabled r (worker_count argv) th c /\
       exec r (worker_count argv) th c = Some c' /\ c' <> c).
Proof.
  intros H1 HN. pose proof (worker_count_range argv H1) as HT.
  destruct (main_threads_inv r argv sched H1 HN)
    as (c0 & c & _ & _ & Hrun & Hinv).
  exists c. split; [assumption |]. intros Hne.
  destruct (progress r _ initialised HT HN c Hinv Hne) as [th Hen].
  destruct (exec_inv r _ initialised initialised_wf HT HN th c Hinv)
    as (c' & Hstep & _ & Hdec).
  exists th, c'. split; [assumption |]. split; [assumption |].
  intros ->. specialize (Hdec Hen). lia.
Qed.

(** X16. Every schedule can be continued so that [main] returns. *)
Theorem threads_terminate (r : resources) (argv : list string)
    (sched : list thread) :
  1 <= DIM -> (Z.of_nat DIM <= INT_MAX)%Z ->
  exists rest c,
    main_threads r argv (sched ++ rest) = Some c /\ exited c.
Proof.
  intros H1 HN. pose proof (worker_count_range argv H1) as HT.
  destruct (main_threads_inv r argv sched H1 HN)
    as (c0 & c & Hboot & _ & Hrun & Hinv).
  destruct (can_exit r _ initialised initialised_wf HT HN c Hinv)
    as (rest & c' & _ & Hrest & Hex & _).
  exists rest, c'. split; [| assumption].
  rewrite (main_threads_boot r argv _ c0 Hboot), run_app.
  rewrite <- (main_threads_boot r argv sched c0 Hboot), Hrun. exact Hrest.
Qed.

(** X17. The threads cannot run for ever: a schedule in which every step
    is taken by a thread that is not blocked has at most
    [T * (DIM * DIM + 6) + 3] steps, [T] being the worker count. *)
Theorem enabled_steps_bounded (r : resources) (argv : list string)
    (sched : list thread) :
  1 <= DIM -> (Z.of_nat DIM <= INT_MAX)%Z ->
  exists c0,
    boot r (worker_count argv) initialised = Some c0 /\
    (enabled_run r (worker_count argv) sched c0 ->
     length sched <= Z.to_nat (worker_count argv) * (DIM * DIM + 6) + 3).
Proof.
  intros H1 HN. pose proof (worker_count_range argv H1) as HT.
  destruct (main_threads_inv r argv sched H1 HN)
    as (c0 & c & Hboot & Hinv0 & Hrun & Hinv).
  exists c0. split; [assumption |]. intros Hen.
  destruct (enabled_run_bound r _ initialised initialised_wf HT HN sched c0
              Hinv0 Hen) as (c' & _ & Hlen).
  pose proof (boot_steps r _ initialised c0 Hboot) as Hsteps.
  rewrite (total_work_spec _ HT) in Hsteps. lia.
Qed.

End Program.

(** * The scenario of dimension 4 *)

(** C4. With A[i][j] = i + j, B[i][j] = i - j and dimension 4, the run of
    [main], for any argument, ends with C[0][0] = 14 and C[1][1] = 10; so
    does the serial [multiply] after [init]. *)
Theorem scenario_dim4 (unrepresentable : string -> Z) (argv : list string) :
  exists s,
    main 4 unrepresentable argv = Some s /\
    (init 4 (zero_state 4) ≫= multiply 4) = Some s /\
    matrix_a s = [[0; 1; 2; 3]; [1; 2; 3; 4]; [2; 3; 4; 5]; [3; 4; 5; 6]]%Z /\
    matrix_b s = [[0; -1; -2; -3]; [1; 0; -1; -2]; [2; 1; 0; -1]; [3; 2; 1; 0]]%Z /\
    load (matrix_c s) 0 0 = Some 14%Z /\
    load (matrix_c s) 1 1 = Some 10%Z.
Proof.
  eexists. split; [apply main_spec; [lia | unfold INT_MAX; lia] |].
  split_and!; vm_compute; reflexivity.
Qed.

(** * Instances *)

Lemma example_state_wf : wf 2 example_state.
Proof. unfold wf, square. simpl. repeat split; repeat constructor. Qed.

Lemma example_state_transposed :
  transposed 2 (matrix_b example_state) (matrix_b_t example_state).
Proof.
  intros i j Hi Hj.
  destruct i as [| [| i]]; destruct j as [| [| j]]; try lia; reflexivity.
Qed.

Lemma overflow_state_wf : wf 1 overflow_state.
Proof. unfold wf, square. simpl. repeat split; repeat constructor. Qed.

(** Dimension 2, two workers, on [example_state]. *)
Lemma partitioned_product_correct_witness :
  (Z.of_nat 2 <= INT_MAX)%Z /\ wf 2 example_state /\
  transposed 2 (matrix_b example_state) (matrix_b_t example_state) /\
  (1 <= 2 <= Z.of_nat 2)%Z /\
  exists targs s,
    make_targs 2 2 = Some targs /\ run_workers 2 targs example_state = Some s /\
    load (matrix_c s) 0 0 = Some 19%Z /\ load (matrix_c s) 0 1 = Some 22%Z /\
    load (matrix_c s) 1 0 = Some 43%Z /\ load (matrix_c s) 1 1 = Some 50%Z.
Proof.
  assert (H1 : (Z.of_nat 2 <= INT_MAX)%Z) by (unfold INT_MAX; simpl; lia).
  assert (H4 : (1 <= 2 <= Z.of_nat 2)%Z) by (simpl; lia).
  destruct (partitioned_product_correct 2 example_state 2 H1 example_state_wf
              example_state_transposed H4)
    as (targs & s & Hmk & Hrun & _ & _ & Hcells & _).
  split; [exact H1 |]. split; [apply example_state_wf |].
  split; [apply example_state_transposed |]. split; [exact H4 |].
  exists targs, s. split_and!; try assumption.
  - destruct (Hcells 0 0) as [H _]; [lia | lia |]. rewrite H. reflexivity.
  - destruct (Hcells 0 1) as [H _]; [lia | lia |]. rewrite H. reflexivity.
  - destruct (Hcells 1 0) as [H _]; [lia | lia |]. rewrite H. reflexivity.
  - destruct (Hcells 1 1) as [H _]; [lia | lia |]. rewrite H. reflexivity.
Defined.

(** Ten rows for four workers: sizes 3, 3, 2, 2. *)
Lemma partition_ranges_correct_witness :
  (Z.of_nat 10 <= INT_MAX)%Z /\ (1 <= 4 <= Z.of_nat 10)%Z /\
  exists targs,
    make_targs 10 4 = Some targs /\ length targs = 4 /\
    chain 0 targs 10 /\ (forall r, r < 10 -> owners targs r = 1) /\
    targs = [MkArgs 0 3; MkArgs 3 6; MkArgs 6 8; MkArgs 8 10].
Proof.
  assert (H1 : (Z.of_nat 10 <= INT_MAX)%Z) by (unfold INT_MAX; simpl; lia).
  assert (H2 : (1 <= 4 <= Z.of_nat 10)%Z) by (simpl; lia).
  destruct (partition_ranges_correct 10 4 H1 H2)
    as (targs & Hmk & Hlen & Hchain & Hown & _).
  split; [exact H1 |]. split; [exact H2 |].
  exists targs. split_and!; try assumption.
  vm_compute in Hmk. congruence.
Defined.

(** [init] at dimension 3, from the zero-initialised globals. *)
Lemma init_layout_witness :
  wf 3 (zero_state 3) /\
  exists s,
    init 3 (zero_state 3) = Some s /\
    load (matrix_b_t s) 2 0 = load (matrix_b s) 0 2 /\
    load (matrix_b s) 0 2 = Some (-2)%Z /\
    matrix_c s = [[0; 0; 0]; [0; 0; 0]; [0; 0; 0]]%Z.
Proof.
  destruct (init_layout 3 (zero_state 3) (zero_state_wf 3))
    as (s & Hinit & Hbt & _ & Hc).
  split; [apply zero_state_wf |].
  exists s. split_and!; try assumption.
  - destruct (Hbt 0 2) as (v & Hb & Hv); [lia | lia |]. congruence.
  - vm_compute in Hinit. inversion Hinit. reflexivity.
Defined.

(** One row and four workers requested: one worker, one row. *)
Lemma clamp_no_empty_range_witness :
  1 <= 1 /\ (Z.of_nat 1 <= INT_MAX)%Z /\ (1 <= 4)%Z /\
  clamp_nthreads 1 4 = 1%Z /\
  exists targs,
    make_targs 1 (clamp_nthreads 1 4) = Some targs /\ length targs = 1 /\
    Forall (fun a => (row_start a < row_end a)%Z) targs.
Proof.
  assert (H1 : 1 <= 1) by lia.
  assert (H2 : (Z.of_nat 1 <= INT_MAX)%Z) by (unfold INT_MAX; simpl; lia).
  assert (H3 : (1 <= 4)%Z) by lia.
  destruct (clamp_no_empty_range 1 glibc_unrepresentable 4 H1 H2)
    as (Hmin & Hranges & _).
  destruct (Hranges H3) as (targs & Hmk & Hlen & Hne).
  split; [exact H1 |]. split; [exact H2 |]. split; [exact H3 |].
  split; [reflexivity |].
  exists targs. split_and!; assumption.
Defined.

(** The argument [-3] at dimension 4. *)
Lemma default_nthreads_witness :
  1 <= 4 /\ (Z.of_nat 4 <= INT_MAX)%Z /\
  (atoi glibc_unrepresentable "-3" <= 0)%Z /\
  requested_nthreads glibc_unrepresentable ["matrix"; "-3"] = 4%Z /\
  exists s, main 4 glibc_unrepresentable ["matrix"; "-3"] = Some s.
Proof.
  assert (H1 : 1 <= 4) by lia.
  assert (H2 : (Z.of_nat 4 <= INT_MAX)%Z) by (unfold INT_MAX; simpl; lia).
  assert (H3 : (atoi glibc_unrepresentable "-3" <= 0)%Z).
  { change (atoi glibc_unrepresentable "-3") with (-3)%Z. lia. }
  destruct (default_nthreads 4 glibc_unrepresentable ["matrix"; "-3"] H1 H2)
    as (Hdef & _ & _ & Hrun).
  split; [exact H1 |]. split; [exact H2 |]. split; [exact H3 |].
  split; [| exact Hrun].
  apply Hdef. right. exists "-3". split; [reflexivity |]. left. exact H3.
Defined.

(** Dimension 1 with [2 ^ 62 * 2]: the cell receives [- 2 ^ 63]. *)
Lemma accumulator_wraps_witness :
  wf 1 overflow_state /\ in_bounds 1 (MkArgs 0 1) /\
  in_range (MkArgs 0 1) 0 = true /\ 0 < 1 /\
  dot 1 (matrix_a overflow_state) (matrix_b_t overflow_state) 0 0 = (2 ^ 63)%Z /\
  exists s,
    multiply_range 1 (MkArgs 0 1) overflow_state = Some s /\
    load (matrix_c s) 0 0 = Some (- 2 ^ 63)%Z.
Proof.
  assert (H2 : in_bounds 1 (MkArgs 0 1)) by (unfold in_bounds; simpl; lia).
  assert (H3 : in_range (MkArgs 0 1) 0 = true) by reflexivity.
  assert (H4 : 0 < 1) by lia.
  destruct (accumulator_wraps 1 overflow_state (MkArgs 0 1) 0 0
              overflow_state_wf H2 H3 H4) as (s & v & Hrun & Hload & _ & Hv & _).
  split; [apply overflow_state_wf |]. split; [exact H2 |].
  split; [exact H3 |]. split; [exact H4 |]. split; [reflexivity |].
  exists s. split; [assumption |]. rewrite Hload, Hv. reflexivity.
Defined.

(** The worker of row 1 leaves row 0 of C as it was. *)
Lemma multiply_range_frame_witness :
  wf 2 example_state /\ in_bounds 2 (MkArgs 1 2) /\
  exists s,
    multiply_range 2 (MkArgs 1 2) example_state = Some s /\
    matrix_a s = matrix_a example_state /\
    matrix_b_t s = matrix_b_t example_state /\
    matrix_c s !! 0 = Some [9; 9]%Z /\
    matrix_c s !! 1 = Some [43; 50]%Z.
Proof.
  assert (H2 : in_bounds 2 (MkArgs 1 2)) by (unfold in_bounds; simpl; lia).
  destruct (multiply_range_frame 2 example_state (MkArgs 1 2)
              example_state_wf H2) as (s & Hrun & Ha & _ & Hbt & Hc).
  split; [apply example_state_wf |]. split; [exact H2 |].
  exists s. split_and!; try assumption.
  - rewrite (Hc 0) by reflexivity. reflexivity.
  - vm_compute in Hrun. inversion Hrun. reflexivity.
Defined.

Lemma swapped_ranges_partition : row_partition 2 [MkArgs 1 2; MkArgs 0 1].
Proof.
  split.
  - repeat constructor; unfold in_bounds; simpl; lia.
  - intros r Hr. destruct r as [| [| r]]; try lia; reflexivity.
Qed.

(** The two rows handed out in reverse order. *)
Lemma serial_partitioned_equiv_witness :
  wf 2 example_state /\ row_partition 2 [MkArgs 1 2; MkArgs 0 1] /\
  exists s,
    multiply 2 example_state = Some s /\
    run_workers 2 [MkArgs 1 2; MkArgs 0 1] example_state = Some s /\
    matrix_c s = [[19; 22]; [43; 50]]%Z.
Proof.
  destruct (serial_partitioned_equiv 2 example_state [MkArgs 1 2; MkArgs 0 1]
              example_state_wf swapped_ranges_partition) as (s & Hser & Hpar).
  split; [apply example_state_wf |]. split; [apply swapped_ranges_partition |].
  exists s. split_and!; try assumption.
  vm_compute in Hser. inversion Hser. reflexivity.
Defined.

(** The value of a numeric prefix is not always the worker count: no
    [int] holds 4294967297, and with glibc the argument [4294967297abc]
    asks for one worker. *)
Lemma numeric_prefix_too_large :
  all_digits "4294967297" = true /\ starts_with_digit "abc" = false /\
  digits 0 "4294967297" = 4294967297%Z /\
  requested_nthreads glibc_unrepresentable ["matrix"; "4294967297" +:+ "abc"]
    = 1%Z /\
  requested_nthreads glibc_unrepresentable ["matrix"; "4294967297" +:+ "abc"]
    <> digits 0 "4294967297".
Proof. split_and!; try reflexivity. vm_compute. discriminate. Qed.

(** Whatever the library does with such a number, the count is an [int]
    and cannot be the value of the prefix. *)
Lemma numeric_prefix_never_too_large (unrepresentable : string -> Z) :
  requested_nthreads unrepresentable ["matrix"; "4294967297abc"]
    <> digits 0 "4294967297".
Proof.
  pose proof (requested_nthreads_range unrepresentable
                ["matrix"; "4294967297abc"]) as [_ H].
  assert (Hd : digits 0 "4294967297" = 4294967297%Z) by reflexivity.
  rewrite Hd. unfold INT_MAX in H. lia.
Qed.

(** A prefix above the dimension is requested as it stands and clamped on
    line 106 like any other count. *)
Example numeric_prefix_clamped :
  requested_nthreads glibc_unrepresentable ["matrix"; "5000abc"] = 5000%Z /\
  clamp_nthreads DIM_src
    (requested_nthreads glibc_unrepresentable ["matrix"; "5000abc"]) = 1000%Z.
Proof. split; reflexivity. Qed.

(** The argument [7abc] asks for seven workers. *)
Lemma numeric_prefix_nthreads_witness :
  "7" <> EmptyString /\ all_digits "7" = true /\
  starts_with_digit "abc" = false /\ (digits 0 "7" <= INT_MAX)%Z /\
  requested_nthreads glibc_unrepresentable ["matrix"; "7abc"] = 7%Z.
Proof.
  assert (H1 : "7" <> EmptyString) by discriminate.
  assert (H2 : all_digits "7" = true) by reflexivity.
  assert (H3 : starts_with_digit "abc" = false) by reflexivity.
  assert (H4 : (digits 0 "7" <= INT_MAX)%Z) by (vm_compute; discriminate).
  destruct (numeric_prefix_nthreads glibc_unrepresentable "matrix" "7" "abc"
              H1 H2 H3 H4) as [Hreq _].
  split; [exact H1 |]. split; [exact H2 |]. split; [exact H3 |].
  split; [exact H4 |]. exact Hreq.
Defined.

(** With the dimension of the source, C[0][0] and C[1][1] of the run. *)
Example source_dimension_cells (unrepresentable : string -> Z) (argv : list string) :
  exists s,
    main DIM_src unrepresentable argv = Some s /\
    load (matrix_c s) 0 0 = Some 332833500%Z /\
    load (matrix_c s) 1 1 = Some 332832500%Z.
Proof.
  destruct (main_product_exact DIM_src unrepresentable argv) as (s & Hs & Hcells);
    [unfold DIM_src; lia | unfold DIM_src; vm_compute; discriminate |].
  exists s. split; [exact Hs |].
  split; rewrite Hcells by (unfold DIM_src; lia); vm_compute; reflexivity.
Qed.

(** Two workers of dimension 2 whose stores alternate. *)
Example interleaved_example :
  run_schedule 2 [1; 0; 0; 1] (work 2 <$> [MkArgs 0 1; MkArgs 1 2]) example_state
  = Some ([[]; []], set_c example_state [[19; 22]; [43; 50]]%Z).
Proof. reflexivity. Qed.

(** * Instances of the further properties *)

Lemma example_state_other_wf : wf 2 example_state_other.
Proof. unfold wf, square. simpl. repeat split; repeat constructor. Qed.

Lemma example_state_long : Forall is_long (mjoin (matrix_c example_state)).
Proof. repeat constructor; vm_compute; discriminate. Qed.

(** The same A and transposed copy, other contents of B and C. *)
Lemma multiply_overwrites_witness :
  wf 2 example_state /\ wf 2 example_state_other /\
  matrix_a example_state_other = matrix_a example_state /\
  matrix_b_t example_state_other = matrix_b_t example_state /\
  exists s s',
    multiply 2 example_state = Some s /\
    multiply 2 example_state_other = Some s' /\
    matrix_c s' = matrix_c s /\ multiply 2 s = Some s /\
    matrix_c s = [[19; 22]; [43; 50]]%Z.
Proof.
  destruct (multiply_overwrites 2 example_state example_state_other
              example_state_wf example_state_other_wf eq_refl eq_refl)
    as (s & s' & Hs & Hs' & Hc & _ & _ & _ & Hidem).
  split; [apply example_state_wf |]. split; [apply example_state_other_wf |].
  split; [reflexivity |]. split; [reflexivity |].
  exists s, s'. split_and!; try assumption.
  vm_compute in Hs. inversion Hs. reflexivity.
Defined.

(** Rows 1 and 2 of a matrix of two rows: the worker fails; the empty
    range from 5 to 5 changes nothing. *)
Lemma multiply_range_bounds_witness :
  wf 2 example_state /\
  ~ in_bounds 2 (MkArgs 1 3) /\
  multiply_range 2 (MkArgs 1 3) example_state = None /\
  multiply_range 2 (MkArgs 5 5) example_state = Some example_state.
Proof.
  destruct (multiply_range_bounds 2 example_state (MkArgs 1 3)
              example_state_wf) as [Hdef _].
  destruct (multiply_range_bounds 2 example_state (MkArgs 5 5)
              example_state_wf) as [_ Hempty].
  assert (Hout : ~ in_bounds 2 (MkArgs 1 3)).
  { unfold in_bounds. simpl. lia. }
  split; [apply example_state_wf |]. split; [exact Hout |]. split.
  - destruct (multiply_range 2 (MkArgs 1 3) example_state) as [s |] eqn:Hrun;
      [| reflexivity].
    exfalso. apply Hout, Hdef. exists s. reflexivity.
  - apply Hempty. simpl. lia.
Defined.

Lemma overlapping_ranges_in_bounds :
  Forall (in_bounds 2) [MkArgs 0 2; MkArgs 1 2; MkArgs 0 1].
Proof. repeat constructor; unfold in_bounds; simpl; lia. Qed.

(** Three ranges that overlap, in two orders. *)
Lemma workers_order_irrelevant_witness :
  wf 2 example_state /\
  Forall (in_bounds 2) [MkArgs 0 2; MkArgs 1 2; MkArgs 0 1] /\
  [MkArgs 0 2; MkArgs 1 2; MkArgs 0 1] ≡ₚ [MkArgs 0 1; MkArgs 0 2; MkArgs 1 2] /\
  exists s,
    run_workers 2 [MkArgs 0 2; MkArgs 1 2; MkArgs 0 1] example_state = Some s /\
    run_workers 2 [MkArgs 0 1; MkArgs 0 2; MkArgs 1 2] example_state = Some s /\
    matrix_c s = [[19; 22]; [43; 50]]%Z.
Proof.
  assert (Hperm : [MkArgs 0 2; MkArgs 1 2; MkArgs 0 1]
                  ≡ₚ [MkArgs 0 1; MkArgs 0 2; MkArgs 1 2]).
  { symmetry. apply (Permutation_cons_app [MkArgs 0 2; MkArgs 1 2] []).
    rewrite app_nil_r. reflexivity. }
  destruct (workers_order_irrelevant 2 example_state _ _ example_state_wf
              overlapping_ranges_in_bounds Hperm) as (s & Hs & Hs').
  split; [apply example_state_wf |].
  split; [apply overlapping_ranges_in_bounds |]. split; [exact Hperm |].
  exists s. split_and!; try assumption.
  vm_compute in Hs. inversion Hs. reflexivity.
Defined.

(** [init] at dimension 3. *)
Lemma init_operands_witness :
  wf 3 (zero_state 3) /\ (Z.of_nat 3 <= 2 ^ 30)%Z /\
  exists s,
    init 3 (zero_state 3) = Some s /\ init 3 s = Some s /\
    load (matrix_a s) 1 2 = Some 3%Z /\
    load (matrix_b s) 1 2 = Some (-1)%Z /\
    load (matrix_b_t s) 1 2 = Some 1%Z.
Proof.
  assert (H2 : (Z.of_nat 3 <= 2 ^ 30)%Z) by (simpl; lia).
  destruct (init_operands 3 (zero_state 3) (zero_state_wf 3) H2)
    as (s & Hs & Hidem & Hcells).
  destruct (Hcells 1 2) as (Ha & Hb & Hbt); [lia | lia |].
  split; [apply zero_state_wf |]. split; [exact H2 |].
  exists s. split_and!; assumption.
Defined.


(** The four lines of [example_state]: 9, 9, 9 and 9. *)
Lemma print_layout_witness :
  wf 2 example_state /\ Forall is_long (mjoin (matrix_c example_state)) /\
  exists out,
    print 2 example_state = Some out /\
    length (split_lines out "") = 4 /\
    split_lines out "" !! 3 = Some "9".
Proof.
  destruct (print_layout 2 example_state example_state_wf example_state_long)
    as (out & Hout & Hlen & Hline).
  split; [apply example_state_wf |]. split; [apply example_state_long |].
  exists out. split; [exact Hout |]. split; [exact Hlen |].
  specialize (Hline 1 1). change (1 * 2 + 1) with 3 in Hline.
  rewrite Hline by lia. reflexivity.
Defined.

Lemma print_round_trip_witness :
  wf 2 example_state_other /\
  Forall is_long (mjoin (matrix_c example_state_other)) /\
  exists out,
    print 2 example_state_other = Some out /\
    parse_dump out = [-1; -2; -3; -4]%Z.
Proof.
  assert (Hlong : Forall is_long (mjoin (matrix_c example_state_other))).
  { repeat constructor; vm_compute; discriminate. }
  destruct (print_round_trip 2 example_state_other example_state_other_wf
              Hlong) as (out & Hout & Hparse).
  split; [apply example_state_other_wf |]. split; [exact Hlong |].
  exists out. split; [exact Hout | exact Hparse].
Defined.

(** The counts of the source, of dimension 1000. *)
Lemma operation_counts_witness :
  1 <= DIM_src /\ (Z.of_nat DIM_src < 2 ^ 21)%Z /\
  init_ops DIM_src = 3000000%Z /\ mul_ops DIM_src = 1000000000%Z /\
  mult_total_ops DIM_src = 2000000000%Z /\ print_ops DIM_src = 1000000%Z.
Proof.
  assert (H1 : 1 <= DIM_src) by (unfold DIM_src; lia).
  assert (H2 : (Z.of_nat DIM_src < 2 ^ 21)%Z) by (unfold DIM_src; lia).
  destruct (operation_counts DIM_src H1 H2) as (Hi & Hm & _ & Ht & Hp & _).
  split; [exact H1 |]. split; [exact H2 |].
  rewrite Hi, Hm, Ht, Hp. unfold DIM_src. split_and!; reflexivity.
Defined.

(** Durations 3, 2 and 3: initialization and printing tie above the
    multiplication, and initialization is reported. *)
Lemma bottleneck_maximal_witness :
  (forall x y : Z, (x >=? y)%Z = true \/ (y >=? x)%Z = true) /\
  (forall x y z : Z, (x >=? y)%Z = true -> (y >=? z)%Z = true ->
     (x >=? z)%Z = true) /\
  bottleneck Z.geb 3%Z 2%Z 3%Z = Initialization /\
  (phase_time 3 2 3 (bottleneck Z.geb 3 2 3) >=? 3)%Z = true.
Proof.
  assert (Htotal : forall x y : Z, (x >=? y)%Z = true \/ (y >=? x)%Z = true).
  { intros x y. destruct (Z.geb_spec x y); [left; reflexivity |].
    right. apply Z.geb_le. lia. }
  assert (Htrans : forall x y z : Z, (x >=? y)%Z = true -> (y >=? z)%Z = true ->
            (x >=? z)%Z = true).
  { intros x y z Hxy Hyz. apply Z.geb_le. apply Z.geb_le in Hxy, Hyz. lia. }
  destruct (bottleneck_maximal Z.geb 3%Z 2%Z 3%Z Htotal Htrans)
    as (Hi & _ & _).
  split; [exact Htotal |]. split; [exact Htrans |].
  split; [reflexivity | exact Hi].
Defined.

(** ** The threads at dimension 2 *)

Lemma small_dimension : 1 <= 2 /\ (Z.of_nat 2 <= INT_MAX)%Z.
Proof. split; [lia | unfold INT_MAX; simpl; lia]. Qed.

Lemma full_schedule_run :
  main_threads 2 glibc_unrepresentable all_ok [] full_schedule
  = Some (Config (MExit 0) [MkArgs 0 1; MkArgs 1 2] [WDone; WDone] 3
            (State [[0; 1]; [1; 2]] [[0; -1]; [1; 0]] [[0; 1]; [-1; 0]]
                   [[1; 0]; [2; -1]])%Z
            "" (Some (dump [1; 0; 2; -1]%Z))).
Proof. vm_compute. reflexivity. Qed.

Lemma full_schedule_join_fails :
  main_threads 2 glibc_unrepresentable (join_fails 1) [] full_schedule
  = Some (Config (MExit 1) [MkArgs 0 1; MkArgs 1 2] [WDone; WDone] 3
            (State [[0; 1]; [1; 2]] [[0; -1]; [1; 0]] [[0; 1]; [-1; 0]]
                   [[1; 0]; [2; -1]])%Z
            (msg_join 1) None).
Proof. vm_compute. reflexivity. Qed.

Lemma barrier_schedule_run :
  main_threads 2 glibc_unrepresentable all_ok [] [Main; Main; Worker 0; Main]
  = Some (Config MBarrier [MkArgs 0 1; MkArgs 1 2] [WWaiting; WCreated] 2
            (initialised 2) "" None).
Proof. vm_compute. reflexivity. Qed.

Lemma boot_example :
  boot 2 all_ok (worker_count 2 glibc_unrepresentable []) (initialised 2)
  = Some (Config (MCreating 1 0 0 0) [] [] 0 (initialised 2) "" None).
Proof. reflexivity. Qed.

Lemma full_schedule_enabled :
  enabled_run 2 all_ok (worker_count 2 glibc_unrepresentable []) full_schedule
    (Config (MCreating 1 0 0 0) [] [] 0 (initialised 2) "" None).
Proof.
  vm_compute.
  repeat match goal with
         | |- _ /\ _ => split
         | |- True => exact I
         | |- _ = _ => reflexivity
         | |- (exists _, _) -> False => intros [? ?]; discriminate
         | |- _ -> _ \/ _ =>
             let H := fresh in intros H; (discriminate H || (right; reflexivity))
         end.
Qed.

(** Both workers have left the barrier: it has seen three arrivals. *)
Lemma barrier_safety_witness :
  1 <= 2 /\ (Z.of_nat 2 <= INT_MAX)%Z /\
  exists c,
    main_threads 2 glibc_unrepresentable all_ok [] full_schedule = Some c /\
    c_workers c !! 0 = Some WDone /\
    c_arrived c = 3%Z /\ length (c_workers c) = 2 /\
    make_targs 2 2 = Some (c_targs c).
Proof.
  destruct small_dimension as [H1 H2].
  destruct (barrier_safety 2 glibc_unrepresentable all_ok [] full_schedule
              H1 H2) as (c & Hc & _ & Hpassed).
  pose proof Hc as Hv. rewrite full_schedule_run in Hv. injection Hv as Hv.
  assert (Hw : c_workers c !! 0 = Some WDone) by (rewrite <- Hv; reflexivity).
  destruct (Hpassed 0 WDone Hw eq_refl) as (Ha & Hl & Ht).
  split; [exact H1 |]. split; [exact H2 |].
  exists c. split; [exact Hc |]. split; [exact Hw |].
  split; [exact Ha |]. split; [exact Hl | exact Ht].
Defined.

(** Every call succeeds: [main] returns 0. *)
Lemma exit_code_zero_iff_witness :
  1 <= 2 /\ (Z.of_nat 2 <= INT_MAX)%Z /\
  exists c,
    main_threads 2 glibc_unrepresentable all_ok [] full_schedule = Some c /\
    c_main c = MExit 0 /\ resources_ok all_ok 2.
Proof.
  destruct small_dimension as [H1 H2].
  destruct (exit_code_zero_iff 2 glibc_unrepresentable all_ok [] full_schedule
              H1 H2) as (c & Hc & Hcode).
  pose proof Hc as Hv. rewrite full_schedule_run in Hv. injection Hv as Hv.
  assert (Hm : c_main c = MExit 0) by (rewrite <- Hv; reflexivity).
  destruct (Hcode 0%Z Hm) as [_ [Hok _]].
  split; [exact H1 |]. split; [exact H2 |].
  exists c. split; [exact Hc |]. split; [exact Hm | exact (Hok eq_refl)].
Defined.

(** The file of dimension 2 holds 1, 0, 2 and -1. *)
Lemma successful_run_output_witness :
  1 <= 2 /\ (Z.of_nat 2 <= INT_MAX)%Z /\
  exists c out,
    main_threads 2 glibc_unrepresentable all_ok [] full_schedule = Some c /\
    c_main c = MExit 0 /\
    (init 2 (zero_state 2) ≫= multiply 2) = Some (c_mem c) /\
    print 2 (c_mem c) = Some out /\ c_serial c = Some out /\
    out = dump [1; 0; 2; -1]%Z.
Proof.
  destruct small_dimension as [H1 H2].
  destruct (successful_run_output 2 glibc_unrepresentable all_ok []
              full_schedule H1 H2) as (c & Hc & Hout).
  pose proof Hc as Hv. rewrite full_schedule_run in Hv. injection Hv as Hv.
  assert (Hm : c_main c = MExit 0) by (rewrite <- Hv; reflexivity).
  destruct (Hout Hm) as (out & Hmul & Hprint & Hser & _).
  split; [exact H1 |]. split; [exact H2 |].
  exists c, out. split; [exact Hc |]. split; [exact Hm |].
  split; [exact Hmul |]. split; [exact Hprint |]. split; [exact Hser |].
  assert (Hs : c_serial c = Some (dump [1; 0; 2; -1]%Z))
    by (rewrite <- Hv; reflexivity).
  congruence.
Defined.

(** The second thread cannot be joined. *)
Lemma failed_run_report_witness :
  1 <= 2 /\ (Z.of_nat 2 <= INT_MAX)%Z /\
  exists c,
    main_threads 2 glibc_unrepresentable (join_fails 1) [] full_schedule
      = Some c /\
    c_main c = MExit 1 /\ c_serial c = None /\ c_cerr c = msg_join 1.
Proof.
  destruct small_dimension as [H1 H2].
  destruct (failed_run_report 2 glibc_unrepresentable (join_fails 1) []
              full_schedule H1 H2) as (c & Hc & Hrep).
  pose proof Hc as Hv. rewrite full_schedule_join_fails in Hv.
  injection Hv as Hv.
  assert (Hm : c_main c = MExit 1) by (rewrite <- Hv; reflexivity).
  destruct (Hrep Hm) as [Hser _].
  split; [exact H1 |]. split; [exact H2 |].
  exists c. split; [exact Hc |]. split; [exact Hm |].
  split; [exact Hser |]. rewrite <- Hv. reflexivity.
Defined.

Lemma second_thread_not_created :
  ~ creation_ok (create_fails 1) (worker_count 2 glibc_unrepresentable []).
Proof.
  intros [_ H]. specialize (H 1%Z).
  change (worker_count 2 glibc_unrepresentable []) with 2%Z in H.
  assert (Hf : create_ok (create_fails 1) 1 = false) by reflexivity.
  rewrite H in Hf by lia. discriminate.
Qed.

(** The second thread cannot be created. *)
Lemma creation_failure_no_write_witness :
  1 <= 2 /\ (Z.of_nat 2 <= INT_MAX)%Z /\
  ~ creation_ok (create_fails 1) (worker_count 2 glibc_unrepresentable []) /\
  exists c,
    main_threads 2 glibc_unrepresentable (create_fails 1) [] full_schedule
      = Some c /\
    init 2 (zero_state 2) = Some (c_mem c) /\ c_serial c = None.
Proof.
  destruct small_dimension as [H1 H2].
  split; [exact H1 |]. split; [exact H2 |].
  split; [exact second_thread_not_created |].
  exact (creation_failure_no_write 2 glibc_unrepresentable (create_fails 1) []
           full_schedule H1 H2 second_thread_not_created).
Defined.

(** [main] and the first worker wait in the barrier; the second worker
    can move. *)
Lemma no_deadlock_witness :
  1 <= 2 /\ (Z.of_nat 2 <= INT_MAX)%Z /\
  exists c th c',
    main_threads 2 glibc_unrepresentable all_ok [] [Main; Main; Worker 0; Main]
      = Some c /\
    c_main c = MBarrier /\
    enabled all_ok 2 th c /\ exec 2 all_ok 2 th c = Some c' /\ c' <> c.
Proof.
  destruct small_dimension as [H1 H2].
  destruct (no_deadlock 2 glibc_unrepresentable all_ok []
              [Main; Main; Worker 0; Main] H1 H2) as (c & Hc & Hmove).
  pose proof Hc as Hv. rewrite barrier_schedule_run in Hv. injection Hv as Hv.
  assert (Hm : c_main c = MBarrier) by (rewrite <- Hv; reflexivity).
  assert (Hne : ~ exited c).
  { intros [code Hcode]. rewrite Hm in Hcode. discriminate. }
  destruct (Hmove Hne) as (th & c' & Hen & Hstep & Hdiff).
  split; [exact H1 |]. split; [exact H2 |].
  exists c, th, c'. split; [exact Hc |]. split; [exact Hm |].
  split; [exact Hen |]. split; [exact Hstep | exact Hdiff].
Defined.

Lemma threads_terminate_witness :
  1 <= 2 /\ (Z.of_nat 2 <= INT_MAX)%Z /\
  exists rest c,
    main_threads 2 glibc_unrepresentable all_ok []
      ([Main; Main; Worker 0; Main] ++ rest) = Some c /\
    exited c.
Proof.
  destruct small_dimension as [H1 H2].
  split; [exact H1 |]. split; [exact H2 |].
  exact (threads_terminate 2 glibc_unrepresentable all_ok []
           [Main; Main; Worker 0; Main] H1 H2).
Defined.

(** The seventeen steps of [full_schedule], against a bound of 23. *)
Lemma enabled_steps_bounded_witness :
  1 <= 2 /\ (Z.of_nat 2 <= INT_MAX)%Z /\
  exists c0,
    boot 2 all_ok (worker_count 2 glibc_unrepresentable []) (initialised 2)
      = Some c0 /\
    enabled_run 2 all_ok (worker_count 2 glibc_unrepresentable [])
      full_schedule c0 /\
    length full_schedule <= 23.
Proof.
  destruct small_dimension as [H1 H2].
  destruct (enabled_steps_bounded 2 glibc_unrepresentable all_ok []
              full_schedule H1 H2) as (c0 & Hboot & Hbound).
  pose proof Hboot as Hv. rewrite boot_example in Hv. injection Hv as Hv.
  assert (Hen : enabled_run 2 all_ok (worker_count 2 glibc_unrepresentable [])
                  full_schedule c0)
    by (rewrite <- Hv; exact full_schedule_enabled).
  split; [exact H1 |]. split; [exact H2 |].
  exists c0. split; [exact Hboot |]. split; [exact Hen |].
  exact (Hbound Hen).
Defined.
